(** * Premier League simulator: a shallow embedding of the simulation core

    The development follows [main.go] (the simulation and its GUI driver)
    and [database.go] (the form-string helper):

    - Go's [int] is a 64-bit two's-complement integer: a [Z] with the
      wrap-around written out ([wrap]);
    - Go's [float64] is the kernel's binary64 ([PrimFloat]), so every
      floating-point operation below rounds the way the program's does
      (no fused multiply-add, as on amd64);
    - [*Team] pointers are indices into an arena of team objects
      ([heap]); a nil or dangling pointer is an index out of range, and
      a dereference of it is a panic ([None]);
    - [map[string]float64] is a [gmap string _];
    - the global [math/rand] source and the wall clock are the
      environment ([Env]). *)

From Stdlib Require Import ZArith Floats QArith Qcanon.
From stdpp Require Import gmap strings list fin_maps.

Set Warnings "-inexact-float".
Local Open Scope Z_scope.

(** ** Go's [int] *)

Definition wrap (z : Z) : Z := (z + 2 ^ 63) mod 2 ^ 64 - 2 ^ 63.

Definition int_add (a b : Z) : Z := wrap (a + b).
Definition int_sub (a b : Z) : Z := wrap (a - b).
Definition int_mul (a b : Z) : Z := wrap (a * b).

Definition minInt64 : Z := - 2 ^ 63.
Definition maxInt64 : Z := 2 ^ 63 - 1.
Definition is_int (z : Z) : Prop := minInt64 <= z <= maxInt64.

(** ** Go's [float64] *)

(** [float64(n)] for an [int] n: the nearest binary64. *)
Definition float64_of_int (z : Z) : float :=
  SF2Prim (binary_normalize prec emax z 0 false).

(** [int(f)] for a [float64] f: truncation toward zero. Outside the
    range of [int] (and for NaN) the Go specification leaves the result to
    the implementation; amd64's CVTTSD2SQ yields the smallest [int]. *)
Definition int_of_float64 (f : float) : Z :=
  match Prim2SF f with
  | S754_zero _ => 0
  | S754_finite s m e =>
      let a := if 0 <=? e then Z.pos m * 2 ^ e else Z.pos m / 2 ^ (- e) in
      let v := if s then - a else a in
      if (minInt64 <=? v) && (v <=? maxInt64) then v else minInt64
  | _ => minInt64
  end.

(** ** The data model (main.go, lines 52-84) *)

Record Team := mkTeam {
  Name : string;
  Played : Z;
  Won : Z;
  Drawn : Z;
  Lost : Z;
  GoalsFor : Z;
  GoalsAgainst : Z;
  GoalDifference : Z;
  Points : Z;
  BaseStrength : Z;
  CurrentStrength : Z;
  (** last 5 games, most recent first: "W", "D", "L", or "" for none.
      Every slice the program builds for this field has capacity equal to
      its length, and no backing array is written after the slice is
      stored in a team, so the field is a value. *)
  Form : list string
}.

(** A [*Team]: the index of the object in the arena. *)
Abbreviation ptr := nat (only parsing).

Record Match := mkMatch {
  HomeTeam : ptr;
  AwayTeam : ptr;
  HomeGoals : Z;
  AwayGoals : Z;
  IsPlayed : bool;
  IsFixed : bool;
  Week : Z
}.

Record League := mkLeague {
  Teams : list ptr;
  LWeek : Z;            (* League.Week *)
  Fixtures : list (list Match)
}.

Record PremierLeagueTeam := mkPLT {
  plID : Z;
  plName : string;
  plShortName : string;
  plBaseStrength : Z;
  plForm : string;
  plPosition : Z
}.

Definition getMockPremierLeagueTeams : list PremierLeagueTeam :=
  [ mkPLT 1 "Manchester City" "MCI" 85 "" 1;
    mkPLT 2 "Arsenal" "ARS" 82 "" 2;
    mkPLT 3 "Liverpool" "LIV" 83 "" 3;
    mkPLT 4 "Manchester United" "MUN" 80 "" 4;
    mkPLT 5 "Tottenham" "TOT" 79 "" 5;
    mkPLT 6 "Newcastle" "NEW" 78 "" 6;
    mkPLT 7 "Chelsea" "CHE" 77 "" 7;
    mkPLT 8 "Aston Villa" "AVL" 76 "" 8;
    mkPLT 9 "Brighton" "BHA" 75 "" 9;
    mkPLT 10 "West Ham" "WHU" 74 "" 10 ].

(** ** Team state (main.go, lines 142-213 and 1002-1012) *)

(** The loop of [updateTeamStrength] over [t.Form], from index [i]. *)
Fixpoint formLoop (i : Z) (form : list string) (formMultiplier : float) : float :=
  match form with
  | [] => formMultiplier
  | result :: rest =>
      let weight := (float64_of_int (int_sub 5 i) / 15)%float in
      let formMultiplier' :=
        if String.eqb result "W" then (formMultiplier + 0.05 * weight)%float
        else if String.eqb result "D" then formMultiplier
        else if String.eqb result "L" then (formMultiplier - 0.05 * weight)%float
        else formMultiplier in
      formLoop (i + 1) rest formMultiplier'
  end.

Definition minStrength (base : Z) : Z := int_of_float64 (float64_of_int base * 0.85)%float.
Definition maxStrength (base : Z) : Z := int_of_float64 (float64_of_int base * 1.15)%float.

Definition set_CurrentStrength (t : Team) (s : Z) : Team :=
  mkTeam (Name t) (Played t) (Won t) (Drawn t) (Lost t) (GoalsFor t)
    (GoalsAgainst t) (GoalDifference t) (Points t) (BaseStrength t) s (Form t).

Definition updateTeamStrength (t : Team) : Team :=
  let formMultiplier := formLoop 0 (Form t) 1%float in
  let cur := int_of_float64 (float64_of_int (BaseStrength t) * formMultiplier)%float in
  let minS := minStrength (BaseStrength t) in
  let maxS := maxStrength (BaseStrength t) in
  set_CurrentStrength t
    (if cur <? minS then minS else if cur >? maxS then maxS else cur).

(** [UpdateTeamStats]: [t.Form[:4]] panics when the form holds fewer than
    4 entries. *)
Definition UpdateTeamStats (t : Team) (goalsFor goalsAgainst : Z) : option Team :=
  let gf := int_add (GoalsFor t) goalsFor in
  let ga := int_add (GoalsAgainst t) goalsAgainst in
  let gd := int_sub gf ga in
  if bool_decide (length (Form t) < 4)%nat then None
  else
    let '(won, drawn, lost, points, code) :=
      if goalsFor >? goalsAgainst then
        (int_add (Won t) 1, Drawn t, Lost t, int_add (Points t) 3, "W"%string)
      else if goalsFor =? goalsAgainst then
        (Won t, int_add (Drawn t) 1, Lost t, int_add (Points t) 1, "D"%string)
      else
        (Won t, Drawn t, int_add (Lost t) 1, Points t, "L"%string) in
    let played := int_add (int_add won drawn) lost in
    Some (updateTeamStrength
            (mkTeam (Name t) played won drawn lost gf ga gd points
               (BaseStrength t) (CurrentStrength t) (code :: take 4 (Form t)))).

Definition ReverseTeamStats (t : Team) (goalsFor goalsAgainst : Z) : Team :=
  let gf := int_sub (GoalsFor t) goalsFor in
  let ga := int_sub (GoalsAgainst t) goalsAgainst in
  let gd := int_sub gf ga in
  let '(won, drawn, lost, points) :=
    if goalsFor >? goalsAgainst then
      (int_sub (Won t) 1, Drawn t, Lost t, int_sub (Points t) 3)
    else if goalsFor =? goalsAgainst then
      (Won t, int_sub (Drawn t) 1, Lost t, int_sub (Points t) 1)
    else
      (Won t, Drawn t, int_sub (Lost t) 1, Points t) in
  let played := int_add (int_add won drawn) lost in
  mkTeam (Name t) played won drawn lost gf ga gd points
    (BaseStrength t) (CurrentStrength t) (Form t).

Definition ResetTeamStats (t : Team) : Team :=
  mkTeam (Name t) 0 0 0 0 0 0 0 0 (BaseStrength t) (CurrentStrength t) (Form t).

(** [make([]string, 5)] *)
Definition emptyForm : list string := replicate 5 ""%string.

(** [for j, result := range s { form[j] = string(result) }]: the form
    strings hold the one-byte codes W, D and L, so the loop visits the
    bytes; writing past the fifth entry panics. *)
Fixpoint fillForm (j : nat) (s : string) (form : list string) : option (list string) :=
  match s with
  | EmptyString => Some form
  | String result rest =>
      if bool_decide (j < length form)%nat
      then fillForm (S j) rest (<[j := String result EmptyString]> form)
      else None
  end.

(** The team [NewLeague] builds from a selected team (main.go, lines
    121-134). *)
Definition newLeagueTeam (team : PremierLeagueTeam) : option Team :=
  form ← fillForm 0 (plForm team) emptyForm;
  Some (mkTeam (plName team) 0 0 0 0 0 0 0 0
          (plBaseStrength team) (plBaseStrength team) form).

(** [parseFormString] (database.go, lines 367-379): entries past the
    fifth are dropped. *)
Fixpoint parseLoop (i : nat) (s : string) (form : list string) : list string :=
  match s with
  | EmptyString => form
  | String char rest =>
      parseLoop (S i) rest
        (if bool_decide (i < 5)%nat then <[i := String char EmptyString]> form
         else form)
  end.

Definition parseFormString (formStr : string) : list string :=
  if String.eqb formStr "" then emptyForm
  else parseLoop 0 formStr emptyForm.

(** ** The environment: [math/rand]'s global source and the wall clock *)

(** [rand.Float64] and [rand.Intn] draw from the global source and
    advance it. The top-level [rand.Seed] is deprecated: as of Go 1.24
    (the README names Go 1.24.3) a call of it has no effect, unless the
    program is built with the setting [GODEBUG=randseednop=0] (the
    default when the module's go line is older), where it puts the
    global source into a state fixed by the seed, as it did before.
    [randseednop] is that setting. [time_UnixNano k] is what the k-th
    reading of [time.Now().UnixNano()] returns. *)
Class Env := {
  rngState : Type;
  randseednop : bool;
  rand_Seed : Z -> rngState;
  rand_Float64 : rngState -> float * rngState;
  rand_Intn : Z -> rngState -> Z * rngState;
  time_UnixNano : nat -> Z
}.

(** [rand.Intn n] returns a number of [[0, n)]. *)
Definition IntnInRange `{Env} : Prop :=
  forall n s, 0 < n -> 0 <= (rand_Intn n s).1 < n.

(** What the program can change: the arena of team objects, the GUI's
    league, the global random source, and the clock readings used. *)
Record World `{Env} := mkWorld {
  heap : list Team;
  league : League;
  rng : rngState;
  ticks : nat
}.
Arguments mkWorld {_} _ _ _ _.

(** A computation that may panic. *)
Definition M `{Env} (A : Type) : Type := World -> option (A * World).

#[export] Instance M_ret `{Env} : MRet M := fun A a w => Some (a, w).
#[export] Instance M_bind `{Env} : MBind M := fun A B k m w =>
  match m w with Some (a, w') => k a w' | None => None end.
Definition panic `{Env} {A} : M A := fun _ => None.

Fixpoint forM_ `{Env} {A} (l : list A) (body : A -> M unit) : M unit :=
  match l with
  | [] => mret tt
  | a :: l' => body a ;; forM_ l' body
  end.

Fixpoint mapM' `{Env} {A B} (f : A -> M B) (l : list A) : M (list B) :=
  match l with
  | [] => mret []
  | a :: l' => b ← f a; bs ← mapM' f l'; mret (b :: bs)
  end.

Section Runtime.
Context `{Env}.

(** [*p] *)
Definition deref (p : ptr) : M Team :=
  fun w => match heap w !! p with Some t => Some (t, w) | None => None end.

(** [*p = t] *)
Definition store (p : ptr) (t : Team) : M unit :=
  fun w => if bool_decide (p < length (heap w))%nat
           then Some (tt, mkWorld (<[p := t]> (heap w)) (league w) (rng w) (ticks w))
           else None.

(** [&Team{...}]: a fresh object. *)
Definition alloc (t : Team) : M ptr :=
  fun w => Some (length (heap w),
                 mkWorld (heap w ++ [t]) (league w) (rng w) (ticks w)).

Definition getLeague : M League := fun w => Some (league w, w).

(** The state of the global source after
    [rand.Seed(time.Now().UnixNano())]: as it was, or, where [rand.Seed]
    still seeds, the state the clock reading fixes. *)
Definition seeded (w : World) : rngState :=
  if randseednop then rng w else rand_Seed (time_UnixNano (ticks w)).

(** [rand.Seed(time.Now().UnixNano())]: the clock is read in either
    case. *)
Definition seedFromClock : M unit :=
  fun w => Some (tt, mkWorld (heap w) (league w) (seeded w) (S (ticks w))).

Definition Float64 : M float :=
  fun w => let '(r, g) := rand_Float64 (rng w) in
           Some (r, mkWorld (heap w) (league w) g (ticks w)).

(** [rand.Intn(n)] panics when [n <= 0]. *)
Definition Intn (n : Z) : M Z :=
  fun w => if n <=? 0 then None
           else let '(k, g) := rand_Intn n (rng w) in
                Some (k, mkWorld (heap w) (league w) g (ticks w)).

(** ** The match outcome sampler (main.go, lines 215-245) *)

Definition predictMatchResult (team1 team2 : Team) : M (Z * Z) :=
  let totalStrength := int_add (CurrentStrength team1) (CurrentStrength team2) in
  let team1Prob :=
    (float64_of_int (CurrentStrength team1) / float64_of_int totalStrength)%float in
  seedFromClock;;
  r ← Float64;
  if (r <? team1Prob)%float then
    g ← Intn 3;
    let team1Goals := int_add g 1 in
    team2Goals ← Intn team1Goals;
    mret (team1Goals, team2Goals)
  else if (r <? team1Prob + 0.2)%float then
    team1Goals ← Intn 2;
    mret (team1Goals, team1Goals)
  else
    g ← Intn 3;
    let team2Goals := int_add g 1 in
    team1Goals ← Intn team2Goals;
    mret (team1Goals, team2Goals).

End Runtime.

(** ** The fixture scheduler (main.go, lines 247-293) *)

(** [tmp := idx[1]; copy(idx[1:n-1], idx[2:]); idx[n-1] = tmp] *)
Definition rotate (idx : list nat) : list nat :=
  match idx with
  | i0 :: i1 :: rest => i0 :: rest ++ [i1]
  | _ => idx
  end.

(** The match of position [i] in a round: [idx[i]] against
    [idx[numTeams-1-i]], swapped in the second half. Every match is
    built as [Match{HomeTeam: .., AwayTeam: ..}]: the other fields are
    zero. *)
Definition pairing (teams : list ptr) (half : nat) (idx : list nat) (i : nat)
  : option Match :=
  home ← idx !! i;
  away ← idx !! (length teams - 1 - i)%nat;
  let '(home, away) := if (half =? 1)%nat then (away, home) else (home, away) in
  h ← teams !! home;
  a ← teams !! away;
  Some (mkMatch h a 0 0 false false 0).

Definition weekMatches (teams : list ptr) (half : nat) (idx : list nat)
  : option (list Match) :=
  mapM (pairing teams half idx) (seq 0 (length teams / 2)).

Fixpoint roundsLoop (rounds : nat) (teams : list ptr) (half : nat) (idx : list nat)
  : option (list (list Match)) :=
  match rounds with
  | O => Some []
  | S rounds' =>
      week ← weekMatches teams half idx;
      rest ← roundsLoop rounds' teams half (rotate idx);
      Some (week :: rest)
  end.

(** One pass of the [half] loop: [numTeams-1] rounds from fresh indices. *)
Definition halfSeason (teams : list ptr) (half : nat) : option (list (list Match)) :=
  roundsLoop (length teams - 1) teams half (seq 0 (length teams)).

Definition generateFixtures (l : League) : option (list (list Match)) :=
  let teams := Teams l in
  if bool_decide (length teams ≠ 4%nat) then None   (* panic *)
  else
    blocks ← mapM (fun _ : nat =>
                     halves ← mapM (halfSeason teams) [0%nat; 1%nat];
                     Some (concat halves))
                  [0%nat; 1%nat; 2%nat];
    Some (concat blocks).

(** ** Entering week 1 (main.go, lines 472-481 and 1016-1025) *)

Definition set_Week (m : Match) (w : Z) : Match :=
  mkMatch (HomeTeam m) (AwayTeam m) (HomeGoals m) (AwayGoals m)
    (IsPlayed m) (IsFixed m) w.

(** [for week := range Fixtures { for i := range Fixtures[week] {
      Fixtures[week][i].Week = week + 1 } }] *)
Definition setWeekNumbers (fixtures : list (list Match)) : list (list Match) :=
  imap (fun week matches =>
          map (fun m => set_Week m (int_add (Z.of_nat week) 1)) matches)
       fixtures.

(** The block that opens both [simulateNextWeek] and
    [simulateAllRemainingWeeks]. *)
Definition enterFirstWeek (l : League) : option League :=
  if LWeek l =? 0 then
    fixtures ← generateFixtures (mkLeague (Teams l) 1 (Fixtures l));
    Some (mkLeague (Teams l) 1 (setWeekNumbers fixtures))
  else Some l.

(** ** The standings replay (main.go, lines 514-534) *)

Section Standings.
Context `{Env}.

Definition setLeague (l : League) : M unit :=
  fun w => Some (tt, mkWorld (heap w) l (rng w) (ticks w)).

(** [p.UpdateTeamStats(gf, ga)] through a pointer. *)
Definition updateAt (p : ptr) (goalsFor goalsAgainst : Z) : M unit :=
  t ← deref p;
  match UpdateTeamStats t goalsFor goalsAgainst with
  | Some t' => store p t'
  | None => panic
  end.

Definition resetAt (p : ptr) : M unit :=
  t ← deref p; store p (ResetTeamStats t).

Definition replayMatch (m : Match) : M unit :=
  if IsPlayed m || IsFixed m then
    updateAt (HomeTeam m) (HomeGoals m) (AwayGoals m);;
    updateAt (AwayTeam m) (AwayGoals m) (HomeGoals m)
  else mret tt.

Definition recalculateAllStats : M unit :=
  l ← getLeague;
  forM_ (Teams l) resetAt;;
  forM_ (take (Z.to_nat (LWeek l)) (Fixtures l))
        (fun week => forM_ week replayMatch).

End Standings.

(** ** The table order (main.go, lines 328-335 and 671-677) *)

(** [sort.Slice] on at most 12 elements is the library's insertion sort:
    each element in turn moves left while it is [less] than its left
    neighbour. [rprefix] is the sorted prefix, last element first. *)
Fixpoint insertBack {A} (less : A -> A -> bool) (x : A) (rprefix : list A) : list A :=
  match rprefix with
  | [] => [x]
  | y :: rest => if less x y then y :: insertBack less x rest else x :: rprefix
  end.

Definition sortSlice {A} (less : A -> A -> bool) (data : list A) : list A :=
  reverse (fold_left (fun rprefix x => insertBack less x rprefix) data []).

(** The comparison both [PrintLeagueTable] and [refreshDisplay] pass. *)
Definition lessTeams (ti tj : Team) : bool :=
  if negb (Points ti =? Points tj) then Points ti >? Points tj
  else GoalDifference ti >? GoalDifference tj.

Section Table.
Context `{Env}.

(** The sort that opens [refreshDisplay] (and [PrintLeagueTable]): it
    reorders the pointers of [l.Teams], comparing the teams they point
    to. *)
Definition sortTeams : M unit :=
  l ← getLeague;
  ts ← mapM' (fun p => t ← deref p; mret (p, t)) (Teams l);
  setLeague (mkLeague (sortSlice (fun a b => lessTeams a.2 b.2) ts).*1
               (LWeek l) (Fixtures l)).

(** The rows of [generateStandingsTable], as [refreshDisplay] shows
    them: the teams in the order of [l.Teams] after the sort. *)
Definition standingsTable : M (list Team) :=
  sortTeams;;
  l ← getLeague;
  mapM' deref (Teams l).

End Table.

(** ** Championship probabilities (main.go, lines 831-1000) *)

(** The arithmetic of the probability map's values. The program
    computes in [float64]; the same code read over the rationals is its
    exact-arithmetic counterpart. *)
Class Num (X : Type) := {
  fromInt : Z -> X;
  add : X -> X -> X;
  mul : X -> X -> X;
  div : X -> X -> X;
  isZero : X -> bool        (* [x == 0] *)
}.

#[export] Instance float64_Num : Num float := {
  fromInt := float64_of_int;
  add := PrimFloat.add;
  mul := PrimFloat.mul;
  div := PrimFloat.div;
  isZero := fun x => PrimFloat.eqb x 0%float
}.

#[export] Instance exact_Num : Num Qc := {
  fromInt := fun z => Q2Qc (inject_Z z);
  add := Qcplus;
  mul := Qcmult;
  div := Qcdiv;
  isZero := fun x => bool_decide (x = Q2Qc 0)
}.

(** [m[k]] on a Go map: the zero value when the key is absent. *)
Definition getInt (m : gmap string Z) (k : string) : Z := default 0 (m !! k).

Section Probabilities.
Context `{Env} {X : Type} `{Num X}.

Definition getNum (m : gmap string X) (k : string) : X :=
  default (fromInt 0) (m !! k).

(** The highest points, from [maxPoints := -1]. *)
Definition maxPointsOf (ts : list Team) : Z :=
  fold_left (fun mp t => if Points t >? mp then Points t else mp) ts (-1).

(** The team(s) with the best goal difference among those with the
    highest points, from [maxGoalDiff := -999]. *)
Definition championsOf (ts : list Team) : list string :=
  let maxPoints := maxPointsOf ts in
  (fold_left
     (fun '(maxGoalDiff, champions) t =>
        if Points t =? maxPoints then
          if GoalDifference t >? maxGoalDiff then (GoalDifference t, [Name t])
          else if GoalDifference t =? maxGoalDiff
               then (maxGoalDiff, champions ++ [Name t])
               else (maxGoalDiff, champions)
        else (maxGoalDiff, champions))
     ts (-999, [])).2.

(** Branch 1: the season is over (lines 840-871). *)
Definition seasonOver (ts : list Team) : gmap string X :=
  let champions := championsOf ts in
  let counts :=
    fold_left
      (fun counts name =>
         <[name := div (fromInt 100) (fromInt (Z.of_nat (length champions)))]> counts)
      champions (∅ : gmap string X) in
  fold_left
    (fun counts t =>
       if isZero (getNum counts (Name t)) then <[Name t := fromInt 0]> counts
       else counts)
    ts counts.

(** Branch 2: has the first team of the list already won (lines 873-892)? *)
Definition maxPointsMap (ts : list Team) : gmap string Z :=
  fold_left
    (fun m t =>
       let remainingGames := int_sub 18 (Played t) in
       <[Name t := int_add (Points t) (int_mul remainingGames 3)]> m)
    ts ∅.

Definition currentPointsMap (ts : list Team) : gmap string Z :=
  fold_left (fun m t => <[Name t := Points t]> m) ts ∅.

Definition leaderUnreachable (ts : list Team) : bool :=
  match ts with
  | [] => true
  | leader :: others =>
      forallb
        (fun t => negb (getInt (maxPointsMap ts) (Name t)
                        >=? getInt (currentPointsMap ts) (Name leader)))
        others
  end.

Definition leaderHasWon (ts : list Team) : gmap string X :=
  match ts with
  | [] => ∅
  | leader :: _ =>
      fold_left
        (fun counts t =>
           if String.eqb (Name t) (Name leader)
           then <[Name t := fromInt 100]> counts
           else <[Name t := fromInt 0]> counts)
        ts ∅
  end.

(** Branch 3: before the first week (lines 906-916). *)
Definition coldStart (ts : list Team) : gmap string X :=
  let totalStrength := fold_left (fun s t => int_add s (BaseStrength t)) ts 0 in
  fold_left
    (fun counts t =>
       <[Name t := mul (div (fromInt (BaseStrength t)) (fromInt totalStrength))
                       (fromInt 100)]> counts)
    ts ∅.

(** Branch 4: Monte Carlo (lines 918-999). *)

(** The copy of a team that opens every trial. *)
Definition copyTeam (t : Team) : Team :=
  mkTeam (Name t) (Played t) (Won t) (Drawn t) (Lost t) (GoalsFor t)
    (GoalsAgainst t) (GoalDifference t) (Points t) (BaseStrength t)
    (CurrentStrength t) (Form t).   (* [formCopy] *)

(** [for _, t := range teamsCopy { if t.Name == name { found = t } }] *)
Fixpoint findCopy (name : string) (teamsCopy : list ptr) (found : option ptr)
  : M (option ptr) :=
  match teamsCopy with
  | [] => mret found
  | p :: rest =>
      t ← deref p;
      findCopy name rest (if String.eqb (Name t) name then Some p else found)
  end.

Definition simulateMatch (teamsCopy : list ptr) (m : Match) : M unit :=
  homeTeam ← deref (HomeTeam m);
  awayTeam ← deref (AwayTeam m);
  home ← findCopy (Name homeTeam) teamsCopy None;
  away ← findCopy (Name awayTeam) teamsCopy None;
  match home, away with
  | Some home, Some away =>
      h ← deref home;
      a ← deref away;
      '(hg, ag) ← predictMatchResult h a;
      updateAt home hg ag;;
      updateAt away ag hg
  | _, _ => mret tt          (* skip bad matches *)
  end.

(** [counts[name] += 1.0 / float64(len(champions))] for every champion. *)
Definition credit (champions : list string) (counts : gmap string X) : gmap string X :=
  fold_left
    (fun counts name =>
       <[name := add (getNum counts name)
                     (div (fromInt 1) (fromInt (Z.of_nat (length champions))))]> counts)
    champions counts.

(** One trial: its champions (none when the trial is not valid). *)
Definition trial (l : League) : M (list string) :=
  teamsCopy ← mapM' (fun p => t ← deref p; alloc (copyTeam t)) (Teams l);
  (let w := int_sub (LWeek l) 1 in
   if w <? 0 then panic        (* [l.Fixtures[w]] with a negative index *)
   else forM_ (drop (Z.to_nat w) (Fixtures l))
              (fun week => forM_ week (simulateMatch teamsCopy)));;
  final ← mapM' deref teamsCopy;
  mret (championsOf final).

(** The loop over the trials: the credit given and the number of valid
    trials. *)
Fixpoint trials (n : nat) (l : League)
    (counts : gmap string X) (validSimulations : Z) : M (gmap string X * Z) :=
  match n with
  | O => mret (counts, validSimulations)
  | S n' =>
      champions ← trial l;
      match champions with
      | [] => trials n' l counts validSimulations
      | _ => trials n' l (credit champions counts) (int_add validSimulations 1)
      end
  end.

(** Turning the counts into percentages (lines 988-998). *)
Definition percentages (counts : gmap string X) (validSimulations : Z)
  : gmap string X :=
  (fun c => mul (div c (fromInt validSimulations)) (fromInt 100)) <$> counts.

Definition monteCarlo (simulations : Z) (l : League) : M (gmap string X) :=
  '(counts, validSimulations) ← trials (Z.to_nat simulations) l ∅ 0;
  if validSimulations >? 0 then mret (percentages counts validSimulations)
  else
    ts ← mapM' deref (Teams l);
    mret (fold_left (fun counts t => <[Name t := fromInt 0]> counts) ts counts).

Definition ChampionshipProbabilities (simulations : Z) : M (gmap string X) :=
  l ← getLeague;
  if bool_decide (length (Teams l) = 0%nat) then mret ∅
  else
    ts ← mapM' deref (Teams l);
    if LWeek l >? 18 then mret (seasonOver ts)
    else if leaderUnreachable ts then mret (leaderHasWon ts)
    else if LWeek l =? 0 then mret (coldStart ts)
    else monteCarlo simulations l.

End Probabilities.

(** * Vocabulary of the properties *)

(** ** Fixtures *)

Definition plays (t : ptr) (m : Match) : Prop := HomeTeam m = t \/ AwayTeam m = t.
Definition hosts (t u : ptr) (m : Match) : Prop := HomeTeam m = t /\ AwayTeam m = u.

#[export] Instance plays_dec t m : Decision (plays t m).
Proof. unfold plays. apply _. Defined.
#[export] Instance hosts_dec t u m : Decision (hosts t u m).
Proof. unfold hosts. apply _. Defined.

(** In how many matches of a week team [t] takes part. *)
Definition appearances (t : ptr) (week : list Match) : nat :=
  length (filter (plays t) week).

(** How many matches of [weeks] have [t] at home against [u]. *)
Definition homeGames (t u : ptr) (weeks : list (list Match)) : nat :=
  length (filter (hosts t u) (concat weeks)).

(** The k-th block of six weeks: one double round-robin. *)
Definition cycle (k : nat) (fixtures : list (list Match)) : list (list Match) :=
  take 6 (drop (6 * k) fixtures).

(** ** Standings *)

(** The cumulative statistics of a team: what [ResetTeamStats] zeroes. *)
Definition stats (t : Team) : Z * Z * Z * Z * Z * Z * Z * Z :=
  (Played t, Won t, Drawn t, Lost t, GoalsFor t, GoalsAgainst t,
   GoalDifference t, Points t).

(** [l] read from its last element: no element is [less] than the one
    that follows it in the list (which precedes it in the table). *)
Fixpoint descending {A} (less : A -> A -> bool) (l : list A) : Prop :=
  match l with
  | x :: (y :: _) as rest => less x y = false /\ descending less rest
  | _ => True
  end.

Definition setHeap `{Env} (w : World) (h : list Team) : World :=
  mkWorld h (league w) (rng w) (ticks w).

(** ** A concrete environment and league, for the examples *)

(** A linear congruential generator in the place of [math/rand], and a
    clock that advances with every reading. *)
Definition lcgNext (g : Z) : Z := (1103515245 * g + 12345) mod 2 ^ 31.

Definition lcgEnv : Env := {|
  rngState := Z;
  randseednop := true;
  rand_Seed := fun seed => seed mod 2 ^ 31;
  rand_Float64 := fun g => ((float64_of_int (g mod 1000) / 1000)%float, lcgNext g);
  rand_Intn := fun n g => ((g / 8) mod n, lcgNext g);
  time_UnixNano := fun k => 1700000000000000000 + 1000003 * Z.of_nat k
|}.

(** Four teams as [NewLeague] builds them. *)
Definition freshTeams : list Team :=
  omap newLeagueTeam (take 4 getMockPremierLeagueTeams).

Definition fourTeams : League := mkLeague [0; 1; 2; 3]%nat 0 [].

(** [match.HomeGoals = hg; match.AwayGoals = ag; match.IsPlayed = true] *)
Definition played (hg ag : Z) (m : Match) : Match :=
  mkMatch (HomeTeam m) (AwayTeam m) hg ag true (IsFixed m) (Week m).

(** The league after its first week was played 0-0 and 1-1, before the
    replay. *)
Definition afterWeekOne : League :=
  match enterFirstWeek fourTeams with
  | Some l =>
      match Fixtures l with
      | [m1; m2] :: rest =>
          mkLeague (Teams l) 2 ([played 0 0 m1; played 1 1 m2] :: rest)
      | _ => l
      end
  | None => fourTeams
  end.

Definition worldAfterWeekOne : @World lcgEnv :=
  @mkWorld lcgEnv freshTeams afterWeekOne 0 0%nat.

(** Whether a computation returned (rather than panicked). *)
Definition returned {A} (o : option A) : bool :=
  match o with Some _ => true | None => false end.

(** What the table shows of a team. *)
Definition row (t : Team) : string * Z * Z * Z :=
  (Name t, Points t, GoalDifference t, GoalsFor t).

(** ** The sampler's inputs *)

(** The same world with another state of the random source. *)
Definition setRng `{Env} (w : World) (g : rngState) : World :=
  mkWorld (heap w) (league w) g (ticks w).

Definition evenTeam : Team := mkTeam "Arsenal" 0 0 0 0 0 0 0 0 80 80 emptyForm.

(** A world of [lcgEnv] with the random source in state [g] at clock
    reading [k]. *)
Definition lcgWorld (g : Z) (k : nat) : @World lcgEnv :=
  @mkWorld lcgEnv [] fourTeams g k.

(** The same generator and clock in a program built with
    [GODEBUG=randseednop=0], where [rand.Seed] seeds. *)
Definition lcgSeedingEnv : Env := {|
  rngState := Z;
  randseednop := false;
  rand_Seed := fun seed => seed mod 2 ^ 31;
  rand_Float64 := fun g => ((float64_of_int (g mod 1000) / 1000)%float, lcgNext g);
  rand_Intn := fun n g => ((g / 8) mod n, lcgNext g);
  time_UnixNano := fun k => 1700000000000000000 + 1000003 * Z.of_nat k
|}.

Definition seedingWorld (g : Z) (k : nat) : @World lcgSeedingEnv :=
  @mkWorld lcgSeedingEnv [] fourTeams g k.

(** What a call of the sampler leaves to see: the goals and the state
    of the random source. *)
Definition outcome `{Env} (r : option (Z * Z * World)) : option (Z * Z * rngState) :=
  (fun x => (x.1, rng x.2)) <$> r.

(** ** The replay *)

(** Two worlds agree for the replay: the same objects, a form long
    enough on the right wherever it is on the left, and equal statistics
    at the pointers of [T]. *)
Definition agree `{Env} (T : list ptr) (w1 w2 : World) : Prop :=
  league w1 = league w2 /\
  length (heap w1) = length (heap w2) /\
  forall p t1, heap w1 !! p = Some t1 ->
    exists t2, heap w2 !! p = Some t2 /\
      ((4 <= length (Form t1))%nat -> (4 <= length (Form t2))%nat) /\
      (p ∈ T -> stats t1 = stats t2).

(** ** Championship probabilities *)

(** The points a team can still reach: [t.Points + (18 - t.Played) * 3]. *)
Definition maxAchievable (t : Team) : Z :=
  int_add (Points t) (int_mul (int_sub 18 (Played t)) 3).

(** The pointers of a list lead to these teams. *)
Definition pointTo `{Env} (w : World) (ps : list ptr) (ts : list Team) : Prop :=
  Forall2 (fun p t => heap w !! p = Some t) ps ts.

(** A league in its last week, the list of teams not in table order:
    Arsenal, second of the list, has won all 17 matches played; nobody
    can reach its 51 points any more. *)
Definition liverpool : Team :=
  mkTeam "Liverpool" 17 6 2 9 20 25 (-5) 20 83 83 ["L"; "W"; "L"; "D"; "W"].
Definition arsenal : Team :=
  mkTeam "Arsenal" 17 17 0 0 40 5 35 51 82 94 ["W"; "W"; "W"; "W"; "W"].
Definition chelsea : Team :=
  mkTeam "Chelsea" 17 5 0 12 15 30 (-15) 15 77 70 ["L"; "L"; "W"; "L"; "L"].
Definition everton : Team :=
  mkTeam "Everton" 17 3 1 13 10 25 (-15) 10 70 60 ["L"; "L"; "L"; "L"; "D"].

Definition decidedTeams : list Team := [liverpool; arsenal; chelsea; everton].

Definition decidedLeague : League :=
  match enterFirstWeek fourTeams with
  | Some l => mkLeague (Teams l) 18 (Fixtures l)
  | None => fourTeams
  end.

Definition decidedWorld : @World lcgEnv :=
  @mkWorld lcgEnv decidedTeams decidedLeague 0 0%nat.

(** The same league with the leader first, as the table sort leaves it. *)
Definition decidedWorldSorted : @World lcgEnv :=
  @mkWorld lcgEnv decidedTeams
     (mkLeague [1; 0; 2; 3]%nat 18 (Fixtures decidedLeague)) 0 0%nat.

(** The sum of the percentages of a probability map, in exact
    arithmetic. *)
Definition total (m : gmap string Qc) : Qc :=
  map_fold (fun _ v acc => (v + acc)%Qc) (Q2Qc 0) m.

(** The teams after the replay of the first week, and the league in
    its second week with them. *)
Definition teamsAfterWeekOne : list Team :=
  Eval vm_compute in
    match recalculateAllStats worldAfterWeekOne with
    | Some (_, w) => heap w
    | None => []
    end.

Definition worldWeekTwo : @World lcgEnv :=
  @mkWorld lcgEnv teamsAfterWeekOne afterWeekOne 0 0%nat.

(** ** Frames *)

(** [w] keeps what [w0] had: the league as it was, and every object of
    the arena of [w0] as it was (the arena may have grown). *)
Definition keeps `{Env} (w0 w : World) : Prop :=
  league w = league w0 /\
  (length (heap w0) <= length (heap w))%nat /\
  forall p t, heap w0 !! p = Some t -> heap w !! p = Some t.

(** A pointer to an object made after [w0]. *)
Definition fresh `{Env} (w0 : World) (p : ptr) : Prop :=
  (length (heap w0) <= p)%nat.

(** From a world where [P] holds, a run of [m] that returns leaves a
    result and a world where [Q] holds. *)
Definition hoare `{Env} {A} (P : World -> Prop) (m : M A) (Q : A -> World -> Prop) : Prop :=
  forall w a w', P w -> m w = Some (a, w') -> Q a w'.

(** ** Team state *)

(** The integer part of m * 2^e, as [int_of_float64] computes it. *)
Definition truncate (m : positive) (e : Z) : Z :=
  if 0 <=? e then Z.pos m * 2 ^ e else Z.pos m / 2 ^ (- e).

(** The invariant of a team's statistics, in the arithmetic of [int]:
    played = won + drawn + lost, goal difference = goals for - goals
    against, points = 3 * won + drawn, and the current strength within
    15% of the base strength, bounds as the program rounds them. *)
Definition strengthInBounds (t : Team) : Prop :=
  minStrength (BaseStrength t) <= CurrentStrength t
    <= maxStrength (BaseStrength t).

Definition consistent (t : Team) : Prop :=
  Played t = int_add (int_add (Won t) (Drawn t)) (Lost t) /\
  GoalDifference t = int_sub (GoalsFor t) (GoalsAgainst t) /\
  Points t = int_add (int_mul 3 (Won t)) (Drawn t) /\
  strengthInBounds t.

(** Every counter holds an [int]. *)
Definition intFields (t : Team) : Prop :=
  Forall is_int [Played t; Won t; Drawn t; Lost t; GoalsFor t;
                 GoalsAgainst t; GoalDifference t; Points t].

(** The states of the team object that [NewLeague] builds from a
    selected team: every write to a team's statistics or strength in
    the program is one of these. *)
Inductive teamState (team : PremierLeagueTeam) : Team -> Prop :=
  | created t :
      newLeagueTeam team = Some t -> teamState team t
  | updated t goalsFor goalsAgainst t' :
      teamState team t ->
      UpdateTeamStats t goalsFor goalsAgainst = Some t' ->
      teamState team t'
  | reversed t goalsFor goalsAgainst :
      teamState team t ->
      teamState team (ReverseTeamStats t goalsFor goalsAgainst)
  | reset t :
      teamState team t -> teamState team (ResetTeamStats t)
  | copied t :
      teamState team t -> teamState team (copyTeam t).

(** Arsenal as [NewLeague] builds it, and after a 2-1 win. *)
Definition arsenalSelected : PremierLeagueTeam := mkPLT 2 "Arsenal" "ARS" 82 "" 2.

Definition arsenalAfterWin : Team :=
  Eval vm_compute in
    default evenTeam (t ← newLeagueTeam arsenalSelected; UpdateTeamStats t 2 1).

(** ** The database helpers (database.go) *)

(** [getShortName] (lines 347-365): the table of known clubs, and the
    first three bytes of any other name; [fullName[:3]] panics when the
    name is shorter. *)
Definition shortNames : gmap string string :=
  list_to_map
    [ ("Manchester City", "MCI"); ("Arsenal", "ARS"); ("Liverpool", "LIV");
      ("Manchester United", "MUN"); ("Tottenham", "TOT"); ("Newcastle", "NEW");
      ("Chelsea", "CHE"); ("Aston Villa", "AVL"); ("Brighton", "BHA");
      ("West Ham", "WHU") ]%string.

Definition getShortName (fullName : string) : option string :=
  match shortNames !! fullName with
  | Some short => Some short
  | None =>
      if bool_decide (String.length fullName < 3)%nat then None
      else Some (String.substring 0 3 fullName)
  end.

(** The form column that [SaveTeam] writes (lines 135-146):
    [for i, f := range team.Form { if f != "" { if i > 0 && formStr != ""
    { formStr += "," }; formStr += f } }]. *)
Fixpoint formStringLoop (i : nat) (form : list string) (formStr : string) : string :=
  match form with
  | [] => formStr
  | f :: rest =>
      formStringLoop (S i) rest
        (if negb (String.eqb f "") then
           (if (0 <? i)%nat && negb (String.eqb formStr "")
            then formStr +:+ "," else formStr) +:+ f
         else formStr)
  end.

Definition formString (form : list string) : string := formStringLoop 0 form "".

(** The form that [GetLeagueStandings] reads back (lines 262-267). *)
Definition readForm (formStr : string) : list string :=
  if negb (String.eqb formStr "") then parseFormString formStr else emptyForm.

(** The characters of a string, each as a string of its own. *)
Definition chars (s : string) : list string :=
  (fun c => String c EmptyString) <$> String.list_ascii_of_string s.

(** The strings whose bytes are all ASCII: on these a Go [range] loop
    visits the bytes one by one. *)
Definition isASCII (s : string) : Prop :=
  Forall (fun c => (Ascii.nat_of_ascii c < 128)%nat) (String.list_ascii_of_string s).

(** The forms the program writes: results W, D and L, and empty
    entries. *)
Definition resultCodes : list string := ["W"; "D"; "L"; ""]%string.

(** [strings.Join(names, sep)] *)
Fixpoint joinWith (sep : string) (l : list string) : string :=
  match l with
  | [] => ""
  | [x] => x
  | x :: rest => x +:+ sep +:+ joinWith sep rest
  end.

(** ** Sums over the teams *)

(** The sum of a counter over a list of teams. *)
Definition sumOf (f : Team -> Z) (ts : list Team) : Z :=
  foldr (fun t s => f t + s) 0 ts.

(** The integer n as an exact rational. *)
Definition Z2Qc (n : Z) : Qc := Q2Qc (inject_Z n).

(** The four fresh teams before the first week, and the decided league
    after the last. *)
Definition worldWeekZero : @World lcgEnv :=
  @mkWorld lcgEnv freshTeams fourTeams 0 0%nat.

Definition worldSeasonOver : @World lcgEnv :=
  @mkWorld lcgEnv decidedTeams (mkLeague [0; 1; 2; 3]%nat 19 []) 0 0%nat.

(** ** The keys of the probability map *)


(** [w] keeps what [w0] had, and every object made since carries one of
    [names]. *)
Definition named `{Env} (w0 : World) (names : list string) (w : World) : Prop :=
  keeps w0 w /\
  forall p t, fresh w0 p -> heap w !! p = Some t -> Name t ∈ names.

(** ** The standings as a tally of the results *)

(** A match the replay counts: [match.IsPlayed || match.IsFixed]. *)
Definition counted (m : Match) : bool := IsPlayed m || IsFixed m.

(** The matches the replay goes through: the weeks before [l.Week]. *)
Definition replayed (l : League) : list Match :=
  concat (take (Z.to_nat (LWeek l)) (Fixtures l)).

(** What the counted matches of [ms] add up to for team [p], when a
    match with [goalsFor] and [goalsAgainst] from the team's side is
    worth [f goalsFor goalsAgainst]. *)
Definition tally (f : Z -> Z -> Z) (p : ptr) (ms : list Match) : Z :=
  foldr
    (fun m s =>
       (if counted m then
          (if decide (HomeTeam m = p) then f (HomeGoals m) (AwayGoals m) else 0)
          + (if decide (AwayTeam m = p) then f (AwayGoals m) (HomeGoals m) else 0)
        else 0) + s)
    0 ms.

Definition winIn (goalsFor goalsAgainst : Z) : Z :=
  if goalsFor >? goalsAgainst then 1 else 0.
Definition drawIn (goalsFor goalsAgainst : Z) : Z :=
  if goalsFor =? goalsAgainst then 1 else 0.
Definition lossIn (goalsFor goalsAgainst : Z) : Z :=
  if goalsFor <? goalsAgainst then 1 else 0.
Definition pointsIn (goalsFor goalsAgainst : Z) : Z :=
  if goalsFor >? goalsAgainst then 3
  else if goalsFor =? goalsAgainst then 1 else 0.

(** The code [UpdateTeamStats] pushes into the form. *)
Definition resultCode (goalsFor goalsAgainst : Z) : string :=
  if goalsFor >? goalsAgainst then "W"
  else if goalsFor =? goalsAgainst then "D" else "L".

(** The results of team [p] in the counted matches of [ms], oldest
    first. *)
Definition results (p : ptr) (ms : list Match) : list string :=
  concat
    (map (fun m =>
            if counted m then
              (if decide (HomeTeam m = p)
               then [resultCode (HomeGoals m) (AwayGoals m)] else [])
              ++ (if decide (AwayTeam m = p)
                  then [resultCode (AwayGoals m) (HomeGoals m)] else [])
            else [])
         ms).

(** ** Playing a week (main.go, lines 471-508) *)

Section Season.
Context `{Env}.

Definition liftOption {A} (o : option A) : M A :=
  fun w => match o with Some a => Some (a, w) | None => None end.

(** One round of the loop over the current week (lines 492-500):
    [match := &g.league.Fixtures[g.league.Week-1][i];
     if !match.IsFixed { homeGoals, awayGoals := predictMatchResult(...);
       match.HomeGoals = homeGoals; match.AwayGoals = awayGoals;
       match.IsPlayed = true }]. *)
Definition playAt (week i : nat) : M unit :=
  l ← getLeague;
  match Fixtures l !! week with
  | None => panic
  | Some matches =>
      match matches !! i with
      | None => panic
      | Some m =>
          if IsFixed m then mret tt
          else
            home ← deref (HomeTeam m);
            away ← deref (AwayTeam m);
            '(homeGoals, awayGoals) ← predictMatchResult home away;
            setLeague
              (mkLeague (Teams l) (LWeek l)
                 (<[week := <[i := played homeGoals awayGoals m]> matches]>
                    (Fixtures l)))
      end
  end.

(** [weekMatches := g.league.Fixtures[g.league.Week-1];
     for i := range weekMatches { ... }] *)
Definition playWeek : M unit :=
  l ← getLeague;
  let week := int_sub (LWeek l) 1 in
  if week <? 0 then panic
  else
    match Fixtures l !! Z.to_nat week with
    | None => panic
    | Some weekMatches =>
        forM_ (seq 0 (length weekMatches)) (playAt (Z.to_nat week))
    end.

(** [GUI.simulateNextWeek] up to its call of [refreshDisplay]: what it
    does to the league and the teams. (The texts of the labels and
    [g.currentWeek] are not part of the state modelled.) When the season
    is over it changes nothing. *)
Definition simulateNextWeek : M unit :=
  l ← getLeague;
  l ← liftOption (enterFirstWeek l);
  setLeague l;;
  if LWeek l >? 18 then mret tt
  else
    playWeek;;
    l ← getLeague;
    setLeague (mkLeague (Teams l) (int_add (LWeek l) 1) (Fixtures l));;
    recalculateAllStats.

End Season.

(** Every form of the arena has the four entries [UpdateTeamStats]
    slices off. *)
Definition formsOK `{Env} (w : World) : Prop :=
  Forall (fun t => (4 <= length (Form t))%nat) (heap w).

(** Both teams of the match are objects of the arena. *)
Definition validMatch `{Env} (w : World) (m : Match) : Prop :=
  (HomeTeam m < length (heap w))%nat /\ (AwayTeam m < length (heap w))%nat.

(** What playing a match makes of it: a fixed match stays as it is; any
    other is marked played, with a score the sampler can return. *)
Definition playedFrom (m m' : Match) : Prop :=
  if IsFixed m then m' = m
  else exists homeGoals awayGoals,
         m' = played homeGoals awayGoals m /\
         0 <= homeGoals <= 3 /\ 0 <= awayGoals <= 3.

(** The league of the four fresh teams on entering week 1, and its
    first week. *)
Definition leagueWeekOne : League :=
  Eval vm_compute in default fourTeams (enterFirstWeek fourTeams).

Definition weekOneMatches : list Match :=
  Eval vm_compute in default [] (Fixtures leagueWeekOne !! 0%nat).

(** ** Computations that go through *)

(** From a world whose forms all have four entries and whose arena has
    a size [pre] accepts, [m] returns (it does not panic); it leaves
    such forms, an arena at least as large, of a size that [post]
    accepts for the result. *)
Definition returns `{Env} {A} (pre : nat -> Prop) (m : M A)
    (post : A -> nat -> Prop) : Prop :=
  forall w, formsOK w -> pre (length (heap w)) ->
    exists a w', m w = Some (a, w') /\ formsOK w' /\
      (length (heap w) <= length (heap w'))%nat /\ post a (length (heap w')).

(** A condition on the size of the arena that a larger arena still
    meets. *)
Definition upward (P : nat -> Prop) : Prop :=
  forall n n', (n <= n')%nat -> P n -> P n'.

(** The pointers of [ps] point into an arena of size [n]. *)
Definition live (ps : list ptr) (n : nat) : Prop := Forall (fun p => (p < n)%nat) ps.

(** The teams of the matches point into an arena of size [n]. *)
Definition liveMatches (ms : list Match) (n : nat) : Prop :=
  Forall (fun m => (HomeTeam m < n)%nat /\ (AwayTeam m < n)%nat) ms.

(** ** The season *)

(** A season of the four teams [T] standing in week [week] (1 to 19):
    the league lists the teams of [T] in some order, its 18 weeks of
    fixtures have every team of [T] in exactly one match of every week,
    no team against itself, and the matches counted for the standings
    are exactly those of the weeks before [week - 1], the weeks already
    played. *)
Definition seasonShape `{Env} (T : list ptr) (week : Z) (w : World) : Prop :=
  Teams (league w) ≡ₚ T /\ NoDup T /\
  LWeek (league w) = week /\
  formsOK w /\ live T (length (heap w)) /\
  length (Fixtures (league w)) = 18%nat /\
  forall (j : nat) matches,
    Fixtures (league w) !! j = Some matches ->
    (forall p, p ∈ T -> appearances p matches = 1%nat) /\
    Forall (fun m => HomeTeam m ∈ T /\ AwayTeam m ∈ T /\
                     HomeTeam m ≠ AwayTeam m /\
                     counted m = bool_decide (Z.of_nat j < week - 1))
           matches.

(** Every team of [T] has played [games] games, with at most three
    points a game. *)
Definition standing `{Env} (T : list ptr) (games : Z) (w : World) : Prop :=
  forall p, p ∈ T ->
    exists t, heap w !! p = Some t /\ Played t = games /\
              0 <= Points t <= 3 * games.

(** The four fresh teams on entering week 1. *)
Definition worldWeekOne : @World lcgEnv :=
  @mkWorld lcgEnv freshTeams leagueWeekOne 0 0%nat.

(** ** The display (main.go, lines 536-577, 670-829 and 1077-1109) *)

(** The fields of the GUI that [refreshDisplay] reads besides the
    league. *)
Record View := mkView {
  currentWeek : Z;
  showAllResults : bool
}.

(** What a line of a table of results shows: the names of the two
    teams, the goals, and whether the match is fixed. *)
Record ResultLine := mkResultLine {
  lineHome : string;
  lineHomeGoals : Z;
  lineAwayGoals : Z;
  lineAway : string;
  lineFixed : bool
}.

(** What [refreshDisplay] puts on the screen, before it is formatted
    (the layout of the texts and the widgets are not modelled). *)
Record Display := mkDisplay {
  standings : list Team;
  probabilities : gmap string float;
  allResults : list (list ResultLine);
  weekResults : list ResultLine;
  upcoming : list (string * string)
}.

Section Display.
Context `{Env}.

(** [match.HomeTeam.Name, match.HomeGoals, match.AwayGoals,
     match.AwayTeam.Name] *)
Definition resultLine (m : Match) : M ResultLine :=
  home ← deref (HomeTeam m);
  away ← deref (AwayTeam m);
  mret (mkResultLine (Name home) (HomeGoals m) (AwayGoals m) (Name away) (IsFixed m)).

(** [match.HomeTeam.Name, match.AwayTeam.Name] *)
Definition fixtureLine (m : Match) : M (string * string) :=
  home ← deref (HomeTeam m);
  away ← deref (AwayTeam m);
  mret (Name home, Name away).

(** [generateAllResultsTable]: the played or fixed matches of the first
    18 weeks. *)
Definition generateAllResultsTable (v : View) : M (list (list ResultLine)) :=
  l ← getLeague;
  if negb (showAllResults v) || (length (Fixtures l) =? 0)%nat then mret []
  else
    mapM' (fun week => mapM' resultLine (List.filter counted week))
          (take 18 (Fixtures l)).

(** [generateUpcomingMatchesTable]. In week 0 the fixtures are
    generated if there are none ([g.league.Fixtures == nil]; the empty
    list stands for [nil]). *)
Definition generateUpcomingMatchesTable : M (list (string * string)) :=
  l ← getLeague;
  if LWeek l =? 0 then
    l ← match Fixtures l with
        | [] =>
            fixtures ← liftOption (generateFixtures l);
            let l' := mkLeague (Teams l) (LWeek l) fixtures in
            setLeague l';; mret l'
        | _ => mret l
        end;
    match Fixtures l !! 0%nat with
    | None => panic
    | Some matches => mapM' fixtureLine matches
    end
  else
    let week := int_sub (LWeek l) 1 in
    if (week >=? Z.of_nat (length (Fixtures l))) || (week >=? 18) then mret []
    else if week <? 0 then panic
    else
      match Fixtures l !! Z.to_nat week with
      | None => panic
      | Some matches => mapM' fixtureLine matches
      end.

(** [refreshDisplay] (lines 670-796): the sort of [l.Teams] and the
    standings, the probabilities of [generateProbabilityTable], and
    either all the results or the results of [g.currentWeek] and the
    upcoming matches. *)
Definition refreshDisplay (v : View) : M Display :=
  rows ← standingsTable;
  probs ← ChampionshipProbabilities (X := float) 10000;
  if showAllResults v then
    all ← generateAllResultsTable v;
    mret (mkDisplay rows probs all [] [])
  else
    l ← getLeague;
    results ←
      (if (currentWeek v >? 0)
          && (currentWeek v <=? Z.of_nat (length (Fixtures l))) then
         match Fixtures l !! Z.to_nat (currentWeek v - 1) with
         | None => panic
         | Some matches => mapM' resultLine matches
         end
       else mret []);
    l ← getLeague;
    next ← (if LWeek l <=? 18 then generateUpcomingMatchesTable else mret []);
    mret (mkDisplay rows probs [] results next).

(** [GUI.simulateNextWeek] (lines 470-512), whole: what a click on
    "Simulate Next Week" does. It returns the fields of the GUI as it
    leaves them. *)
Definition GUI_simulateNextWeek (v : View) : M View :=
  l ← getLeague;
  l ← liftOption (enterFirstWeek l);
  setLeague l;;
  if LWeek l >? 18 then
    refreshDisplay v;; mret v
  else
    playWeek;;
    l ← getLeague;
    let v := mkView (LWeek l) (showAllResults v) in
    setLeague (mkLeague (Teams l) (int_add (LWeek l) 1) (Fixtures l));;
    recalculateAllStats;;
    refreshDisplay v;; mret v.

(** [n] calls of [GUI.simulateNextWeek], one after the other: a click on
    "Simulate Next Week" each, as long as the button is shown. *)
Fixpoint clicks (n : nat) (v : View) : M View :=
  match n with
  | O => mret v
  | S n => v ← GUI_simulateNextWeek v; clicks n v
  end.

End Display.

(** ** Editing a result (main.go, lines 640-657) *)

(** The "Save" button of [editMatchResult], for the dialog opened on
    [match = &g.league.Fixtures[week][i]], once [Sscanf] has read
    [homeGoals] and [awayGoals] from the two entries (when it cannot,
    the handler returns and nothing happens). *)
Definition saveResult `{Env} (week i : nat) (homeGoals awayGoals : Z) (v : View)
    : M Display :=
  l ← getLeague;
  match Fixtures l !! week with
  | None => panic
  | Some matches =>
      match matches !! i with
      | None => panic
      | Some m =>
          setLeague
            (mkLeague (Teams l) (LWeek l)
               (<[week := <[i := mkMatch (HomeTeam m) (AwayTeam m)
                                   homeGoals awayGoals true true (Week m)]>
                            matches]>
                  (Fixtures l)));;
          recalculateAllStats;;
          refreshDisplay v
      end
  end.

(** ** Starting the program (main.go, lines 102-140 and 362-468) *)

Section Start.
Context `{Env}.

(** [math/rand]'s unexported [int31n], which [rand.Shuffle] draws from:
    a number of [[0, n)], from the global source. *)
Variable int31n : Z -> rngState -> Z * rngState.

Definition draw (n : Z) : M Z :=
  fun w => let '(k, g) := int31n n (rng w) in
           Some (k, mkWorld (heap w) (league w) g (ticks w)).

(** [teams[i], teams[j] = teams[j], teams[i]] *)
Definition swap {A} (i j : nat) (teams : list A) : option (list A) :=
  match teams !! i, teams !! j with
  | Some x, Some y => Some (<[j := x]> (<[i := y]> teams))
  | _, _ => None
  end.

(** The loop of [rand.Shuffle(n, swap)] for [n < 2^31]:
    [for i := n - 1; i > 0; i-- { j := int(r.int31n(int32(i+1))); swap(i, j) }],
    from [i] down. *)
Fixpoint shuffleFrom {A} (i : nat) (teams : list A) : M (list A) :=
  match i with
  | O => mret teams
  | S i' =>
      j ← draw (Z.of_nat i + 1);
      if j <? 0 then panic
      else
        teams ← liftOption (swap i (Z.to_nat j) teams);
        shuffleFrom i' teams
  end.

(** [selectRandomTeams] (lines 103-113). *)
Definition selectRandomTeams (teams : list PremierLeagueTeam)
    : M (list PremierLeagueTeam) :=
  seedFromClock;;
  teams ← shuffleFrom (length teams - 1) teams;
  if bool_decide (length teams < 4)%nat then mret teams
  else mret (take 4 teams).

(** [NewLeague] (lines 116-140). The ten teams of
    [getMockPremierLeagueTeams] leave four selected teams, so every
    entry of [leagueTeams] is assigned. *)
Definition NewLeague : M League :=
  selectedTeams ← selectRandomTeams getMockPremierLeagueTeams;
  leagueTeams ← mapM' (fun team => t ← liftOption (newLeagueTeam team); alloc t)
                      selectedTeams;
  mret (mkLeague leagueTeams 0 []).

(** [setupUI] (lines 387-468): the standings as they are, the
    probabilities by base strength, and the matches of week 1. *)
Definition setupUI : M Display :=
  l ← getLeague;
  rows ← mapM' deref (Teams l);
  ts ← mapM' deref (Teams l);
  next ← generateUpcomingMatchesTable;
  mret (mkDisplay rows (coldStart (X := float) ts) [] [] next).

(** [NewGUI] (lines 363-385): the league becomes the GUI's league. *)
Definition NewGUI : M View :=
  l ← NewLeague;
  fixtures ← liftOption (generateFixtures l);
  setLeague (mkLeague (Teams l) 0 fixtures);;
  setupUI;;
  mret (mkView 0 false).

End Start.

(** [int31n(n)] returns a number of [[0, n)]. *)
Definition int31nInRange `{Env} (int31n : Z -> rngState -> Z * rngState) : Prop :=
  forall n s, 0 < n -> 0 <= (int31n n s).1 < n.

(** The team [NewLeague] makes from a club with an empty form string. *)
Definition blankTeam (club : PremierLeagueTeam) : Team :=
  mkTeam (plName club) 0 0 0 0 0 0 0 0
    (plBaseStrength club) (plBaseStrength club) emptyForm.

(** A team as [NewLeague] makes it from one of the ten clubs. *)
Definition newTeam (t : Team) : Prop :=
  exists club, club ∈ getMockPremierLeagueTeams /\ t = blankTeam club.

(** A linear congruential generator for the draws of the shuffle. *)
Definition lcgInt31n (n : Z) (g : @rngState lcgEnv) : Z * @rngState lcgEnv :=
  (lcgNext g mod n, lcgNext g).

(** The program's world when it starts: no team object yet. *)
Definition worldAtStart : @World lcgEnv :=
  @mkWorld lcgEnv [] (mkLeague [] 0 []) 0 0%nat.

(** * Lemmas and theorems *)

(** * Reasoning about computations *)

Section Computations.
Context `{Env}.

Lemma bind_Some {A B} (m : M A) (k : A -> M B) w r :
  (m ≫= k) w = Some r <-> exists a w', m w = Some (a, w') /\ k a w' = Some r.
Proof.
  unfold mbind, M_bind. destruct (m w) as [[a w']|].
  - split; [eauto|]. intros (a' & w'' & [= <- <-] & Hk). exact Hk.
  - split; [discriminate|]. intros (a' & w'' & [=] & _).
Qed.

Lemma ret_Some {A} (a : A) w r : (mret a : M A) w = Some r <-> r = (a, w).
Proof. unfold mret, M_ret. split; [intros [= <-]|intros ->]; reflexivity. Qed.

Lemma deref_Some p w r :
  deref p w = Some r <-> exists t, heap w !! p = Some t /\ r = (t, w).
Proof.
  unfold deref. destruct (heap w !! p) as [t|].
  - split; [intros [= <-]; eauto|]. intros (t' & [= <-] & ->). reflexivity.
  - split; [discriminate|]. intros (t' & [=] & _).
Qed.

Lemma store_Some p t w r :
  store p t w = Some r <->
  (p < length (heap w))%nat /\ r = (tt, setHeap w (<[p := t]> (heap w))).
Proof.
  unfold store, setHeap. case_bool_decide.
  - split; [intros [= <-]; eauto|]. intros (_ & ->). reflexivity.
  - split; [discriminate|]. intros (? & _). contradiction.
Qed.

Lemma updateAt_Some p gf ga w r :
  updateAt p gf ga w = Some r <->
  exists t t', heap w !! p = Some t /\ UpdateTeamStats t gf ga = Some t' /\
               r = (tt, setHeap w (<[p := t']> (heap w))).
Proof.
  unfold updateAt. rewrite bind_Some. split.
  - intros (t & w' & Hd & Hk). apply deref_Some in Hd as (t0 & Hl & [= <- <-]).
    destruct (UpdateTeamStats t gf ga) as [t'|] eqn:Hu; [|discriminate].
    apply store_Some in Hk as (_ & ->). eauto.
  - intros (t & t' & Hl & Hu & ->). exists t, w. split.
    + apply deref_Some. eauto.
    + rewrite Hu. apply store_Some. split; [|reflexivity].
      eapply lookup_lt_Some; eauto.
Qed.

Lemma resetAt_Some p w r :
  resetAt p w = Some r <->
  exists t, heap w !! p = Some t /\
            r = (tt, setHeap w (<[p := ResetTeamStats t]> (heap w))).
Proof.
  unfold resetAt. rewrite bind_Some. split.
  - intros (t & w' & Hd & Hk). apply deref_Some in Hd as (t0 & Hl & [= <- <-]).
    apply store_Some in Hk as (_ & ->). eauto.
  - intros (t & Hl & ->). exists t, w. split.
    + apply deref_Some. eauto.
    + apply store_Some. split; [|reflexivity]. eapply lookup_lt_Some; eauto.
Qed.

Lemma returned_Some {A} (o : option A) : returned o = true -> exists a, o = Some a.
Proof. destruct o as [a|]; [eauto|discriminate]. Qed.

(** A loop keeps what each of its rounds keeps. *)
Lemma forM__preserves {A} (R : World -> World -> Prop) (l : list A) (body : A -> M unit) :
  (forall w, R w w) -> (forall w1 w2 w3, R w1 w2 -> R w2 w3 -> R w1 w3) ->
  (forall a w w', a ∈ l -> body a w = Some (tt, w') -> R w w') ->
  forall w w', forM_ l body w = Some (tt, w') -> R w w'.
Proof.
  intros Hrefl Htrans. induction l as [|a l IH]; intros Hbody w w' Hrun.
  - apply ret_Some in Hrun as [= <-]. apply Hrefl.
  - simpl in Hrun. apply bind_Some in Hrun as ([] & w1 & Ha & Hl).
    eapply Htrans.
    + eapply Hbody; [left|exact Ha].
    + apply IH; [|exact Hl]. intros a' w2 w2' Hin. apply Hbody. right. exact Hin.
Qed.

(** Two runs of a loop stay related when each round keeps them
    related, and the second run goes through wherever the first does. *)
Lemma forM__simulates {A} (S : World -> World -> Prop) (l : list A) (body : A -> M unit) :
  (forall a w1 w2 w1', a ∈ l -> S w1 w2 -> body a w1 = Some (tt, w1') ->
     exists w2', body a w2 = Some (tt, w2') /\ S w1' w2') ->
  forall w1 w2 w1', S w1 w2 -> forM_ l body w1 = Some (tt, w1') ->
    exists w2', forM_ l body w2 = Some (tt, w2') /\ S w1' w2'.
Proof.
  induction l as [|a l IH]; intros Hbody w1 w2 w1' HS Hrun.
  - apply ret_Some in Hrun as [= <-]. exists w2. split; [reflexivity|exact HS].
  - simpl in Hrun. apply bind_Some in Hrun as ([] & wa & Ha & Hl).
    destruct (Hbody a w1 w2 wa) as (wb & Hb & HS'); [left|exact HS|exact Ha|].
    destruct (IH (fun a' u1 u2 u1' Hin => Hbody a' u1 u2 u1' (list_elem_of_further _ _ _ Hin))
                 wa wb w1' HS' Hl) as (w2' & Hl2 & HS2).
    exists w2'. split; [|exact HS2].
    simpl. apply bind_Some. exists tt, wb. split; assumption.
Qed.

End Computations.

(** * The fixture scheduler *)

Lemma generateFixtures_explicit l a b c d :
  Teams l = [a; b; c; d] ->
  generateFixtures l =
    let first := [ [mkMatch a d 0 0 false false 0; mkMatch b c 0 0 false false 0];
                   [mkMatch a b 0 0 false false 0; mkMatch c d 0 0 false false 0];
                   [mkMatch a c 0 0 false false 0; mkMatch d b 0 0 false false 0] ] in
    let second := [ [mkMatch d a 0 0 false false 0; mkMatch c b 0 0 false false 0];
                    [mkMatch b a 0 0 false false 0; mkMatch d c 0 0 false false 0];
                    [mkMatch c a 0 0 false false 0; mkMatch b d 0 0 false false 0] ] in
    Some ((first ++ second) ++ (first ++ second) ++ (first ++ second)).
Proof.
  intros Ht. unfold generateFixtures. rewrite Ht. reflexivity.
Qed.

Lemma NoDup4_ne {A} (a b c d : A) :
  NoDup [a; b; c; d] ->
  a ≠ b /\ a ≠ c /\ a ≠ d /\ b ≠ c /\ b ≠ d /\ c ≠ d.
Proof.
  rewrite !NoDup_cons, !elem_of_cons, !elem_of_nil. intuition congruence.
Qed.

(** A week of two matches between four distinct teams has every one of
    them in exactly one match. *)
Lemma appearances_two_matches x y z w t g1 g2 g3 g4 p1 p2 f1 f2 w1 w2 :
  NoDup [x; y; z; w] -> t ∈ [x; y; z; w] ->
  appearances t [mkMatch x y g1 g2 p1 f1 w1; mkMatch z w g3 g4 p2 f2 w2] = 1%nat.
Proof.
  intros Hnd Hin. unfold appearances.
  destruct (NoDup4_ne _ _ _ _ Hnd) as (?&?&?&?&?&?).
  rewrite filter_cons, filter_cons, filter_nil.
  set_unfold in Hin.
  destruct (decide (plays t _)) as [[Ha|Ha]|Ha];
    destruct (decide (plays t _)) as [[Hb|Hb]|Hb];
    simpl in *; try reflexivity; unfold plays in *; simpl in *; exfalso;
    intuition congruence.
Qed.

Lemma filter_none {A} (P : A -> Prop) `{forall x, Decision (P x)} (l : list A) :
  (forall x, x ∈ l -> ~ P x) -> filter P l = [].
Proof.
  induction l as [|x l IH]; intros Hno; [reflexivity|].
  rewrite filter_cons_False by (apply Hno; left).
  apply IH. intros y Hy. apply Hno. right. exact Hy.
Qed.

(** In a list of matches with pairwise different (home, away) pairs, a
    pair that occurs is hosted exactly once. *)
Lemma hosted_once (ms : list Match) t u :
  NoDup (map (fun m => (HomeTeam m, AwayTeam m)) ms) ->
  (t, u) ∈ map (fun m => (HomeTeam m, AwayTeam m)) ms ->
  length (filter (hosts t u) ms) = 1%nat.
Proof.
  induction ms as [|m ms IH]; simpl; intros Hnd Hin.
  - apply elem_of_nil in Hin. contradiction.
  - apply NoDup_cons in Hnd as [Hnotin Hnd].
    rewrite filter_cons. destruct (decide (hosts t u m)) as [[Hh Ha]|Hno].
    + simpl. f_equal. rewrite filter_none; [reflexivity|].
      intros m' Hm' [Hh' Ha'].
      apply Hnotin. rewrite Hh, Ha, <- Hh', <- Ha'.
      apply (list_elem_of_fmap_2 (fun m => (HomeTeam m, AwayTeam m))). exact Hm'.
    + apply IH; [exact Hnd|].
      apply elem_of_cons in Hin as [Heq|Hin]; [|exact Hin].
      exfalso. apply Hno. inversion Heq. split; reflexivity.
Qed.

Lemma cycle_pairs_NoDup (a b c d : ptr) :
  NoDup [a; b; c; d] ->
  NoDup [(a, d); (b, c); (a, b); (c, d); (a, c); (d, b);
         (d, a); (c, b); (b, a); (d, c); (c, a); (b, d)].
Proof.
  intros Hnd.
  destruct (NoDup4_ne _ _ _ _ Hnd) as (?&?&?&?&?&?).
  repeat (apply NoDup_cons; split;
          [rewrite ?elem_of_cons, elem_of_nil; intuition congruence|]).
  apply NoDup_nil_2.
Qed.

(** C5. For a league of four teams, [generateFixtures] returns 18 weeks
    of 2 matches; in every week each team takes part in exactly one
    match; and in each block of six weeks every ordered pair of distinct
    teams has exactly one match with the first at home, so every pair
    meets exactly twice, once with each side at home. *)
Theorem fixtures_double_round_robin l a b c d :
  Teams l = [a; b; c; d] -> NoDup [a; b; c; d] ->
  exists fixtures,
    generateFixtures l = Some fixtures /\
    length fixtures = 18%nat /\
    (forall week, week ∈ fixtures -> length week = 2%nat) /\
    (forall week t, week ∈ fixtures -> t ∈ Teams l -> appearances t week = 1%nat) /\
    (forall k t u, (k < 3)%nat -> t ∈ Teams l -> u ∈ Teams l -> t ≠ u ->
       homeGames t u (cycle k fixtures) = 1%nat).
Proof.
  intros Ht Hnd. rewrite (generateFixtures_explicit l a b c d Ht). cbv zeta.
  eexists; split; [reflexivity|].
  split; [reflexivity|]. rewrite Ht.
  destruct (NoDup4_ne _ _ _ _ Hnd) as (?&?&?&?&?&?).
  split; [|split].
  - intros week Hw. simpl in Hw. rewrite !elem_of_cons, elem_of_nil in Hw.
    repeat (destruct Hw as [->|Hw]; [reflexivity|]). contradiction.
  - intros week t Hw Hin. simpl in Hw. rewrite !elem_of_cons, elem_of_nil in Hw.
    repeat (destruct Hw as [->|Hw];
      [apply appearances_two_matches;
       [repeat (apply NoDup_cons; split;
                [rewrite ?elem_of_cons, elem_of_nil; intuition congruence|]);
        apply NoDup_nil_2
       | revert Hin; rewrite !elem_of_cons, !elem_of_nil; tauto]|]).
    contradiction.
  - intros k t u Hk Ht' Hu Hne.
    assert (Hk' : k = 0%nat \/ k = 1%nat \/ k = 2%nat) by lia.
    unfold homeGames.
    assert (Hin : (t, u) ∈ [(a, d); (b, c); (a, b); (c, d); (a, c); (d, b);
                            (d, a); (c, b); (b, a); (d, c); (c, a); (b, d)]).
    { revert Ht' Hu. rewrite !elem_of_cons, !elem_of_nil.
      intros [->|[->|[->|[->|[]]]]] [->|[->|[->|[->|[]]]]];
        try congruence; tauto. }
    destruct Hk' as [->|[->| ->]];
      (apply hosted_once; [apply cycle_pairs_NoDup, Hnd | exact Hin]).
Qed.

Lemma fixtures_double_round_robin_witness :
  exists fixtures,
    generateFixtures fourTeams = Some fixtures /\
    length fixtures = 18%nat /\
    (forall week, week ∈ fixtures -> length week = 2%nat) /\
    (forall week t, week ∈ fixtures -> t ∈ Teams fourTeams ->
       appearances t week = 1%nat) /\
    (forall k t u, (k < 3)%nat -> t ∈ Teams fourTeams -> u ∈ Teams fourTeams ->
       t ≠ u -> homeGames t u (cycle k fixtures) = 1%nat).
Proof.
  apply (fixtures_double_round_robin fourTeams 0 1 2 3); [reflexivity|].
  repeat (apply NoDup_cons; split;
          [rewrite ?elem_of_cons, elem_of_nil; lia|]).
  apply NoDup_nil_2.
Defined.

(** * Week numbers *)

Lemma wrap_small z : minInt64 <= z <= maxInt64 -> wrap z = z.
Proof.
  unfold wrap, minInt64, maxInt64. intros Hz.
  rewrite Z.mod_small by lia. lia.
Qed.

Lemma generateFixtures_week_zero l fixtures week m :
  generateFixtures l = Some fixtures -> week ∈ fixtures -> m ∈ week -> Week m = 0.
Proof.
  unfold generateFixtures. case_bool_decide as Hlen; [discriminate|].
  destruct (Teams l) as [|a [|b [|c [|d [|e rest]]]]] eqn:Ht; try discriminate.
  intros Hfx. vm_compute in Hfx. injection Hfx as <-.
  rewrite !elem_of_cons, elem_of_nil. intros Hw.
  repeat (destruct Hw as [->|Hw];
          [rewrite !elem_of_cons, elem_of_nil; intros [->|[->|[]]]; reflexivity|]).
  contradiction.
Qed.

Lemma setWeekNumbers_lookup fixtures w week :
  setWeekNumbers fixtures !! w = Some week ->
  exists week0, fixtures !! w = Some week0 /\
    week = map (fun m => set_Week m (int_add (Z.of_nat w) 1)) week0.
Proof.
  unfold setWeekNumbers. rewrite list_lookup_imap.
  destruct (fixtures !! w) as [week0|]; simpl; [|discriminate].
  intros [= <-]. eauto.
Qed.

Lemma setWeekNumbers_length fixtures :
  length (setWeekNumbers fixtures) = length fixtures.
Proof. apply length_imap. Qed.

(** C6, as the code has it. [generateFixtures] builds every match with
    the week field 0. The week numbers are written by the block that
    opens [simulateNextWeek] and [simulateAllRemainingWeeks]: entering
    week 1 from week 0 with four teams, it regenerates the 18 weeks and
    leaves every match of the w-th week (counted from 1) with [Week = w]. *)
Theorem week_numbers_set_on_entering_first_week :
  (forall l fixtures week m,
     generateFixtures l = Some fixtures -> week ∈ fixtures -> m ∈ week ->
     Week m = 0) /\
  (forall l, LWeek l = 0 -> length (Teams l) = 4%nat ->
     exists l', enterFirstWeek l = Some l' /\
       Teams l' = Teams l /\ LWeek l' = 1 /\ length (Fixtures l') = 18%nat /\
       forall (w : nat) week m,
         Fixtures l' !! w = Some week -> m ∈ week -> Week m = Z.of_nat w + 1).
Proof.
  split; [exact generateFixtures_week_zero|].
  intros l Hw Hlen.
  destruct (Teams l) as [|a [|b [|c [|d [|e rest]]]]] eqn:Ht; try discriminate.
  unfold enterFirstWeek. rewrite Hw. simpl (0 =? 0). cbv iota.
  rewrite (generateFixtures_explicit _ a b c d) by exact Ht. cbv zeta.
  cbn [mbind option_bind].
  eexists. split; [reflexivity|]. cbn [Teams LWeek Fixtures].
  split; [exact Ht|]. split; [reflexivity|].
  split; [rewrite setWeekNumbers_length; reflexivity|].
  intros w week m Hlk Hm.
  apply setWeekNumbers_lookup in Hlk as (week0 & Hlk0 & ->).
  apply list_elem_of_fmap in Hm as (m0 & -> & _). simpl.
  apply lookup_lt_Some in Hlk0. simpl in Hlk0.
  unfold int_add. apply wrap_small. unfold minInt64, maxInt64. lia.
Qed.


(** The scheduler's own output carries week 0 on the first match of
    its first week, where the claim wants 1. *)
Lemma generateFixtures_first_match_week_zero :
  exists fixtures week m rest,
    generateFixtures fourTeams = Some fixtures /\
    fixtures !! 0%nat = Some week /\ week = m :: rest /\
    Week m = 0 /\ Week m ≠ 1.
Proof.
  eexists _, _, _, _. split; [reflexivity|]. split; [reflexivity|].
  split; [reflexivity|]. split; [reflexivity|]. discriminate.
Qed.

Lemma week_numbers_witness :
  exists l', enterFirstWeek fourTeams = Some l' /\
       Teams l' = Teams fourTeams /\ LWeek l' = 1 /\ length (Fixtures l') = 18%nat /\
       forall (w : nat) week m,
         Fixtures l' !! w = Some week -> m ∈ week -> Week m = Z.of_nat w + 1.
Proof.
  apply (proj2 week_numbers_set_on_entering_first_week fourTeams); reflexivity.
Defined.

(** * The standings replay *)


Lemma UpdateTeamStats_Some t gf ga t' :
  UpdateTeamStats t gf ga = Some t' -> (4 <= length (Form t))%nat.
Proof. unfold UpdateTeamStats. case_bool_decide; [discriminate|lia]. Qed.

Lemma UpdateTeamStats_total t gf ga :
  (4 <= length (Form t))%nat -> exists t', UpdateTeamStats t gf ga = Some t'.
Proof.
  intros Hlen. unfold UpdateTeamStats. case_bool_decide; [lia|].
  destruct (gf >? ga); [eauto|]. destruct (gf =? ga); eauto.
Qed.

Lemma UpdateTeamStats_Form_length t gf ga t' :
  UpdateTeamStats t gf ga = Some t' -> length (Form t') = 5%nat.
Proof.
  unfold UpdateTeamStats. case_bool_decide as Hlen; [discriminate|].
  destruct (gf >? ga); [|destruct (gf =? ga)]; intros [= <-]; simpl;
    rewrite length_take; lia.
Qed.

(** The new statistics depend on the old statistics and the score only. *)
Lemma UpdateTeamStats_stats t1 t2 gf ga t1' t2' :
  stats t1 = stats t2 ->
  UpdateTeamStats t1 gf ga = Some t1' -> UpdateTeamStats t2 gf ga = Some t2' ->
  stats t1' = stats t2'.
Proof.
  unfold stats. intros [= Hp Hw Hd Hl Hgf Hga Hgd Hpt].
  unfold UpdateTeamStats. do 2 (case_bool_decide; [discriminate|]).
  rewrite Hw, Hd, Hl, Hgf, Hga, Hpt.
  destruct (gf >? ga); [|destruct (gf =? ga)];
    intros [= <-] [= <-]; reflexivity.
Qed.

Section Replay.
Context `{Env}.

Lemma agree_refl T w : agree T w w.
Proof. split; [reflexivity|]. split; [reflexivity|]. intros p t Hp. eauto. Qed.

Lemma agree_nil_trans w1 w2 w3 : agree [] w1 w2 -> agree [] w2 w3 -> agree [] w1 w3.
Proof.
  intros (Hl1 & Hn1 & H1) (Hl2 & Hn2 & H2).
  split; [congruence|]. split; [congruence|].
  intros p t1 Hp. destruct (H1 p t1 Hp) as (t2 & Hp2 & Hf2 & _).
  destruct (H2 p t2 Hp2) as (t3 & Hp3 & Hf3 & _).
  exists t3. split; [exact Hp3|]. split; [tauto|]. intros Hin.
  apply elem_of_nil in Hin. contradiction.
Qed.

Lemma updateAt_agree_nil p gf ga w w' :
  updateAt p gf ga w = Some (tt, w') -> agree [] w w'.
Proof.
  intros Hu. apply updateAt_Some in Hu as (t & t' & Hp & Hu & [= ->]).
  split; [reflexivity|]. split; [simpl; rewrite length_insert; reflexivity|].
  intros q t1 Hq. simpl. destruct (decide (p = q)) as [->|Hne].
  - exists t'. rewrite list_lookup_insert_eq by (eapply lookup_lt_Some; eauto).
    split; [reflexivity|]. split.
    + intros _. rewrite (UpdateTeamStats_Form_length _ _ _ _ Hu). lia.
    + intros Hin. apply elem_of_nil in Hin. contradiction.
  - exists t1. rewrite list_lookup_insert_ne by exact Hne. split; [exact Hq|].
    split; [tauto|]. intros Hin. apply elem_of_nil in Hin. contradiction.
Qed.

Lemma resetAt_agree_nil p w w' :
  resetAt p w = Some (tt, w') -> agree [] w w'.
Proof.
  intros Hu. apply resetAt_Some in Hu as (t & Hp & [= ->]).
  split; [reflexivity|]. split; [simpl; rewrite length_insert; reflexivity|].
  intros q t1 Hq. simpl. destruct (decide (p = q)) as [->|Hne].
  - exists (ResetTeamStats t).
    rewrite list_lookup_insert_eq by (eapply lookup_lt_Some; eauto).
    split; [reflexivity|]. split.
    + rewrite Hp in Hq. injection Hq as <-. simpl. tauto.
    + intros Hin. apply elem_of_nil in Hin. contradiction.
  - exists t1. rewrite list_lookup_insert_ne by exact Hne. split; [exact Hq|].
    split; [tauto|]. intros Hin. apply elem_of_nil in Hin. contradiction.
Qed.

Lemma replayMatch_agree_nil m w w' :
  replayMatch m w = Some (tt, w') -> agree [] w w'.
Proof.
  unfold replayMatch. destruct (IsPlayed m || IsFixed m).
  - intros Hr. apply bind_Some in Hr as ([] & w1 & H1 & H2).
    eapply agree_nil_trans; eapply updateAt_agree_nil; eassumption.
  - intros Hr. apply ret_Some in Hr as [= <-]. apply agree_refl.
Qed.

Lemma replay_agree_nil (weeks : list (list Match)) w w' :
  forM_ weeks (fun week => forM_ week replayMatch) w = Some (tt, w') ->
  agree [] w w'.
Proof.
  apply (forM__preserves (agree [])); [apply agree_refl|apply agree_nil_trans|].
  intros week u u' _.
  apply (forM__preserves (agree [])); [apply agree_refl|apply agree_nil_trans|].
  intros m v v' _. apply replayMatch_agree_nil.
Qed.

(** The second of two agreeing runs goes through where the first does. *)
Lemma updateAt_agree T p gf ga w1 w2 w1' :
  agree T w1 w2 -> updateAt p gf ga w1 = Some (tt, w1') ->
  exists w2', updateAt p gf ga w2 = Some (tt, w2') /\ agree T w1' w2'.
Proof.
  intros (Hlg & Hlen & Hag) Hu.
  apply updateAt_Some in Hu as (t1 & t1' & Hp1 & Hu1 & [= ->]).
  destruct (Hag p t1 Hp1) as (t2 & Hp2 & Hform & Hstats).
  destruct (UpdateTeamStats_total t2 gf ga) as (t2' & Hu2).
  { apply Hform. eapply UpdateTeamStats_Some; eauto. }
  exists (setHeap w2 (<[p := t2']> (heap w2))). split.
  { apply updateAt_Some. eauto 6. }
  split; [exact Hlg|]. split; [simpl; rewrite !length_insert; exact Hlen|].
  intros q u1 Hq. simpl in *. destruct (decide (p = q)) as [->|Hne].
  - rewrite list_lookup_insert_eq in Hq by (eapply lookup_lt_Some; eauto).
    injection Hq as <-. exists t2'.
    rewrite list_lookup_insert_eq by (eapply lookup_lt_Some; eauto).
    split; [reflexivity|]. split.
    + intros _. rewrite (UpdateTeamStats_Form_length _ _ _ _ Hu2). lia.
    + intros Hin. apply (UpdateTeamStats_stats t1 t2 gf ga); auto.
  - rewrite list_lookup_insert_ne in Hq by exact Hne.
    rewrite list_lookup_insert_ne by exact Hne. apply Hag. exact Hq.
Qed.

Lemma replayMatch_agree T m w1 w2 w1' :
  agree T w1 w2 -> replayMatch m w1 = Some (tt, w1') ->
  exists w2', replayMatch m w2 = Some (tt, w2') /\ agree T w1' w2'.
Proof.
  unfold replayMatch. intros Hag. destruct (IsPlayed m || IsFixed m).
  - intros Hr. apply bind_Some in Hr as ([] & wa & Ha & Hb).
    destruct (updateAt_agree _ _ _ _ _ _ _ Hag Ha) as (wb & Ha2 & Hag2).
    destruct (updateAt_agree _ _ _ _ _ _ _ Hag2 Hb) as (wc & Hb2 & Hag3).
    exists wc. split; [|exact Hag3]. apply bind_Some. eauto.
  - intros Hr. apply ret_Some in Hr as [= <-]. exists w2.
    split; [reflexivity|exact Hag].
Qed.

Lemma replay_agree T (weeks : list (list Match)) w1 w2 w1' :
  agree T w1 w2 ->
  forM_ weeks (fun week => forM_ week replayMatch) w1 = Some (tt, w1') ->
  exists w2', forM_ weeks (fun week => forM_ week replayMatch) w2 = Some (tt, w2')
              /\ agree T w1' w2'.
Proof.
  apply (forM__simulates (agree T)). intros week u1 u2 u1' _.
  apply (forM__simulates (agree T)). intros m v1 v2 v1' _.
  apply replayMatch_agree.
Qed.

(** What the reset loop leaves: every object of the list reset, the
    others as they were. *)
Lemma reset_loop T w w' :
  forM_ T resetAt w = Some (tt, w') ->
  league w' = league w /\ length (heap w') = length (heap w) /\
  forall p, heap w' !! p =
            (if decide (p ∈ T) then ResetTeamStats else id) <$> heap w !! p.
Proof.
  revert w. induction T as [|q T IH]; intros w Hrun.
  - apply ret_Some in Hrun as [= ->]. split; [reflexivity|]. split; [reflexivity|].
    intros p. rewrite decide_False by apply not_elem_of_nil.
    destruct (heap w !! p); reflexivity.
  - simpl in Hrun. apply bind_Some in Hrun as ([] & w1 & Hq & Hrest).
    apply resetAt_Some in Hq as (t & Hq & [= ->]).
    destruct (IH _ Hrest) as (Hlg & Hlen & Hlook). simpl in *.
    split; [exact Hlg|]. split; [rewrite Hlen, length_insert; reflexivity|].
    intros p. rewrite Hlook. destruct (decide (p = q)) as [->|Hne].
    + rewrite list_lookup_insert_eq by (eapply lookup_lt_Some; eauto).
      rewrite Hq. rewrite (decide_True (P := q ∈ q :: T)) by left. simpl.
      destruct (decide (q ∈ T)); reflexivity.
    + rewrite list_lookup_insert_ne by congruence.
      destruct (decide (p ∈ T)) as [Hin|Hnin].
      * rewrite decide_True by (right; exact Hin). reflexivity.
      * rewrite decide_False; [reflexivity|].
        intros Hin. apply elem_of_cons in Hin as [?|?]; contradiction.
Qed.

Lemma reset_loop_total T w :
  (forall p, p ∈ T -> (p < length (heap w))%nat) ->
  exists w', forM_ T resetAt w = Some (tt, w').
Proof.
  revert w. induction T as [|q T IH]; intros w Hvalid.
  - eexists. reflexivity.
  - destruct (lookup_lt_is_Some_2 (heap w) q) as (t & Hq); [apply Hvalid; left|].
    destruct (IH (setHeap w (<[q := ResetTeamStats t]> (heap w)))) as (w' & Hw').
    { intros p Hp. simpl. rewrite length_insert. apply Hvalid. right. exact Hp. }
    exists w'. simpl. apply bind_Some.
    exists tt, (setHeap w (<[q := ResetTeamStats t]> (heap w))).
    split; [|exact Hw']. apply resetAt_Some. eauto.
Qed.

Lemma recalculateAllStats_Some w r :
  recalculateAllStats w = Some r <->
  exists w1, forM_ (Teams (league w)) resetAt w = Some (tt, w1) /\
    forM_ (take (Z.to_nat (LWeek (league w))) (Fixtures (league w)))
          (fun week => forM_ week replayMatch) w1 = Some r.
Proof.
  unfold recalculateAllStats. rewrite bind_Some. split.
  - intros (l & w0 & [= <- <-] & Hk). apply bind_Some in Hk as ([] & w1 & ? & ?). eauto.
  - intros (w1 & ? & ?). exists (league w), w. split; [reflexivity|].
    apply bind_Some. eauto.
Qed.

(** C4. The replay is idempotent on the statistics: when
    [recalculateAllStats] has run, running it again on the unchanged
    league goes through and leaves every team of the league with the same
    played, won, drawn, lost, goals for, goals against, goal difference
    and points. *)
Theorem recalculateAllStats_idempotent w w1 :
  recalculateAllStats w = Some (tt, w1) ->
  league w1 = league w /\
  exists w2, recalculateAllStats w1 = Some (tt, w2) /\
    league w2 = league w1 /\
    forall p, p ∈ Teams (league w) ->
      stats <$> heap w2 !! p = stats <$> heap w1 !! p.
Proof.
  intros Hrun. apply recalculateAllStats_Some in Hrun as (wr & Hreset & Hreplay).
  set (T := Teams (league w)) in *.
  destruct (reset_loop _ _ _ Hreset) as (Hlg_r & Hlen_r & Hlook_r).
  pose proof (replay_agree_nil _ _ _ Hreplay) as (Hlg_1 & Hlen_1 & Hmono).
  assert (Hlg : league w1 = league w) by congruence.
  split; [exact Hlg|].
  destruct (reset_loop_total T w1) as (w1r & Hreset1).
  { intros p Hp. rewrite <- Hlen_1, Hlen_r.
    specialize (Hlook_r p). rewrite decide_True in Hlook_r by exact Hp.
    destruct (heap w !! p) as [t|] eqn:Hwp.
    - eapply lookup_lt_Some; eauto.
    - simpl in Hlook_r. (* the reset loop dereferenced p *)
      exfalso. clear -Hreset Hp Hwp.
      assert (Hgen : forall T' u u', forM_ T' resetAt u = Some (tt, u') ->
                       forall q, q ∈ T' -> is_Some (heap u !! q)).
      { induction T' as [|a T' IH]; intros u u' Hr q Hq.
        - apply elem_of_nil in Hq. contradiction.
        - simpl in Hr. apply bind_Some in Hr as ([] & u1 & Ha & Hr).
          apply resetAt_Some in Ha as (t & Ha & [= ->]).
          apply elem_of_cons in Hq as [->|Hq]; [eauto|].
          specialize (IH _ _ Hr q Hq). simpl in IH.
          apply lookup_lt_is_Some in IH. rewrite length_insert in IH.
          apply lookup_lt_is_Some. exact IH. }
      destruct (Hgen _ _ _ Hreset p Hp) as (t & Ht). congruence. }
  destruct (reset_loop _ _ _ Hreset1) as (Hlg_1r & Hlen_1r & Hlook_1r).
  assert (Hag : agree T wr w1r).
  { split; [congruence|]. split; [congruence|].
    intros p t Hp. rewrite Hlook_r in Hp.
    destruct (heap w !! p) as [t0|] eqn:Hwp; [|discriminate].
    simpl in Hp. injection Hp as <-.
    assert (Hwr : heap wr !! p = Some ((if decide (p ∈ T) then ResetTeamStats else id) t0)).
    { rewrite Hlook_r, Hwp. reflexivity. }
    destruct (Hmono _ _ Hwr) as (t1 & Hw1p & Hform & _).
    exists ((if decide (p ∈ T) then ResetTeamStats else id) t1).
    split; [rewrite Hlook_1r, Hw1p; reflexivity|].
    split.
    - intros Hlen. destruct (decide (p ∈ T)); simpl in *; apply Hform; exact Hlen.
    - intros Hin. rewrite !decide_True by exact Hin. reflexivity. }
  rewrite Hlg in *. fold T.
  destruct (replay_agree T _ _ _ _ Hag Hreplay) as (w2 & Hreplay2 & (Hlg2 & Hlen2 & Hag2)).
  exists w2. split.
  { apply recalculateAllStats_Some. exists w1r. rewrite Hlg. fold T. split; assumption. }
  split; [congruence|].
  intros p Hp. destruct (heap w1 !! p) as [t1|] eqn:Hw1p.
  - destruct (Hag2 p t1 Hw1p) as (t2 & -> & _ & Hst). simpl. f_equal. symmetry. auto.
  - apply lookup_ge_None in Hw1p. rewrite Hlen2 in Hw1p.
    apply lookup_ge_None in Hw1p. rewrite Hw1p. reflexivity.
Qed.

End Replay.

Lemma replay_after_week_one_returns :
  returned (recalculateAllStats worldAfterWeekOne) = true.
Proof. vm_compute. reflexivity. Qed.

Lemma recalculateAllStats_idempotent_witness :
  exists w1, recalculateAllStats worldAfterWeekOne = Some (tt, w1) /\
    league w1 = league worldAfterWeekOne /\
    exists w2, recalculateAllStats w1 = Some (tt, w2) /\
      league w2 = league w1 /\
      forall p, p ∈ Teams (league worldAfterWeekOne) ->
        stats <$> heap w2 !! p = stats <$> heap w1 !! p.
Proof.
  pose proof replay_after_week_one_returns as Hret.
  destruct (recalculateAllStats worldAfterWeekOne) as [[[] w1]|] eqn:Hrun;
    [|discriminate].
  exists w1. split; [reflexivity|].
  exact (recalculateAllStats_idempotent worldAfterWeekOne w1 Hrun).
Defined.

(** The replay does not reset the form: a second replay of the same
    week pushes the week's result into the form a second time (and the
    strength follows the form). The statistics are what C4 is about. *)
Remark replay_twice_repeats_form :
  (fun r => (fun t => (Form t, CurrentStrength t)) <$> heap r.2 !! 0%nat)
    <$> recalculateAllStats worldAfterWeekOne
  = Some (Some (["D"; ""; ""; ""; ""]%string, 85)) /\
  (fun r => (fun t => (Form t, CurrentStrength t)) <$> heap r.2 !! 0%nat)
    <$> (recalculateAllStats;; recalculateAllStats) worldAfterWeekOne
  = Some (Some (["D"; "D"; ""; ""; ""]%string, 85)).
Proof. split; vm_compute; reflexivity. Qed.

(** * The table order *)

Lemma insertBack_perm {A} (less : A -> A -> bool) x rprefix :
  insertBack less x rprefix ≡ₚ x :: rprefix.
Proof.
  induction rprefix as [|y rest IH]; simpl; [reflexivity|].
  destruct (less x y); [|reflexivity].
  rewrite IH. apply Permutation_swap.
Qed.

Lemma sortSlice_perm {A} (less : A -> A -> bool) data :
  sortSlice less data ≡ₚ data.
Proof.
  unfold sortSlice.
  assert (Hgen : forall acc,
            fold_left (fun rprefix x => insertBack less x rprefix) data acc
            ≡ₚ data ++ acc).
  { induction data as [|x data IH]; intros acc; simpl; [reflexivity|].
    rewrite IH, insertBack_perm. symmetry. apply Permutation_middle. }
  rewrite reverse_Permutation, Hgen, app_nil_r. reflexivity.
Qed.

Lemma insertBack_descending {A} (less : A -> A -> bool) x rprefix :
  (forall a b, less a b = true -> less b a = false) ->
  descending less rprefix -> descending less (insertBack less x rprefix).
Proof.
  intros Hasym. induction rprefix as [|y rest IH]; intros Hd; simpl; [exact I|].
  destruct (less x y) eqn:Hxy.
  - assert (Hrest : descending less rest).
    { destruct rest; [exact I|]. destruct Hd as [_ Hd]. exact Hd. }
    specialize (IH Hrest). destruct rest as [|z rest']; simpl in *.
    + split; [apply Hasym; exact Hxy|exact I].
    + destruct (less x z) eqn:Hxz.
      * split; [apply Hd|exact IH].
      * split; [apply Hasym; exact Hxy|exact IH].
  - simpl. split; [exact Hxy|exact Hd].
Qed.

Lemma sortSlice_descending {A} (less : A -> A -> bool) data :
  (forall a b, less a b = true -> less b a = false) ->
  descending less (reverse (sortSlice less data)).
Proof.
  intros Hasym. unfold sortSlice. rewrite reverse_involutive.
  assert (Hgen : forall acc, descending less acc ->
            descending less
              (fold_left (fun rprefix x => insertBack less x rprefix) data acc)).
  { induction data as [|x data IH]; intros acc Hacc; simpl; [exact Hacc|].
    apply IH, insertBack_descending; assumption. }
  apply Hgen. exact I.
Qed.

Lemma descending_lookup {A} (less : A -> A -> bool) l i x y :
  descending less l -> l !! i = Some x -> l !! S i = Some y -> less x y = false.
Proof.
  revert i. induction l as [|a l IH]; intros i Hd Hx Hy; [discriminate|].
  destruct l as [|b l']; [discriminate|].
  destruct Hd as [Hab Hd]. destruct i as [|i]; simpl in *.
  - injection Hx as <-. injection Hy as <-. exact Hab.
  - eapply IH; eauto.
Qed.

(** In the sorted slice no element is [less] than its predecessor. *)
Lemma sortSlice_adjacent {A} (less : A -> A -> bool) data i x y :
  (forall a b, less a b = true -> less b a = false) ->
  sortSlice less data !! i = Some x -> sortSlice less data !! S i = Some y ->
  less y x = false.
Proof.
  intros Hasym Hx Hy.
  pose proof (sortSlice_descending less data Hasym) as Hd.
  set (s := sortSlice less data) in *.
  assert (Hi : (S i < length s)%nat) by (eapply lookup_lt_Some; eauto).
  apply (descending_lookup less (reverse s) (length s - S (S i)) y x Hd).
  - rewrite reverse_lookup by lia.
    replace (length s - S (length s - S (S i)))%nat with (S i) by lia. exact Hy.
  - rewrite reverse_lookup by lia.
    replace (length s - S (S (length s - S (S i))))%nat with i by lia. exact Hx.
Qed.

Lemma lessTeams_asym a b : lessTeams a b = true -> lessTeams b a = false.
Proof.
  unfold lessTeams.
  destruct (Z.eqb_spec (Points a) (Points b)) as [He|Hne]; simpl.
  - rewrite He, Z.eqb_refl. simpl. lia.
  - destruct (Z.eqb_spec (Points b) (Points a)); [congruence|]. simpl. lia.
Qed.

Lemma lessTeams_false a b :
  lessTeams b a = false ->
  Points a >= Points b /\ (Points a = Points b -> GoalDifference a >= GoalDifference b).
Proof.
  unfold lessTeams.
  destruct (Z.eqb_spec (Points b) (Points a)) as [He|Hne]; simpl; lia.
Qed.

Section Table.
Context `{Env}.

Lemma mapM'_deref_pairs ps w r :
  mapM' (fun p => t ← deref p; mret (p, t)) ps w = Some r ->
  r.2 = w /\ r.1.*1 = ps /\ Forall (fun pt => heap w !! pt.1 = Some pt.2) r.1.
Proof.
  revert r. induction ps as [|p ps IH]; intros r Hr.
  - apply ret_Some in Hr as ->. simpl. auto.
  - simpl in Hr. apply bind_Some in Hr as (pt & w1 & Hp & Hr).
    apply bind_Some in Hp as (t & w0 & Hd & Hp).
    apply deref_Some in Hd as (t' & Hl & [= -> ->]).
    apply ret_Some in Hp as [= -> ->].
    apply bind_Some in Hr as (pts & w2 & Hrest & Hr).
    apply ret_Some in Hr as ->. simpl.
    destruct (IH _ Hrest) as (Hw & Hps & Hall). simpl in *.
    split; [exact Hw|]. split; [f_equal; exact Hps|]. constructor; assumption.
Qed.

Lemma mapM'_deref_values (pts : list (nat * Team)) w :
  Forall (fun pt => heap w !! pt.1 = Some pt.2) pts ->
  mapM' deref pts.*1 w = Some (pts.*2, w).
Proof.
  induction 1 as [|[p t] pts Hpt _ IH]; [reflexivity|].
  simpl. apply bind_Some. exists t, w. split; [apply deref_Some; eauto|].
  apply bind_Some. exists (pts.*2), w. split; [exact IH|reflexivity].
Qed.

Lemma standingsTable_Some w rows w' :
  standingsTable w = Some (rows, w') ->
  exists pts,
    Forall (fun pt => heap w !! pt.1 = Some pt.2) pts /\
    pts.*1 = Teams (league w) /\
    rows = (sortSlice (fun a b => lessTeams a.2 b.2) pts).*2 /\
    w' = mkWorld (heap w)
           (mkLeague (sortSlice (fun a b => lessTeams a.2 b.2) pts).*1
              (LWeek (league w)) (Fixtures (league w)))
           (rng w) (ticks w).
Proof.
  unfold standingsTable, sortTeams. intros Hrun.
  apply bind_Some in Hrun as ([] & w1 & Hsort & Hrows).
  apply bind_Some in Hsort as (l & w0 & [= <- <-] & Hsort).
  apply bind_Some in Hsort as (pts & w2 & Hpts & Hset).
  apply mapM'_deref_pairs in Hpts as (Hw2 & Hps & Hall). simpl in *. subst w2.
  injection Hset as <-.
  apply bind_Some in Hrows as (l' & w3 & [= <- <-] & Hrows). simpl in Hrows.
  exists pts. split; [exact Hall|]. split; [exact Hps|].
  rewrite mapM'_deref_values in Hrows.
  - injection Hrows as <- <-. split; reflexivity.
  - simpl. rewrite Forall_forall in *. intros pt Hin. apply Hall.
    rewrite <- (sortSlice_perm (fun a b => lessTeams a.2 b.2) pts). exact Hin.
Qed.

(** C2, as the code has it. The rows of the standings table are the
    league's teams, ordered by points and then by goal difference, both
    descending: of two adjacent rows the upper has at least the points of
    the lower, and with equal points at least its goal difference. Goals
    scored play no part in the order. *)
Theorem standingsTable_sorted w rows w' :
  standingsTable w = Some (rows, w') ->
  heap w' = heap w /\
  Teams (league w') ≡ₚ Teams (league w) /\
  Forall2 (fun p t => heap w !! p = Some t) (Teams (league w')) rows /\
  forall i a b, rows !! i = Some a -> rows !! S i = Some b ->
    Points a >= Points b /\
    (Points a = Points b -> GoalDifference a >= GoalDifference b).
Proof.
  intros Hrun. apply standingsTable_Some in Hrun as (pts & Hall & Hps & -> & ->).
  simpl. set (s := sortSlice _ pts).
  split; [reflexivity|]. split; [|split].
  - rewrite <- Hps. apply fmap_Permutation, sortSlice_perm.
  - apply Forall2_fmap. apply Forall_Forall2_diag.
    rewrite Forall_forall in *. intros pt Hin. apply Hall.
    rewrite <- (sortSlice_perm (fun a b => lessTeams a.2 b.2) pts). exact Hin.
  - intros i a b Ha Hb. apply lessTeams_false.
    rewrite list_lookup_fmap in Ha, Hb.
    destruct (s !! i) as [x|] eqn:Hx; [|discriminate].
    destruct (s !! S i) as [y|] eqn:Hy; [|discriminate].
    injection Ha as <-. injection Hb as <-.
    apply (sortSlice_adjacent (fun a b => lessTeams a.2 b.2) pts i x y);
      [|exact Hx|exact Hy].
    intros u v. apply lessTeams_asym.
Qed.

End Table.

(** After a first week of 0-0 and 1-1 all four teams have one point and
    goal difference 0; the table keeps Manchester City (no goal scored)
    above Arsenal (one goal scored), where the claim wants the team with
    more goals first. *)
Lemma standingsTable_after_week_one :
  (fun r => map row r.1) <$> (recalculateAllStats;; standingsTable) worldAfterWeekOne
  = Some [ ("Manchester City"%string, 1, 0, 0); ("Arsenal"%string, 1, 0, 1);
           ("Liverpool"%string, 1, 0, 1); ("Manchester United"%string, 1, 0, 0) ].
Proof. vm_compute. reflexivity. Qed.

Lemma standingsTable_ignores_goalsFor :
  exists rows w2 a b,
    (recalculateAllStats;; standingsTable) worldAfterWeekOne = Some (rows, w2) /\
    rows !! 0%nat = Some a /\ rows !! 1%nat = Some b /\
    Points a = Points b /\ GoalDifference a = GoalDifference b /\
    GoalsFor a < GoalsFor b.
Proof.
  pose proof standingsTable_after_week_one as Hrun.
  destruct ((recalculateAllStats;; standingsTable) worldAfterWeekOne)
    as [[rows w2]|]; [|discriminate].
  simpl in Hrun. injection Hrun as Hrows.
  destruct rows as [|a [|b rows]]; try discriminate.
  unfold row in Hrows. simpl in Hrows. simplify_eq.
  exists (a :: b :: rows), w2, a, b. repeat split; try reflexivity; lia.
Qed.

Lemma standingsTable_sorted_witness :
  exists w1 rows w2,
    recalculateAllStats worldAfterWeekOne = Some (tt, w1) /\
    standingsTable w1 = Some (rows, w2) /\
    forall i a b, rows !! i = Some a -> rows !! S i = Some b ->
      Points a >= Points b /\
      (Points a = Points b -> GoalDifference a >= GoalDifference b).
Proof.
  pose proof standingsTable_after_week_one as Hrun.
  unfold mbind at 1 in Hrun. unfold M_bind in Hrun.
  destruct (recalculateAllStats worldAfterWeekOne) as [[[] w1]|]; [|discriminate].
  destruct (standingsTable w1) as [[rows w2]|] eqn:H2; [|discriminate].
  exists w1, rows, w2. split; [reflexivity|]. split; [exact H2|].
  apply (standingsTable_sorted w1 rows w2 H2).
Defined.

(** * The form window *)


Lemma fillForm_total s : forall j form,
  (j + String.length s <= length form)%nat -> is_Some (fillForm j s form).
Proof.
  induction s as [|c s IH]; simpl; intros j form Hlen; [eauto|].
  case_bool_decide; [|lia]. apply IH. rewrite length_insert. lia.
Qed.







(** * The match outcome sampler *)

Section Sampler.
Context `{Env}.


(** Where [rand.Seed] still seeds (a build with
    [GODEBUG=randseednop=0]), the sampler reseeds the global source from
    the wall clock on every call: the goals it returns, and the state it
    leaves the source in, are fixed by the two strengths and the clock
    reading, whatever state the source was in before. *)
Lemma predictMatchResult_reseeds team1 team2 team1' team2' (w w' : World) :
  randseednop = false ->
  CurrentStrength team1 = CurrentStrength team1' ->
  CurrentStrength team2 = CurrentStrength team2' ->
  ticks w = ticks w' ->
  outcome (predictMatchResult team1 team2 w)
  = outcome (predictMatchResult team1' team2' w').
Proof.
  intros Hnop H1 H2 Ht. unfold predictMatchResult, outcome.
  rewrite H1, H2.
  unfold mbind, M_bind, seedFromClock, seeded, Float64, Intn, mret, M_ret.
  rewrite Hnop. cbn [heap league rng ticks]. rewrite Ht.
  destruct (rand_Float64 (rand_Seed (time_UnixNano (ticks w')))) as [r g1].
  repeat (cbn [heap league rng ticks Z.leb Z.compare];
          first [ reflexivity
                | match goal with
                  | |- context [rand_Intn ?n ?g] =>
                      let k := fresh "k" in let g' := fresh "g" in
                      destruct (rand_Intn n g) as [k g']
                  | |- context [if ?c then _ else _] => destruct c
                  end ]).
Qed.

End Sampler.

(** In such a build, two calls with equal strengths and the random
    source in the same state, at two readings of the clock, return
    different goals. *)
Remark predictMatchResult_differs_with_clock :
  rng (seedingWorld 5 0) = rng (seedingWorld 5 1) /\
  fst <$> predictMatchResult evenTeam evenTeam (seedingWorld 5 0) = Some (3, 0) /\
  fst <$> predictMatchResult evenTeam evenTeam (seedingWorld 5 1) = Some (3, 1).
Proof.
  split; [reflexivity|]. split; vm_compute; reflexivity.
Qed.


(** * Binary64 rounding *)

(** The facts about [float64] that the strength bounds rest on, derived
    from the specification of the primitive operations ([SpecFloat]). *)

Lemma digits2_pos_bounds (m : positive) :
  2 ^ (Z.pos (digits2_pos m) - 1) <= Z.pos m < 2 ^ Z.pos (digits2_pos m).
Proof.
  induction m as [m IH|m IH|]; cbn [digits2_pos].
  - rewrite Pos2Z.inj_succ. replace (Z.succ (Z.pos (digits2_pos m)) - 1)
      with (Z.succ (Z.pos (digits2_pos m) - 1)) by lia.
    rewrite !Z.pow_succ_r by lia. lia.
  - rewrite Pos2Z.inj_succ. replace (Z.succ (Z.pos (digits2_pos m)) - 1)
      with (Z.succ (Z.pos (digits2_pos m) - 1)) by lia.
    rewrite !Z.pow_succ_r by lia. lia.
  - simpl. lia.
Qed.

Lemma digits2_pos_unique (m : positive) (d : Z) :
  2 ^ (d - 1) <= Z.pos m < 2 ^ d -> Z.pos (digits2_pos m) = d.
Proof.
  intros [Hlo Hhi]. pose proof (digits2_pos_bounds m) as [Hlo' Hhi'].
  set (k := Z.pos (digits2_pos m)) in *. assert (0 < k) by (subst k; lia).
  assert (Hd : 0 < d).
  { destruct (Z.lt_ge_cases 0 d) as [|Hneg]; [assumption|].
    rewrite (Z.pow_neg_r 2 (d - 1)) in Hlo by lia.
    assert (2 ^ d <= 1); [|lia].
    destruct (Z.eq_dec d 0) as [->|]; [simpl; lia|].
    rewrite Z.pow_neg_r by lia. lia. }
  destruct (Z.lt_trichotomy k d) as [Hlt|[Heq|Hgt]]; [|exact Heq|].
  - assert (2 ^ k <= 2 ^ (d - 1)) by (apply Z.pow_le_mono_r; lia). lia.
  - assert (2 ^ d <= 2 ^ (k - 1)) by (apply Z.pow_le_mono_r; lia). lia.
Qed.

Lemma shr_1_m mrs : 0 <= shr_m mrs -> shr_m (shr_1 mrs) = shr_m mrs / 2.
Proof.
  destruct mrs as [m r s]. cbn [shr_m]. intros Hm. unfold shr_1.
  destruct m as [|[p|p|]|p]; cbn [shr_m]; try lia.
  - reflexivity.
  - rewrite Pos2Z.inj_xI. apply Z.div_unique with 1; lia.
  - rewrite Pos2Z.inj_xO. apply Z.div_unique with 0; lia.
  - reflexivity.
Qed.

Lemma iter_shr_1_m (n : positive) : forall mrs,
  0 <= shr_m mrs ->
  shr_m (SpecFloat.iter_pos shr_1 n mrs) = shr_m mrs / 2 ^ Z.pos n.
Proof.
  assert (Hnn : forall mrs, 0 <= shr_m mrs -> 0 <= shr_m (shr_1 mrs)).
  { intros mrs Hm. rewrite shr_1_m by exact Hm. apply Z.div_pos; lia. }
  induction n as [n IH|n IH|]; intros mrs Hm; cbn [SpecFloat.iter_pos].
  - rewrite !IH, shr_1_m; try assumption.
    + rewrite !Z.div_div by lia. f_equal.
      replace (Z.pos n~1) with (1 + Z.pos n + Z.pos n) by lia.
      rewrite !Z.pow_add_r, Z.pow_1_r by lia. lia.
    + apply Hnn. exact Hm.
    + rewrite IH by (apply Hnn; exact Hm). apply Z.div_pos; [|lia].
      apply Hnn. exact Hm.
  - rewrite !IH; try assumption.
    + rewrite Z.div_div by lia. f_equal.
      replace (Z.pos n~0) with (Z.pos n + Z.pos n) by lia.
      rewrite Z.pow_add_r by lia. lia.
    + rewrite IH by exact Hm. apply Z.div_pos; lia.
  - rewrite shr_1_m by exact Hm. reflexivity.
Qed.

Lemma round_nearest_even_step q l :
  round_nearest_even q l = q \/ round_nearest_even q l = q + 1.
Proof.
  unfold round_nearest_even. destruct l as [|[]]; auto.
  destruct (Z.even q); auto.
Qed.

Lemma fexp_normal d : -1021 <= d -> fexp prec emax d = d - 53.
Proof. intros Hd. unfold fexp, emin, prec, emax. apply Z.max_l. lia. Qed.

(** A 53-digit mantissa with an exponent in range is representable:
    rounding leaves it alone. *)
Lemma binary_round_aux_exact (m : positive) (e : Z) :
  Z.pos (digits2_pos m) = 53 -> -1074 <= e <= 971 ->
  binary_round_aux prec emax false (Z.pos m) e loc_Exact
  = S754_finite false m e.
Proof.
  intros Hd He. unfold binary_round_aux.
  assert (Hshr : shr_fexp prec emax (Z.pos m) e loc_Exact
                 = ({| shr_m := Z.pos m; shr_r := false; shr_s := false |}, e)).
  { unfold shr_fexp. cbn [Zdigits2]. rewrite Hd, fexp_normal by lia.
    replace (53 + e - 53 - e) with 0 by lia. reflexivity. }
  rewrite Hshr. cbn [shr_m loc_of_shr_record round_nearest_even].
  rewrite Hshr. cbn [shr_m].
  replace (e <=? emax - prec) with true; [reflexivity|].
  symmetry. apply Z.leb_le. unfold emax, prec. lia.
Qed.

(** The second half of [binary_round_aux]: a rounded mantissa of 53
    digits is kept, and the one 54-digit value the rounding can reach,
    2^53, is renormalised to 2^52 with the exponent one higher. *)
Lemma renormalise (m1 e : Z) :
  2 ^ 52 <= m1 <= 2 ^ 53 -> -1074 <= e < 971 ->
  exists m' e',
    (let '(mrs, e2) := shr_fexp prec emax m1 e loc_Exact in
     match shr_m mrs with
     | 0 => S754_zero false
     | Z.pos m => if e2 <=? emax - prec then S754_finite false m e2
                  else S754_infinity false
     | Z.neg _ => S754_nan
     end) = S754_finite false m' e' /\
    Z.pos (digits2_pos m') = 53 /\
    e <= e' <= e + 1 /\
    Z.pos m' * 2 ^ (e' - e) = m1.
Proof.
  intros Hm He. destruct (Z.eq_dec m1 (2 ^ 53)) as [->|Hne].
  - exists (2 ^ 52)%positive, (e + 1). split; [|split; [reflexivity|split]].
    + unfold shr_fexp. replace (Zdigits2 (2 ^ 53)) with 54 by reflexivity.
      rewrite fexp_normal by lia. replace (54 + e - 53 - e) with 1 by lia.
      cbn [shr shr_record_of_loc SpecFloat.iter_pos]. 
      replace (shr_m (shr_1 {| shr_m := 2 ^ 53; shr_r := false; shr_s := false |}))
        with (Z.pos (2 ^ 52)) by reflexivity.
      replace (e + 1 <=? emax - prec) with true; [reflexivity|].
      symmetry. apply Z.leb_le. unfold emax, prec. lia.
    + lia.
    + replace (e + 1 - e) with 1 by lia. reflexivity.
  - destruct m1 as [|p|p]; try lia.
    assert (Hd : Z.pos (digits2_pos p) = 53).
    { apply digits2_pos_unique. replace (53 - 1) with 52 by lia. lia. }
    exists p, e. split; [|split; [exact Hd|split]].
    + unfold shr_fexp. cbn [Zdigits2]. rewrite Hd, fexp_normal by lia.
      replace (53 + e - 53 - e) with 0 by lia.
      cbn [shr shr_record_of_loc shr_m].
      replace (e <=? emax - prec) with true; [reflexivity|].
      symmetry. apply Z.leb_le. unfold emax, prec. lia.
    + lia.
    + rewrite Z.sub_diag. lia.
Qed.

(** Rounding a mantissa of more than 53 digits (no underflow, no
    overflow): the result is a normal number within one unit in the last
    place of the exact value. *)
Lemma binary_round_aux_bounds (M : positive) (E : Z) :
  let d := Z.pos (digits2_pos M) in
  53 < d -> -1074 <= d + E - 53 < 971 ->
  exists m' e',
    binary_round_aux prec emax false (Z.pos M) E loc_Exact
    = S754_finite false m' e' /\
    Z.pos (digits2_pos m') = 53 /\
    E + (d - 53) <= e' <= E + (d - 53) + 1 /\
    Z.pos M - 2 ^ (d - 53) < Z.pos m' * 2 ^ (e' - E)
      <= Z.pos M + 2 ^ (d - 53).
Proof.
  intros d Hd He. pose proof (digits2_pos_bounds M) as HM. fold d in HM.
  remember (d - 53) as n eqn:Hn. destruct n as [|np|np]; try lia.
  assert (Hpow : 0 < 2 ^ Z.pos np) by (apply Z.pow_pos_nonneg; lia).
  set (mrs1 := SpecFloat.iter_pos shr_1 np
                 {| shr_m := Z.pos M; shr_r := false; shr_s := false |}).
  assert (Hshr : shr_fexp prec emax (Z.pos M) E loc_Exact
                 = (mrs1, E + Z.pos np)).
  { unfold shr_fexp. cbn [Zdigits2]. fold d. rewrite fexp_normal by lia.
    replace (d + E - 53 - E) with (Z.pos np) by lia. reflexivity. }
  assert (Hq : shr_m mrs1 = Z.pos M / 2 ^ Z.pos np).
  { unfold mrs1. rewrite iter_shr_1_m; cbn [shr_m]; [reflexivity|lia]. }
  assert (Hlo : 2 ^ (d - 1) = 2 ^ 52 * 2 ^ Z.pos np).
  { rewrite <- Z.pow_add_r by lia. f_equal. lia. }
  assert (Hhi : 2 ^ d = 2 ^ 53 * 2 ^ Z.pos np).
  { rewrite <- Z.pow_add_r by lia. f_equal. lia. }
  set (q := shr_m mrs1) in *.
  assert (Hq52 : 2 ^ 52 <= q).
  { rewrite Hq. apply Z.div_le_lower_bound; lia. }
  assert (Hq53 : q < 2 ^ 53).
  { rewrite Hq. apply Z.div_lt_upper_bound; lia. }
  assert (HqM : q * 2 ^ Z.pos np <= Z.pos M < (q + 1) * 2 ^ Z.pos np).
  { rewrite Hq. split.
    - rewrite Z.mul_comm. apply Z.mul_div_le. lia.
    - rewrite Z.mul_comm. apply Z.mul_succ_div_gt. lia. }
  unfold binary_round_aux. rewrite Hshr. fold q.
  set (m1 := round_nearest_even q (loc_of_shr_record mrs1)).
  assert (Hm1 : m1 = q \/ m1 = q + 1) by apply round_nearest_even_step.
  destruct (renormalise m1 (E + Z.pos np)) as (m' & e' & -> & Hd' & He' & Hv);
    [lia|lia|].
  exists m', e'. split; [reflexivity|split; [exact Hd'|split; [lia|]]].
  replace (e' - E) with ((e' - (E + Z.pos np)) + Z.pos np) by lia.
  rewrite Z.pow_add_r, Z.mul_assoc, Hv by lia. nia.
Qed.

Lemma iter_xO_digits (p k : positive) :
  digits2_pos (Pos.iter xO p k) = (digits2_pos p + k)%positive.
Proof.
  induction k as [|k IH] using Pos.peano_ind.
  - cbn. lia.
  - rewrite Pos.iter_succ. cbn [digits2_pos]. rewrite IH. lia.
Qed.

Lemma iter_xO_value (p k : positive) :
  Z.pos (Pos.iter xO p k) = Z.pos p * 2 ^ Z.pos k.
Proof.
  induction k as [|k IH] using Pos.peano_ind.
  - cbn. lia.
  - rewrite Pos.iter_succ, Pos2Z.inj_xO, IH, Pos2Z.inj_succ, Z.pow_succ_r by lia.
    lia.
Qed.

Lemma valid_normal (m : positive) (e : Z) :
  Z.pos (digits2_pos m) = 53 -> -1074 <= e <= 971 ->
  FloatAxioms.valid_binary (S754_finite false m e) = true.
Proof.
  intros Hd He. unfold FloatAxioms.valid_binary, valid_binary, bounded,
    canonical_mantissa.
  rewrite Hd, fexp_normal by lia. apply andb_true_intro. split.
  - apply Z.eqb_eq. lia.
  - apply Z.leb_le. unfold emax, prec. lia.
Qed.

(** [float64(b)] is exact for an [int] of at most 53 bits. *)
Lemma float64_of_int_exact (b : Z) :
  0 < b < 2 ^ 53 ->
  exists mb eb,
    Prim2SF (float64_of_int b) = S754_finite false mb eb /\
    Z.pos (digits2_pos mb) = 53 /\
    -52 <= eb <= 0 /\
    Z.pos mb = b * 2 ^ (- eb).
Proof.
  intros Hb. destruct b as [|pb|pb]; try lia.
  pose proof (digits2_pos_bounds pb) as Hpb.
  set (d := Z.pos (digits2_pos pb)) in *.
  assert (Hd : 1 <= d <= 53).
  { split; [subst d; lia|].
    destruct (Z.le_gt_cases d 53) as [|Hgt]; [assumption|].
    assert (2 ^ 53 <= 2 ^ (d - 1)) by (apply Z.pow_le_mono_r; lia). lia. }
  unfold float64_of_int, binary_normalize, binary_round, shl_align.
  fold d. rewrite fexp_normal by lia.
  replace (d + 0 - 53 - 0) with (d - 53) by lia.
  replace (d + 0 - 53) with (d - 53) by lia.
  destruct (d - 53) as [|k|k] eqn:Hk; try lia.
  - exists pb, 0. rewrite binary_round_aux_exact by (fold d; lia).
    rewrite Prim2SF_SF2Prim by (apply valid_normal; fold d; lia).
    repeat split; fold d; lia.
  - assert (Hdk : Z.pos (digits2_pos (Pos.iter xO pb k)) = 53).
    { rewrite iter_xO_digits, Pos2Z.inj_add. fold d. lia. }
    exists (Pos.iter xO pb k), (Z.neg k).
    rewrite binary_round_aux_exact by lia.
    rewrite Prim2SF_SF2Prim by (apply valid_normal; lia).
    repeat split; try lia. rewrite iter_xO_value. reflexivity.
Qed.

(** The product of two normal numbers of moderate exponents. *)
Lemma mul_bounds (x c : float) (mb mc : positive) (eb ec : Z) :
  Prim2SF x = S754_finite false mb eb ->
  Prim2SF c = S754_finite false mc ec ->
  Z.pos (digits2_pos mb) = 53 -> Z.pos (digits2_pos mc) = 53 ->
  -500 <= eb + ec <= 500 ->
  exists m' e',
    Prim2SF (x * c)%float = S754_finite false m' e' /\
    Z.pos (digits2_pos m') = 53 /\
    eb + ec + 52 <= e' <= eb + ec + 54 /\
    Z.pos mb * Z.pos mc - 2 ^ 53 < Z.pos m' * 2 ^ (e' - (eb + ec))
      <= Z.pos mb * Z.pos mc + 2 ^ 53.
Proof.
  intros Hx Hc Hdb Hdc He.
  pose proof (digits2_pos_bounds mb) as Hb. rewrite Hdb in Hb.
  pose proof (digits2_pos_bounds mc) as Hm. rewrite Hdc in Hm.
  replace (53 - 1) with 52 in Hb, Hm by lia.
  pose proof (digits2_pos_bounds (mb * mc)) as HP.
  set (d := Z.pos (digits2_pos (mb * mc))) in *.
  rewrite Pos2Z.inj_mul in HP.
  assert (HP' : 2 ^ 104 <= Z.pos mb * Z.pos mc < 2 ^ 106).
  { replace (2 ^ 104) with (2 ^ 52 * 2 ^ 52) by reflexivity.
    replace (2 ^ 106) with (2 ^ 53 * 2 ^ 53) by reflexivity. nia. }
  assert (Hd : 105 <= d <= 106).
  { assert (0 < d) by (subst d; lia). split.
    - destruct (Z.le_gt_cases 105 d) as [|Hlt]; [assumption|].
      assert (2 ^ d <= 2 ^ 104) by (apply Z.pow_le_mono_r; lia). lia.
    - destruct (Z.le_gt_cases d 106) as [|Hgt]; [assumption|].
      assert (2 ^ 106 <= 2 ^ (d - 1)) by (apply Z.pow_le_mono_r; lia). lia. }
  assert (Hn : 2 ^ (d - 53) <= 2 ^ 53) by (apply Z.pow_le_mono_r; lia).
  destruct (binary_round_aux_bounds (mb * mc) (eb + ec))
    as (m' & e' & Hr & Hd' & He' & Hv); fold d; try lia.
  fold d in He', Hv. rewrite Pos2Z.inj_mul in Hv.
  exists m', e'. rewrite mul_spec, Hx, Hc. unfold SF64mul, SFmul.
  cbn [xorb]. rewrite Hr. repeat split; try lia; exact Hd'.
Qed.

Lemma truncate_scaled (m : positive) (e E : Z) :
  E <= e -> E <= 0 ->
  truncate m e = (Z.pos m * 2 ^ (e - E)) / 2 ^ (- E).
Proof.
  intros HE HE0. unfold truncate.
  assert (0 < 2 ^ (- E)) by (apply Z.pow_pos_nonneg; lia).
  destruct (Z.leb_spec 0 e) as [He|He].
  - replace (e - E) with (e + - E) by lia.
    rewrite Z.pow_add_r, Z.mul_assoc, Z.div_mul by lia. reflexivity.
  - assert (0 < 2 ^ (e - E)) by (apply Z.pow_pos_nonneg; lia).
    replace (- E) with ((- e) + (e - E)) by lia.
    rewrite Z.pow_add_r by lia.
    rewrite Z.div_mul_cancel_r by lia. reflexivity.
Qed.

Lemma truncate_mono (m1 m2 : positive) (e1 e2 E : Z) :
  E <= e1 -> E <= e2 -> E <= 0 ->
  Z.pos m1 * 2 ^ (e1 - E) <= Z.pos m2 * 2 ^ (e2 - E) ->
  truncate m1 e1 <= truncate m2 e2.
Proof.
  intros H1 H2 H0 Hle.
  rewrite (truncate_scaled m1 e1 E), (truncate_scaled m2 e2 E) by assumption.
  apply Z.div_le_mono; [apply Z.pow_pos_nonneg; lia|exact Hle].
Qed.

Lemma truncate_range (m : positive) (e : Z) :
  Z.pos (digits2_pos m) = 53 -> e <= 9 -> 0 <= truncate m e < 2 ^ 62.
Proof.
  intros Hd He. pose proof (digits2_pos_bounds m) as Hm. rewrite Hd in Hm.
  unfold truncate. destruct (Z.leb_spec 0 e) as [H0|H0].
  - assert (0 < 2 ^ e) by (apply Z.pow_pos_nonneg; lia).
    assert (2 ^ e <= 2 ^ 9) by (apply Z.pow_le_mono_r; lia).
    replace (2 ^ 62) with (2 ^ 53 * 2 ^ 9) by reflexivity. nia.
  - assert (0 < 2 ^ (- e)) by (apply Z.pow_pos_nonneg; lia). split.
    + apply Z.div_pos; lia.
    + apply Z.le_lt_trans with (Z.pos m); [|lia].
      apply Z.div_le_upper_bound; [lia|]. nia.
Qed.

Lemma int_of_float64_finite (f : float) (m : positive) (e : Z) :
  Prim2SF f = S754_finite false m e ->
  Z.pos (digits2_pos m) = 53 -> e <= 9 ->
  int_of_float64 f = truncate m e.
Proof.
  intros Hf Hd He. unfold int_of_float64. rewrite Hf. cbv zeta.
  fold (truncate m e).
  pose proof (truncate_range m e Hd He) as Hr.
  replace (minInt64 <=? truncate m e) with true
    by (symmetry; apply Z.leb_le; unfold minInt64; lia).
  replace (truncate m e <=? maxInt64) with true; [reflexivity|].
  symmetry. apply Z.leb_le. unfold maxInt64.
  replace (2 ^ 63) with (2 * 2 ^ 62) by reflexivity. lia.
Qed.

(** ** The bounds of the strength *)

(** The bounds [int(float64(b) * 0.85)] and [int(float64(b) * 1.15)]
    lie on either side of [b]. *)
Lemma strength_bounds (b : Z) :
  0 <= b < 2 ^ 53 -> minStrength b <= b <= maxStrength b.
Proof.
  intros Hb. destruct (Z.eq_dec b 0) as [->|Hne]; [split; discriminate|].
  destruct (float64_of_int_exact b) as (mb & eb & Hfb & Hdb & Heb & Hvb);
    [lia|].
  pose proof (digits2_pos_bounds mb) as Hmb. rewrite Hdb in Hmb.
  replace (53 - 1) with 52 in Hmb by lia.
  assert (Htb : truncate mb eb = b).
  { unfold truncate. destruct (Z.leb_spec 0 eb).
    - replace eb with 0 in * by lia. simpl in *. lia.
    - rewrite Hvb. apply Z.div_mul.
      apply Z.neq_sym, Z.lt_neq, Z.pow_pos_nonneg; lia. }
  assert (H85 : Prim2SF 0.85%float
                = S754_finite false 7656119366529843 (-53)) by reflexivity.
  assert (H115 : Prim2SF 1.15%float
                 = S754_finite false 5179139571476070 (-52)) by reflexivity.
  split.
  - destruct (mul_bounds _ _ _ _ _ _ Hfb H85 Hdb eq_refl)
      as (m' & e' & Hr & Hd' & He' & Hv); [lia|].
    unfold minStrength. rewrite (int_of_float64_finite _ m' e' Hr Hd') by lia.
    rewrite <- Htb.
    apply (truncate_mono m' mb e' eb (eb + -53)); try lia.
    replace (eb - (eb + -53)) with 53 by lia. lia.
  - destruct (mul_bounds _ _ _ _ _ _ Hfb H115 Hdb eq_refl)
      as (m' & e' & Hr & Hd' & He' & Hv); [lia|].
    unfold maxStrength. rewrite (int_of_float64_finite _ m' e' Hr Hd') by lia.
    rewrite <- Htb at 1.
    apply (truncate_mono mb m' eb e' (eb + -52)); try lia.
    replace (eb - (eb + -52)) with 52 by lia. lia.
Qed.

(** For a negative base strength the two bounds are the wrong way
    round, and no strength lies between them. *)
Remark strength_bounds_negative_base :
  minStrength (-100) = -85 /\ maxStrength (-100) = -114.
Proof. split; reflexivity. Qed.

(** ** Arithmetic of [int] *)

Lemma wrap_spec a : exists k, wrap a = a + k * 2 ^ 64.
Proof.
  exists (- ((a + 2 ^ 63) / 2 ^ 64)). unfold wrap.
  rewrite Z.mod_eq by lia. lia.
Qed.

Lemma wrap_eq a b k : a = b + k * 2 ^ 64 -> wrap a = wrap b.
Proof.
  intros ->. unfold wrap.
  replace (b + k * 2 ^ 64 + 2 ^ 63) with (b + 2 ^ 63 + k * 2 ^ 64) by lia.
  rewrite Z.mod_add by lia. reflexivity.
Qed.

Lemma wrap_is_int a : is_int (wrap a).
Proof.
  unfold is_int, wrap, minInt64, maxInt64.
  pose proof (Z.mod_pos_bound (a + 2 ^ 63) (2 ^ 64)). lia.
Qed.

Lemma wrap_congr a b : (a - b) mod 2 ^ 64 = 0 -> wrap a = wrap b.
Proof.
  intros Hm. apply (wrap_eq a b ((a - b) / 2 ^ 64)).
  pose proof (Z.div_mod (a - b) (2 ^ 64)). lia.
Qed.

(** Equations between [int] expressions: the two sides agree when
    their exact values differ by a multiple of 2^64. *)
Ltac int_eq :=
  unfold int_add, int_sub, int_mul;
  apply wrap_congr;
  repeat match goal with
  | |- context [wrap ?a] =>
      let k := fresh "k" in let E := fresh "E" in
      destruct (wrap_spec a) as [k E]; rewrite E; clear E
  end;
  Z.div_mod_to_equations; lia.

Lemma updateTeamStrength_clamped t :
  0 <= BaseStrength t < 2 ^ 53 -> strengthInBounds (updateTeamStrength t).
Proof.
  intros Hb. unfold strengthInBounds, updateTeamStrength.
  cbn [CurrentStrength BaseStrength set_CurrentStrength].
  pose proof (strength_bounds _ Hb).
  destruct (Z.ltb_spec
    (int_of_float64 (float64_of_int (BaseStrength t) * formLoop 0 (Form t) 1))
    (minStrength (BaseStrength t))); [lia|].
  rewrite Z.gtb_ltb.
  destruct (Z.ltb_spec (maxStrength (BaseStrength t))
    (int_of_float64 (float64_of_int (BaseStrength t) * formLoop 0 (Form t) 1)));
    lia.
Qed.

(** [updateTeamStrength], for a base strength 0 <= b < 2^53 and whatever
    the form holds: the strength it leaves lies between
    [int(float64(b) * 0.85)] and [int(float64(b) * 1.15)], the base
    strength lies between the two as well, and no other field changes. *)
Theorem updateTeamStrength_in_bounds t :
  0 <= BaseStrength t < 2 ^ 53 ->
  strengthInBounds (updateTeamStrength t) /\
  minStrength (BaseStrength t) <= BaseStrength t <= maxStrength (BaseStrength t) /\
  Name (updateTeamStrength t) = Name t /\
  stats (updateTeamStrength t) = stats t /\
  BaseStrength (updateTeamStrength t) = BaseStrength t /\
  Form (updateTeamStrength t) = Form t.
Proof.
  intros Hb. split; [exact (updateTeamStrength_clamped t Hb)|].
  split; [exact (strength_bounds _ Hb)|]. repeat split.
Qed.

Lemma updateTeamStrength_in_bounds_witness :
  strengthInBounds (updateTeamStrength arsenalAfterWin) /\
  minStrength (BaseStrength arsenalAfterWin) <= BaseStrength arsenalAfterWin
    <= maxStrength (BaseStrength arsenalAfterWin) /\
  Name (updateTeamStrength arsenalAfterWin) = Name arsenalAfterWin /\
  stats (updateTeamStrength arsenalAfterWin) = stats arsenalAfterWin /\
  BaseStrength (updateTeamStrength arsenalAfterWin) = BaseStrength arsenalAfterWin /\
  Form (updateTeamStrength arsenalAfterWin) = Form arsenalAfterWin.
Proof.
  apply (updateTeamStrength_in_bounds arsenalAfterWin). simpl. lia.
Defined.

Lemma UpdateTeamStats_consistent t gf ga t' :
  0 <= BaseStrength t < 2 ^ 53 ->
  Points t = int_add (int_mul 3 (Won t)) (Drawn t) ->
  UpdateTeamStats t gf ga = Some t' -> consistent t'.
Proof.
  intros Hb HP. unfold UpdateTeamStats.
  case_bool_decide; [discriminate|].
  assert (Hs : forall u, BaseStrength u = BaseStrength t ->
                 strengthInBounds (updateTeamStrength u)).
  { intros u Hu. apply updateTeamStrength_clamped. rewrite Hu. exact Hb. }
  destruct (gf >? ga); [|destruct (gf =? ga)]; intros [= <-];
    (split; [reflexivity|split; [reflexivity|split; [|apply Hs; reflexivity]]]);
    cbn [Points Won Drawn updateTeamStrength set_CurrentStrength]; rewrite ?HP.
  - int_eq.
  - int_eq.
  - reflexivity.
Qed.

Lemma ReverseTeamStats_consistent t gf ga :
  consistent t -> consistent (ReverseTeamStats t gf ga).
Proof.
  intros (_ & _ & HP & Hs). unfold ReverseTeamStats.
  destruct (gf >? ga); [|destruct (gf =? ga)];
    (split; [reflexivity|split; [reflexivity|split; [|exact Hs]]]);
    cbn [Points Won Drawn]; rewrite ?HP.
  - int_eq.
  - int_eq.
  - reflexivity.
Qed.

Lemma ResetTeamStats_consistent t :
  strengthInBounds t -> consistent (ResetTeamStats t).
Proof. intros Hs. repeat split; apply Hs. Qed.

Lemma teamState_BaseStrength team t :
  teamState team t -> BaseStrength t = plBaseStrength team.
Proof.
  induction 1 as [t Hnew|t gf ga t' _ IH Hu|t gf ga _ IH|t _ IH|t _ IH].
  - unfold newLeagueTeam in Hnew.
    destruct (fillForm 0 (plForm team) emptyForm); [|discriminate].
    injection Hnew as <-. reflexivity.
  - unfold UpdateTeamStats in Hu. case_bool_decide; [discriminate|].
    destruct (gf >? ga); [|destruct (gf =? ga)]; injection Hu as <-; exact IH.
  - unfold ReverseTeamStats.
    destruct (gf >? ga); [|destruct (gf =? ga)]; exact IH.
  - exact IH.
  - exact IH.
Qed.

(** Every team of the program keeps the invariant: the team that
    [NewLeague] builds from a selected team of base strength
    0 <= b < 2^53 has it, and applying a match result, reversing one,
    resetting the statistics and copying the team for a Monte Carlo
    trial all keep it. *)
Theorem teamState_consistent team t :
  0 <= plBaseStrength team < 2 ^ 53 ->
  teamState team t -> consistent t.
Proof.
  intros Hb Hst.
  induction Hst as [t Hnew|t gf ga t' Hst IH Hu|t gf ga _ IH|t _ IH|t _ IH].
  - unfold newLeagueTeam in Hnew.
    destruct (fillForm 0 (plForm team) emptyForm); [|discriminate].
    injection Hnew as <-. repeat split; apply (strength_bounds _ Hb).
  - apply (UpdateTeamStats_consistent t gf ga); [|apply IH|exact Hu].
    rewrite (teamState_BaseStrength team t Hst). exact Hb.
  - apply ReverseTeamStats_consistent. exact IH.
  - apply ResetTeamStats_consistent. apply IH.
  - exact IH.
Qed.

Lemma teamState_consistent_witness : consistent arsenalAfterWin.
Proof.
  apply (teamState_consistent arsenalSelected).
  - simpl. lia.
  - apply (updated arsenalSelected
             (mkTeam "Arsenal" 0 0 0 0 0 0 0 0 82 82 emptyForm) 2 1).
    + apply created. reflexivity.
    + reflexivity.
Defined.

(** ** Undoing a result *)

Lemma int_add_sub a b : is_int a -> int_sub (int_add a b) b = a.
Proof.
  intros Ha. rewrite <- (wrap_small a) at 2 by exact Ha. int_eq.
Qed.

(** [ReverseTeamStats] undoes what [UpdateTeamStats] did to the eight
    counters, for a team whose played and goal-difference counters agree
    with the others; the form keeps the result that was undone, and the
    strength computed from it. *)
Theorem ReverseTeamStats_undoes_UpdateTeamStats t gf ga t' :
  intFields t ->
  Played t = int_add (int_add (Won t) (Drawn t)) (Lost t) ->
  GoalDifference t = int_sub (GoalsFor t) (GoalsAgainst t) ->
  UpdateTeamStats t gf ga = Some t' ->
  stats (ReverseTeamStats t' gf ga) = stats t /\
  Form (ReverseTeamStats t' gf ga) = Form t' /\
  CurrentStrength (ReverseTeamStats t' gf ga) = CurrentStrength t'.
Proof.
  intros Hint HP HGD Hu.
  unfold intFields in Hint. rewrite !Forall_cons in Hint.
  destruct Hint as (_ & HW & HD & HL & HGF & HGA & _ & HPt & _).
  unfold UpdateTeamStats in Hu. case_bool_decide; [discriminate|].
  unfold ReverseTeamStats, stats.
  destruct (gf >? ga); [|destruct (gf =? ga)]; injection Hu as <-;
    cbn [Played Won Drawn Lost GoalsFor GoalsAgainst GoalDifference Points
         Form CurrentStrength updateTeamStrength set_CurrentStrength];
    rewrite !int_add_sub by assumption; rewrite <- HP, <- HGD; auto.
Qed.

Lemma ReverseTeamStats_undoes_witness :
  stats (ReverseTeamStats arsenalAfterWin 2 1)
    = stats (mkTeam "Arsenal" 0 0 0 0 0 0 0 0 82 82 emptyForm) /\
  Form (ReverseTeamStats arsenalAfterWin 2 1) = Form arsenalAfterWin /\
  CurrentStrength (ReverseTeamStats arsenalAfterWin 2 1)
    = CurrentStrength arsenalAfterWin.
Proof.
  apply (ReverseTeamStats_undoes_UpdateTeamStats
           (mkTeam "Arsenal" 0 0 0 0 0 0 0 0 82 82 emptyForm) 2 1).
  - unfold intFields. repeat constructor; vm_compute; discriminate.
  - reflexivity.
  - reflexivity.
  - reflexivity.
Defined.

(** * Championship probabilities: the decided season *)

(** Maps filled by a loop over the teams, one entry per name. *)
Lemma fill_lookup_other {V} (f : Team -> V) ts (m0 : gmap string V) k :
  k ∉ Name <$> ts ->
  fold_left (fun m t => <[Name t := f t]> m) ts m0 !! k = m0 !! k.
Proof.
  revert m0. induction ts as [|t ts IH]; intros m0 Hk; [reflexivity|].
  simpl in *. rewrite not_elem_of_cons in Hk. destruct Hk as [Hne Hk].
  rewrite IH by exact Hk. apply lookup_insert_ne. congruence.
Qed.

Lemma fill_lookup {V} (f : Team -> V) ts (m0 : gmap string V) t :
  NoDup (Name <$> ts) -> t ∈ ts ->
  fold_left (fun m t => <[Name t := f t]> m) ts m0 !! Name t = Some (f t).
Proof.
  revert m0. induction ts as [|x ts IH]; intros m0 Hnd Hin.
  - apply elem_of_nil in Hin. contradiction.
  - simpl in *. apply NoDup_cons in Hnd as [Hx Hnd].
    apply elem_of_cons in Hin as [->|Hin].
    + rewrite fill_lookup_other by exact Hx. apply lookup_insert_eq.
    + apply IH; assumption.
Qed.

Lemma mapM'_deref_Some `{Env} ps w ts :
  pointTo w ps ts -> mapM' deref ps w = Some (ts, w).
Proof.
  induction 1 as [|p t ps ts Hp _ IH]; [reflexivity|].
  simpl. apply bind_Some. exists t, w. split; [apply deref_Some; eauto|].
  apply bind_Some. exists ts, w. split; [exact IH|reflexivity].
Qed.

Section Decided.
Context `{Env} {X : Type} `{Num X}.

Lemma leaderUnreachable_true leader others :
  NoDup (Name <$> leader :: others) ->
  (forall t, t ∈ others -> maxAchievable t < Points leader) ->
  leaderUnreachable (leader :: others) = true.
Proof.
  intros Hnd Hmax. unfold leaderUnreachable.
  apply forallb_forall. intros t Hin. rewrite <- list_elem_of_In in Hin.
  unfold getInt, maxPointsMap, currentPointsMap.
  rewrite (fill_lookup (fun t => int_add (Points t) (int_mul (int_sub 18 (Played t)) 3)))
    by (first [exact Hnd | right; exact Hin]).
  rewrite (fill_lookup Points) by (first [exact Hnd | left]).
  simpl. specialize (Hmax t Hin). unfold maxAchievable in Hmax.
  apply negb_true_iff. rewrite Z.geb_leb. apply Z.leb_gt. lia.
Qed.

Lemma leaderHasWon_fill leader others :
  leaderHasWon (leader :: others) =
  fold_left (fun m t => <[Name t := if String.eqb (Name t) (Name leader)
                                    then fromInt 100 else fromInt 0]> m)
            (leader :: others) (∅ : gmap string X).
Proof.
  unfold leaderHasWon. generalize (∅ : gmap string X).
  generalize (leader :: others) as ts.
  induction ts as [|t ts IH]; intros m; [reflexivity|].
  simpl. rewrite <- IH. destruct (String.eqb (Name t) (Name leader)); reflexivity.
Qed.

(** The early exit. While the season is not over, when the
    first team of the list has more points than any other team can still
    reach, the engine returns 100 for it and 0 for every other team,
    whatever the number of trials asked for, and changes nothing. (The
    first team of the list is the points leader after the table sort.) *)
Theorem certain_champion simulations (w : World) leader others :
  pointTo w (Teams (league w)) (leader :: others) ->
  NoDup (Name <$> leader :: others) ->
  LWeek (league w) <= 18 ->
  (forall t, t ∈ others -> maxAchievable t < Points leader) ->
  exists counts : gmap string X,
    ChampionshipProbabilities simulations w = Some (counts, w) /\
    counts !! Name leader = Some (fromInt 100) /\
    (forall t, t ∈ others -> counts !! Name t = Some (fromInt 0)) /\
    (forall k, k ∉ Name <$> leader :: others -> counts !! k = None).
Proof.
  intros Hpt Hnd Hweek Hmax.
  exists (leaderHasWon (leader :: others)). split.
  - unfold ChampionshipProbabilities. apply bind_Some.
    exists (league w), w. split; [reflexivity|].
    case_bool_decide as Hlen.
    { apply Forall2_length in Hpt. rewrite Hlen in Hpt. discriminate. }
    apply bind_Some. exists (leader :: others), w.
    split; [apply mapM'_deref_Some; exact Hpt|].
    destruct (LWeek (league w) >? 18) eqn:Hgt; [apply Z.gtb_lt in Hgt; lia|].
    rewrite leaderUnreachable_true by assumption. reflexivity.
  - rewrite leaderHasWon_fill.
    split; [|split].
    + rewrite (fill_lookup (fun t => if String.eqb (Name t) (Name leader)
                                     then fromInt 100 else fromInt 0))
        by (first [exact Hnd | left]).
      rewrite String.eqb_refl. reflexivity.
    + intros t Hin.
      rewrite (fill_lookup (fun t => if String.eqb (Name t) (Name leader)
                                     then fromInt 100 else fromInt 0))
        by (first [exact Hnd | right; exact Hin]).
      destruct (String.eqb_spec (Name t) (Name leader)) as [Heq|Hne]; [|reflexivity].
      exfalso. simpl in Hnd. apply NoDup_cons in Hnd as [Hnotin _].
      apply Hnotin. rewrite <- Heq. apply list_elem_of_fmap_2. exact Hin.
    + intros k Hk. rewrite fill_lookup_other by exact Hk. apply lookup_empty.
Qed.

End Decided.

(** With the leader second in the list and no trial asked for, the
    engine answers 0 for every team, the leader included: Arsenal's 51
    points are beyond the 23, 18 and 13 the others can reach. *)
Lemma certain_champion_needs_leader_first :
  (fun t => (Name t, Points t, maxAchievable t)) <$> heap decidedWorld
    = [ ("Liverpool"%string, 20, 23); ("Arsenal"%string, 51, 54);
        ("Chelsea"%string, 15, 18); ("Everton"%string, 10, 13) ] /\
  Teams (league decidedWorld) = [0; 1; 2; 3]%nat /\
  LWeek (league decidedWorld) = 18 /\
  (fun r => (fun k => r.1 !! k) <$> ["Liverpool"; "Arsenal"; "Chelsea"; "Everton"]%string)
    <$> ChampionshipProbabilities (X := float) 0 decidedWorld
  = Some [Some 0%float; Some 0%float; Some 0%float; Some 0%float].
Proof.
  split; [|split; [|split]].
  - vm_compute. reflexivity.
  - vm_compute. reflexivity.
  - vm_compute. reflexivity.
  - vm_compute. reflexivity.
Qed.

(** The same league in table order: 100 for Arsenal, 0 for the others. *)
Lemma certain_champion_witness :
  exists counts : gmap string float,
    ChampionshipProbabilities 10000 decidedWorldSorted
      = Some (counts, decidedWorldSorted) /\
    counts !! Name arsenal = Some (fromInt 100) /\
    (forall t, t ∈ [liverpool; chelsea; everton] ->
       counts !! Name t = Some (fromInt 0)) /\
    (forall k, k ∉ Name <$> arsenal :: [liverpool; chelsea; everton] ->
       counts !! k = None).
Proof.
  apply (certain_champion (X := float) 10000 decidedWorldSorted
           arsenal [liverpool; chelsea; everton]).
  - repeat constructor.
  - simpl. repeat (apply NoDup_cons; split;
                   [rewrite ?elem_of_cons, elem_of_nil; intuition discriminate|]).
    apply NoDup_nil_2.
  - simpl. lia.
  - intros t Hin. rewrite !elem_of_cons, elem_of_nil in Hin.
    destruct Hin as [->|[->|[->|[]]]]; vm_compute; reflexivity.
Defined.

(** * Championship probabilities: the Monte Carlo percentages *)

Lemma total_empty : total ∅ = Q2Qc 0.
Proof. apply map_fold_empty. Qed.

Lemma total_insert_fresh (m : gmap string Qc) k v :
  m !! k = None -> total (<[k := v]> m) = (v + total m)%Qc.
Proof.
  intros Hk. unfold total.
  apply (map_fold_insert_L (fun _ v acc => (v + acc)%Qc)); [|exact Hk].
  intros j1 j2 z1 z2 y _ _ _. ring.
Qed.

Lemma total_insert (m : gmap string Qc) k v :
  total (<[k := v]> m) = (total m - default (Q2Qc 0) (m !! k) + v)%Qc.
Proof.
  destruct (m !! k) as [old|] eqn:Hk; simpl.
  - rewrite <- (insert_delete_eq m k v).
    rewrite <- (insert_delete_id m k old Hk) at 2.
    rewrite !total_insert_fresh by apply lookup_delete_eq. ring.
  - rewrite total_insert_fresh by exact Hk. ring.
Qed.

Lemma total_scale (f : Qc) (m : gmap string Qc) :
  total ((fun c => (c * f)%Qc) <$> m) = (total m * f)%Qc.
Proof.
  induction m as [|k v m Hk IH] using map_ind.
  - rewrite fmap_empty, total_empty. ring.
  - rewrite fmap_insert, !total_insert_fresh; [|exact Hk|].
    + rewrite IH. ring.
    + rewrite lookup_fmap, Hk. reflexivity.
Qed.

Lemma Z2Qc_plus a b :
  Q2Qc (inject_Z (a + b)) = (Q2Qc (inject_Z a) + Q2Qc (inject_Z b))%Qc.
Proof.
  unfold Qcplus. apply Q2Qc_eq_iff. cbn [this Q2Qc].
  rewrite inject_Z_plus.
  apply Qplus_comp; apply Qeq_sym, Qred_correct.
Qed.

Lemma Z2Qc_nonzero z : z <> 0 -> Q2Qc (inject_Z z) <> Q2Qc 0.
Proof.
  intros Hz Heq. apply Q2Qc_eq_iff in Heq. unfold Qeq in Heq. simpl in Heq. lia.
Qed.

(** Every champion of a trial is credited the same share. *)
Lemma total_credit_shares (share : Qc) names (counts : gmap string Qc) :
  total (fold_left
           (fun counts name => <[name := (getNum counts name + share)%Qc]> counts)
           names counts)
  = (total counts + Q2Qc (inject_Z (Z.of_nat (length names))) * share)%Qc.
Proof.
  revert counts. induction names as [|name names IH]; intros counts.
  - replace (Q2Qc (inject_Z (Z.of_nat (length (@nil string))))) with (Q2Qc 0)
      by reflexivity.
    cbn [fold_left]. ring.
  - cbn [fold_left]. rewrite IH, total_insert. unfold getNum. cbn [fromInt exact_Num].
    replace (Q2Qc (inject_Z 0)) with (Q2Qc 0) by reflexivity.
    cbn [length]. rewrite Nat2Z.inj_succ. unfold Z.succ. rewrite Z2Qc_plus.
    replace (Q2Qc (inject_Z 1)) with (Q2Qc 1) by reflexivity. ring.
Qed.

(** A valid trial hands out exactly one unit of credit. *)
Lemma total_credit champions (counts : gmap string Qc) :
  champions <> [] -> total (credit champions counts) = (total counts + Q2Qc 1)%Qc.
Proof.
  intros Hne. unfold credit. cbn [fromInt add div exact_Num].
  rewrite (total_credit_shares
             (Q2Qc (inject_Z 1) / Q2Qc (inject_Z (Z.of_nat (length champions))))%Qc).
  replace (Q2Qc (inject_Z 1)) with (Q2Qc 1) by reflexivity.
  assert (Hn : Q2Qc (inject_Z (Z.of_nat (length champions))) <> Q2Qc 0).
  { apply Z2Qc_nonzero. destruct champions; [contradiction|]. simpl. lia. }
  field. exact Hn.
Qed.

Section MonteCarlo.
Context `{Env}.

(** The credit handed out is the number of valid trials. *)
Lemma trials_total n : forall l (counts : gmap string Qc) valid w counts' valid' w',
  trials n l counts valid w = Some ((counts', valid'), w') ->
  0 <= valid -> valid + Z.of_nat n <= maxInt64 ->
  total counts = Q2Qc (inject_Z valid) ->
  total counts' = Q2Qc (inject_Z valid') /\ valid <= valid' <= valid + Z.of_nat n.
Proof.
  induction n as [|n IH]; intros l counts valid w counts' valid' w' Hrun Hpos Hmax Htot.
  - apply ret_Some in Hrun as [= <- <- _]. split; [exact Htot|lia].
  - cbn [trials] in Hrun. apply bind_Some in Hrun as (champions & w1 & Htrial & Hrest).
    destruct champions as [|c cs].
    + apply IH in Hrest; [|lia|lia|exact Htot]. split; [tauto|lia].
    + assert (Hadd : int_add valid 1 = valid + 1).
      { unfold int_add. apply wrap_small. unfold minInt64, maxInt64 in *. lia. }
      rewrite Hadd in Hrest. apply IH in Hrest; [split; [tauto|lia]|lia|lia|].
      rewrite total_credit by discriminate. rewrite Htot, Z2Qc_plus. reflexivity.
Qed.

(** In exact arithmetic the percentages the Monte Carlo branch
    returns add up to exactly 100 as soon as one trial is valid: each
    valid trial hands out one unit of credit among its champions, and
    the counts are divided by the number of valid trials. *)
Theorem monteCarlo_percentages_sum_to_100 simulations (w : World) ts
    (percent : gmap string Qc) w' counts valid w1 :
  simulations <= maxInt64 ->
  pointTo w (Teams (league w)) ts -> ts <> [] ->
  LWeek (league w) <= 18 -> LWeek (league w) <> 0 ->
  leaderUnreachable ts = false ->
  ChampionshipProbabilities simulations w = Some (percent, w') ->
  trials (X := Qc) (Z.to_nat simulations) (league w) ∅ 0 w = Some ((counts, valid), w1) ->
  valid > 0 ->
  total percent = Q2Qc 100.
Proof.
  intros Hsim Hpt Hne Hweek Hweek0 Hlead Hrun Htrials Hvalid.
  unfold ChampionshipProbabilities in Hrun.
  apply bind_Some in Hrun as (l & w0 & [= <- <-] & Hrun).
  case_bool_decide as Hlen.
  { apply Forall2_length in Hpt. rewrite Hlen in Hpt. destruct ts; [contradiction|discriminate]. }
  apply bind_Some in Hrun as (ts' & w0 & Hderef & Hrun).
  rewrite (mapM'_deref_Some _ _ _ Hpt) in Hderef. injection Hderef as <- <-.
  destruct (LWeek (league w) >? 18) eqn:Hgt; [apply Z.gtb_lt in Hgt; lia|].
  rewrite Hlead in Hrun.
  destruct (LWeek (league w) =? 0) eqn:Heq0; [apply Z.eqb_eq in Heq0; contradiction|].
  unfold monteCarlo in Hrun. apply bind_Some in Hrun as ([counts0 valid0] & w2 & Htr & Hrun).
  rewrite Htrials in Htr. injection Htr as <- <- <-.
  destruct (valid >? 0) eqn:Hv; [|rewrite Z.gtb_ltb in Hv; apply Z.ltb_ge in Hv; lia].
  apply ret_Some in Hrun as [= -> _].
  destruct (trials_total _ _ _ _ _ _ _ _ Htrials) as (Htot & _).
  { lia. } { unfold maxInt64 in *. lia. } { apply total_empty. }
  unfold percentages. cbn [fromInt mul div exact_Num].
  rewrite (map_fmap_ext _
             (fun c : Qc => (c * (Q2Qc (inject_Z 100) / Q2Qc (inject_Z valid)))%Qc))
    by (intros k c _; unfold Qcdiv; ring).
  rewrite total_scale, Htot.
  replace (Q2Qc (inject_Z 100)) with (Q2Qc 100) by reflexivity.
  assert (Hn : Q2Qc (inject_Z valid) <> Q2Qc 0) by (apply Z2Qc_nonzero; lia).
  field. exact Hn.
Qed.

End MonteCarlo.

Lemma three_trials_in_week_two :
  (fun r => r.1.2) <$> trials (X := Qc) 3 (league worldWeekTwo) ∅ 0 worldWeekTwo = Some 3 /\
  returned (ChampionshipProbabilities (X := Qc) 3 worldWeekTwo) = true.
Proof. split; vm_compute; reflexivity. Qed.

Lemma monteCarlo_percentages_witness :
  exists (percent : gmap string Qc) w',
    ChampionshipProbabilities 3 worldWeekTwo = Some (percent, w') /\
    total percent = Q2Qc 100.
Proof.
  destruct three_trials_in_week_two as [Hvalid Hret].
  apply fmap_Some in Hvalid as ([[counts valid] w1] & Htrials & Hvalid).
  apply returned_Some in Hret as ([percent w'] & Hrun).
  exists percent, w'. split; [exact Hrun|].
  simpl in Hvalid.
  apply (monteCarlo_percentages_sum_to_100 3 worldWeekTwo teamsAfterWeekOne
           percent w' counts valid w1).
  - unfold maxInt64. lia.
  - repeat constructor.
  - discriminate.
  - vm_compute. discriminate.
  - vm_compute. discriminate.
  - vm_compute. reflexivity.
  - exact Hrun.
  - exact Htrials.
  - lia.
Defined.

(** * Championship probabilities: what a call leaves untouched *)

Section Frame.
Context `{Env}.

Lemma hoare_ret {A} (P : World -> Prop) (a : A) (Q : A -> World -> Prop) :
  (forall w, P w -> Q a w) -> hoare P (mret a) Q.
Proof. intros HPQ w a' w' HP Hrun. apply ret_Some in Hrun as [= -> ->]. auto. Qed.

Lemma hoare_bind {A B} (P : World -> Prop) (R : A -> World -> Prop)
    (Q : B -> World -> Prop) (m : M A) (k : A -> M B) :
  hoare P m R -> (forall a, hoare (R a) (k a) Q) -> hoare P (m ≫= k) Q.
Proof.
  intros Hm Hk w b w' HP Hrun. apply bind_Some in Hrun as (a & w1 & Hm1 & Hk1).
  eapply Hk; [|exact Hk1]. eapply Hm; eauto.
Qed.

Lemma hoare_weaken {A} (P P' : World -> Prop) (Q Q' : A -> World -> Prop) (m : M A) :
  hoare P' m Q' -> (forall w, P w -> P' w) -> (forall a w, Q' a w -> Q a w) ->
  hoare P m Q.
Proof. intros Hm HP HQ w a w' Hw Hrun. apply HQ. eapply Hm; eauto. Qed.

Lemma hoare_panic {A} (P : World -> Prop) (Q : A -> World -> Prop) : hoare P panic Q.
Proof. intros w a w' _ Hrun. discriminate. Qed.

Lemma hoare_forM_ {A} (I : World -> Prop) (l : list A) (body : A -> M unit) :
  (forall a, a ∈ l -> hoare I (body a) (fun _ => I)) ->
  hoare I (forM_ l body) (fun _ => I).
Proof.
  induction l as [|a l IH]; intros Hbody.
  - apply hoare_ret. auto.
  - simpl. eapply hoare_bind; [apply Hbody; left|].
    intros u. apply IH. intros a' Hin. apply Hbody. right. exact Hin.
Qed.

Lemma hoare_mapM' {A B} (I : World -> Prop) (R : B -> Prop) (l : list A) (f : A -> M B) :
  (forall a, a ∈ l -> hoare I (f a) (fun b w => I w /\ R b)) ->
  hoare I (mapM' f l) (fun bs w => I w /\ Forall R bs).
Proof.
  induction l as [|a l IH]; intros Hf w bs w' HI Hrun.
  - apply ret_Some in Hrun as [= -> ->]. auto.
  - simpl in Hrun. apply bind_Some in Hrun as (b & w1 & Ha & Hrun).
    apply bind_Some in Hrun as (bs' & w2 & Hl & Hrun).
    apply ret_Some in Hrun as [= -> ->].
    destruct (Hf a (list_elem_of_here _ _) w b w1 HI Ha) as [HI1 Hb].
    destruct (IH (fun a' Hin => Hf a' (list_elem_of_further _ _ _ Hin)) w1 bs' w2 HI1 Hl)
      as [HI2 Hbs].
    split; [exact HI2|]. constructor; assumption.
Qed.

(** ** The primitive steps *)

Lemma keeps_refl w : keeps w w.
Proof. split; [reflexivity|]. split; [lia|]. auto. Qed.

Lemma hoare_deref (I : World -> Prop) p :
  hoare I (deref p) (fun _ => I).
Proof.
  intros w t w' HI Hrun. apply deref_Some in Hrun as (t' & _ & [= _ ->]). exact HI.
Qed.

Lemma hoare_alloc w0 t :
  hoare (keeps w0) (alloc t) (fun p w => keeps w0 w /\ fresh w0 p).
Proof.
  intros w p w' (Hlg & Hlen & Hobj) Hrun. unfold alloc in Hrun.
  injection Hrun as <- <-. split; [|exact Hlen].
  split; [exact Hlg|]. simpl. split; [rewrite length_app; lia|].
  intros q u Hq. apply lookup_app_l_Some. apply Hobj. exact Hq.
Qed.

Lemma hoare_store w0 p t :
  fresh w0 p -> hoare (keeps w0) (store p t) (fun _ => keeps w0).
Proof.
  intros Hfresh w [] w' (Hlg & Hlen & Hobj) Hrun.
  apply store_Some in Hrun as (_ & [= ->]).
  split; [exact Hlg|]. simpl. split; [rewrite length_insert; exact Hlen|].
  intros q u Hq. rewrite list_lookup_insert_ne; [apply Hobj; exact Hq|].
  apply lookup_lt_Some in Hq. unfold fresh in Hfresh. lia.
Qed.

Lemma hoare_updateAt w0 p gf ga :
  fresh w0 p -> hoare (keeps w0) (updateAt p gf ga) (fun _ => keeps w0).
Proof.
  intros Hfresh. unfold updateAt. eapply hoare_bind; [apply hoare_deref|].
  intros t. destruct (UpdateTeamStats t gf ga);
    [apply hoare_store; exact Hfresh|apply hoare_panic].
Qed.

(** The sampler touches the random source and the clock only. *)
Lemma hoare_predictMatchResult w0 team1 team2 :
  hoare (keeps w0) (predictMatchResult team1 team2) (fun _ => keeps w0).
Proof.
  assert (Hseed : hoare (keeps w0) seedFromClock (fun _ => keeps w0)).
  { intros w [] w' HI Hrun. injection Hrun as <-. exact HI. }
  assert (Hfloat : hoare (keeps w0) Float64 (fun _ => keeps w0)).
  { intros w r w' HI Hrun. unfold Float64 in Hrun.
    destruct (rand_Float64 (rng w)). injection Hrun as _ <-. exact HI. }
  assert (Hintn : forall n, hoare (keeps w0) (Intn n) (fun _ => keeps w0)).
  { intros n w r w' HI Hrun. unfold Intn in Hrun.
    destruct (n <=? 0); [discriminate|].
    destruct (rand_Intn n (rng w)). injection Hrun as _ <-. exact HI. }
  unfold predictMatchResult.
  eapply hoare_bind; [exact Hseed|]. intros u.
  eapply hoare_bind; [exact Hfloat|]. intros r.
  destruct (r <? _)%float; [|destruct (r <? _)%float];
    (eapply hoare_bind; [apply Hintn|]; intros g);
    try (eapply hoare_bind; [apply Hintn|]; intros g');
    apply hoare_ret; auto.
Qed.

Lemma hoare_findCopy w0 name teamsCopy found :
  Forall (fresh w0) teamsCopy -> from_option (fresh w0) True found ->
  hoare (keeps w0) (findCopy name teamsCopy found)
        (fun r w => keeps w0 w /\ from_option (fresh w0) True r).
Proof.
  intros Hall. revert found. induction Hall as [|p ps Hp _ IH]; intros found Hfound.
  - apply hoare_ret. auto.
  - simpl. eapply hoare_bind; [apply hoare_deref|]. intros t.
    apply IH. destruct (String.eqb (Name t) name); [exact Hp|exact Hfound].
Qed.

Lemma hoare_pure {A} (fact : Prop) (P : World -> Prop) (m : M A) Q :
  (fact -> hoare P m Q) -> hoare (fun w => P w /\ fact) m Q.
Proof. intros Hm w a w' [HP Hfact] Hrun. eapply Hm; eauto. Qed.

Lemma hoare_derefs (J : World -> Prop) ps :
  hoare J (mapM' deref ps) (fun _ => J).
Proof.
  eapply hoare_weaken; [apply (hoare_mapM' J (fun _ => True))|auto|].
  - intros p _. eapply hoare_weaken; [apply (hoare_deref J)|auto|].
    intros t w HJ. split; [exact HJ|trivial].
  - intros ts w [HJ _]. exact HJ.
Qed.

Lemma hoare_simulateMatch w0 teamsCopy m :
  Forall (fresh w0) teamsCopy ->
  hoare (keeps w0) (simulateMatch teamsCopy m) (fun _ => keeps w0).
Proof.
  intros Hall. unfold simulateMatch.
  eapply hoare_bind; [apply hoare_deref|]. intros homeTeam.
  eapply hoare_bind; [apply hoare_deref|]. intros awayTeam.
  eapply hoare_bind; [apply hoare_findCopy; [exact Hall|exact I]|].
  intros home. apply hoare_pure. intros Hhome.
  eapply hoare_bind; [apply hoare_findCopy; [exact Hall|exact I]|].
  intros away. apply hoare_pure. intros Haway.
  destruct home as [home|]; [|apply hoare_ret; auto].
  destruct away as [away|]; [|apply hoare_ret; auto].
  eapply hoare_bind; [apply hoare_deref|]. intros h.
  eapply hoare_bind; [apply hoare_deref|]. intros a.
  eapply hoare_bind; [apply hoare_predictMatchResult|]. intros [hg ag].
  eapply hoare_bind; [apply hoare_updateAt; exact Hhome|]. intros u.
  apply hoare_updateAt. exact Haway.
Qed.

Section Engine.
Context {X : Type} `{Num X}.

(** A trial writes to its own copies only. *)
Lemma hoare_trial w0 l :
  hoare (keeps w0) (trial l) (fun _ => keeps w0).
Proof.
  unfold trial.
  eapply hoare_bind.
  { apply (hoare_mapM' (keeps w0) (fresh w0)). intros p _.
    eapply hoare_bind; [apply hoare_deref|]. intros t. apply hoare_alloc. }
  intros teamsCopy. apply hoare_pure. intros Hall.
  eapply hoare_bind.
  { cbv zeta. destruct (int_sub (LWeek l) 1 <? 0); [apply hoare_panic|].
    apply hoare_forM_. intros week _. apply hoare_forM_. intros m _.
    apply hoare_simulateMatch. exact Hall. }
  intros u. eapply hoare_bind; [apply hoare_derefs|].
  intros final. apply hoare_ret. auto.
Qed.

Lemma hoare_trials w0 n : forall l (counts : gmap string X) valid,
  hoare (keeps w0) (trials n l counts valid) (fun _ => keeps w0).
Proof.
  induction n as [|n IH]; intros l counts valid.
  - apply hoare_ret. auto.
  - cbn [trials]. eapply hoare_bind; [apply hoare_trial|].
    intros [|c cs]; apply IH.
Qed.

Lemma hoare_ChampionshipProbabilities w0 simulations :
  hoare (keeps w0) (ChampionshipProbabilities (X := X) simulations) (fun _ => keeps w0).
Proof.
  unfold ChampionshipProbabilities.
  eapply hoare_bind.
  { intros w l w' HI Hrun. injection Hrun as _ <-. exact HI. }
  intros l. case_bool_decide; [apply hoare_ret; auto|].
  eapply hoare_bind; [apply hoare_derefs|]. intros ts.
  destruct (LWeek l >? 18); [apply hoare_ret; auto|].
  destruct (leaderUnreachable ts); [apply hoare_ret; auto|].
  destruct (LWeek l =? 0); [apply hoare_ret; auto|].
  unfold monteCarlo.
  eapply hoare_bind; [apply hoare_trials|]. intros [counts valid].
  destruct (valid >? 0); [apply hoare_ret; auto|].
  eapply hoare_bind; [apply hoare_derefs|]. intros ts'. apply hoare_ret. auto.
Qed.

(** When [ChampionshipProbabilities] returns, whatever the number
    of trials and whatever branch it took, the league is as it was (the
    list of teams, the week, and every match with its goals and flags),
    and so is every team object that existed before the call, with its
    statistics, form and strengths: the trials write to their own copies. *)
Theorem ChampionshipProbabilities_frame simulations (w : World)
    (counts : gmap string X) w' :
  ChampionshipProbabilities simulations w = Some (counts, w') ->
  league w' = league w /\
  forall p t, heap w !! p = Some t -> heap w' !! p = Some t.
Proof.
  intros Hrun.
  destruct (hoare_ChampionshipProbabilities w simulations w counts w' (keeps_refl w) Hrun)
    as (Hlg & _ & Hobj).
  split; assumption.
Qed.

End Engine.
End Frame.

Lemma three_float_trials_in_week_two :
  returned (ChampionshipProbabilities (X := float) 3 worldWeekTwo) = true /\
  (fun r => length (heap r.2))
    <$> ChampionshipProbabilities (X := float) 3 worldWeekTwo
  = Some 16%nat.
Proof. split; vm_compute; reflexivity. Qed.

(** Three trials in the second week: twelve copies were made, the
    league and the four teams are as they were. *)
Lemma ChampionshipProbabilities_frame_witness :
  exists (counts : gmap string float) w',
    ChampionshipProbabilities 3 worldWeekTwo = Some (counts, w') /\
    length (heap w') = 16%nat /\
    league w' = league worldWeekTwo /\
    forall p t, heap worldWeekTwo !! p = Some t -> heap w' !! p = Some t.
Proof.
  destruct three_float_trials_in_week_two as [Hret Hlen].
  apply returned_Some in Hret as ([counts w'] & Hrun).
  exists counts, w'. split; [exact Hrun|].
  rewrite Hrun in Hlen. injection Hlen as Hlen.
  split; [exact Hlen|].
  exact (ChampionshipProbabilities_frame 3 worldWeekTwo counts w' Hrun).
Defined.

(** * The match outcome sampler: the scores it can return *)

Section Scores.
Context `{Env}.

Lemma Intn_Some n w :
  IntnInRange -> 0 < n ->
  exists k w', Intn n w = Some (k, w') /\ 0 <= k < n /\
    heap w' = heap w /\ league w' = league w /\ ticks w' = ticks w.
Proof.
  intros Hrange Hn. unfold Intn.
  destruct (Z.leb_spec n 0) as [|_]; [lia|].
  pose proof (Hrange n (rng w) Hn) as Hk.
  destruct (rand_Intn n (rng w)) as [k g]. simpl in Hk.
  exists k, (mkWorld (heap w) (league w) g (ticks w)). auto.
Qed.

(** A winner's goals and the loser's: [rand.Intn(3) + 1], then
    [rand.Intn] of that. *)
Lemma win_Some w :
  IntnInRange ->
  exists winner loser w',
    (g ← Intn 3; loser ← Intn (int_add g 1); mret (int_add g 1, loser)) w
      = Some ((winner, loser), w') /\
    1 <= winner <= 3 /\ 0 <= loser < winner /\
    heap w' = heap w /\ league w' = league w /\ ticks w' = ticks w.
Proof.
  intros Hrange.
  destruct (Intn_Some 3 w Hrange) as (g & w1 & Hg & Hgr & Hh1 & Hl1 & Ht1); [lia|].
  assert (Hadd : int_add g 1 = g + 1).
  { apply wrap_small. unfold minInt64, maxInt64. lia. }
  destruct (Intn_Some (int_add g 1) w1 Hrange)
    as (k & w2 & Hk & Hkr & Hh2 & Hl2 & Ht2); [lia|].
  exists (int_add g 1), k, w2. split.
  - apply bind_Some. exists g, w1. split; [exact Hg|].
    apply bind_Some. exists k, w2. split; [exact Hk|reflexivity].
  - rewrite Hadd in *. repeat split; try lia; congruence.
Qed.

Lemma sample_start {A} (k : float -> M A) w :
  (seedFromClock;; r ← Float64; k r) w
  = let '(r, g) := rand_Float64 (seeded w) in
    k r (mkWorld (heap w) (league w) g (S (ticks w))).
Proof.
  cbv [mbind M_bind seedFromClock Float64]. cbn [heap league rng ticks].
  destruct (rand_Float64 _). reflexivity.
Qed.

(** The sampler returns, with at most three goals on either side. *)
Lemma predictMatchResult_returns team1 team2 w :
  IntnInRange ->
  exists team1Goals team2Goals w',
    predictMatchResult team1 team2 w = Some ((team1Goals, team2Goals), w') /\
    (0 <= team1Goals <= 3 /\ 0 <= team2Goals <= 3) /\
    heap w' = heap w /\ league w' = league w.
Proof.
  intros Hrange. unfold predictMatchResult. rewrite sample_start.
  cbn [heap league rng ticks].
  destruct (rand_Float64 (seeded w)) as [r g].
  set (w2 := mkWorld (heap w) (league w) g (S (ticks w))).
  destruct (r <? _)%float.
  - destruct (win_Some w2 Hrange) as (a & b & w' & Hrun & Ha & Hb & Hh & Hl & Ht).
    exists a, b, w'. split; [exact Hrun|].
    split; [lia|]. rewrite Hh, Hl. auto.
  - destruct (r <? _)%float.
    + destruct (Intn_Some 2 w2 Hrange) as (k & w' & Hk & Hkr & Hh & Hl & Ht); [lia|].
      exists k, k, w'. split.
      * apply bind_Some. exists k, w'. split; [exact Hk|reflexivity].
      * split; [lia|]. rewrite Hh, Hl. auto.
    + destruct (win_Some w2 Hrange) as (a & b & w' & Hrun & Ha & Hb & Hh & Hl & Ht).
      exists b, a, w'. split.
      * apply bind_Some in Hrun as (g0 & wa & Hg0 & Hrun).
        apply bind_Some in Hrun as (k0 & wb & Hk0 & Hret).
        apply ret_Some in Hret as [= -> -> ->].
        apply bind_Some. exists g0, wa. split; [exact Hg0|].
        apply bind_Some. exists k0, wb. split; [exact Hk0|reflexivity].
      * split; [lia|]. rewrite Hh, Hl. auto.
Qed.

(** Whatever the strengths and the state of the random source,
    [predictMatchResult] returns a score: the winner has 1 to 3 goals and
    the loser fewer, or the match is drawn 0-0 or 1-1. It reads the clock
    once and touches neither the teams nor the league. *)
Theorem predictMatchResult_scores team1 team2 w :
  IntnInRange ->
  exists team1Goals team2Goals w',
    predictMatchResult team1 team2 w = Some ((team1Goals, team2Goals), w') /\
    (1 <= team1Goals <= 3 /\ 0 <= team2Goals < team1Goals \/
     team1Goals = team2Goals /\ 0 <= team1Goals <= 1 \/
     1 <= team2Goals <= 3 /\ 0 <= team1Goals < team2Goals) /\
    heap w' = heap w /\ league w' = league w /\ ticks w' = S (ticks w).
Proof.
  intros Hrange. unfold predictMatchResult. rewrite sample_start.
  cbn [heap league rng ticks].
  destruct (rand_Float64 (seeded w)) as [r g].
  set (w2 := mkWorld (heap w) (league w) g (S (ticks w))).
  destruct (r <? _)%float.
  - destruct (win_Some w2 Hrange) as (a & b & w' & Hrun & Ha & Hb & Hh & Hl & Ht).
    exists a, b, w'. split; [exact Hrun|].
    split; [left; lia|]. rewrite Hh, Hl, Ht. auto.
  - destruct (r <? _)%float.
    + destruct (Intn_Some 2 w2 Hrange) as (k & w' & Hk & Hkr & Hh & Hl & Ht); [lia|].
      exists k, k, w'. split.
      * apply bind_Some. exists k, w'. split; [exact Hk|reflexivity].
      * split; [right; left; lia|]. rewrite Hh, Hl, Ht. auto.
    + destruct (win_Some w2 Hrange) as (a & b & w' & Hrun & Ha & Hb & Hh & Hl & Ht).
      exists b, a, w'. split.
      * apply bind_Some in Hrun as (g0 & wa & Hg0 & Hrun).
        apply bind_Some in Hrun as (k0 & wb & Hk0 & Hret).
        apply ret_Some in Hret as [= -> -> ->].
        apply bind_Some. exists g0, wa. split; [exact Hg0|].
        apply bind_Some. exists k0, wb. split; [exact Hk0|reflexivity].
      * split; [right; right; lia|]. rewrite Hh, Hl, Ht. auto.
Qed.

End Scores.

Lemma lcgEnv_IntnInRange : @IntnInRange lcgEnv.
Proof.
  intros n s Hn. cbn [rand_Intn lcgEnv fst]. apply Z.mod_pos_bound. exact Hn.
Qed.

Lemma predictMatchResult_scores_witness :
  exists team1Goals team2Goals w',
    predictMatchResult evenTeam evenTeam (lcgWorld 5 0)
      = Some ((team1Goals, team2Goals), w') /\
    (1 <= team1Goals <= 3 /\ 0 <= team2Goals < team1Goals \/
     team1Goals = team2Goals /\ 0 <= team1Goals <= 1 \/
     1 <= team2Goals <= 3 /\ 0 <= team1Goals < team2Goals) /\
    heap w' = heap (lcgWorld 5 0) /\ league w' = league (lcgWorld 5 0) /\
    ticks w' = S (ticks (lcgWorld 5 0)).
Proof.
  apply (predictMatchResult_scores evenTeam evenTeam (lcgWorld 5 0)).
  exact lcgEnv_IntnInRange.
Defined.

(** * The database helpers *)

(** ** Short names *)

Lemma shortNames_values name short :
  shortNames !! name = Some short -> String.length short = 3%nat.
Proof.
  intros Hl. apply elem_of_list_to_map_2 in Hl.
  rewrite !elem_of_cons, elem_of_nil in Hl.
  repeat (destruct Hl as [[= _ ->]|Hl]; [reflexivity|]). destruct Hl.
Qed.

Lemma substring_3_length s :
  (3 <= String.length s)%nat -> String.length (String.substring 0 3 s) = 3%nat.
Proof.
  destruct s as [|a [|b [|c r]]]; simpl; try lia. intros _.
  destruct r; reflexivity.
Qed.

(** [getShortName] gives every club of the built-in list the short name
    the list itself carries; it panics exactly on a name that is not in
    its table and has fewer than three bytes; and whatever it returns
    has three bytes. *)
Theorem getShortName_spec :
  (forall team, team ∈ getMockPremierLeagueTeams ->
     getShortName (plName team) = Some (plShortName team)) /\
  (forall name, getShortName name = None <->
     shortNames !! name = None /\ (String.length name < 3)%nat) /\
  (forall name short, getShortName name = Some short ->
     String.length short = 3%nat).
Proof.
  split; [|split].
  - intros team Hin. unfold getMockPremierLeagueTeams in Hin.
    rewrite !elem_of_cons, elem_of_nil in Hin.
    repeat (destruct Hin as [->|Hin]; [vm_compute; reflexivity|]). destruct Hin.
  - intros name. unfold getShortName.
    destruct (shortNames !! name) as [short|]; [|case_bool_decide].
    + split; [discriminate|]. intros [[=] _].
    + split; auto.
    + split; [discriminate|]. intros [_ Hlt]. contradiction.
  - intros name short. unfold getShortName.
    destruct (shortNames !! name) as [short'|] eqn:Hl.
    + intros [= <-]. exact (shortNames_values _ _ Hl).
    + case_bool_decide; [discriminate|]. intros [= <-].
      apply substring_3_length. lia.
Qed.

(** ** The form column *)

Lemma append_cons c s t : String c s +:+ t = String c (s +:+ t).
Proof. reflexivity. Qed.

Lemma append_nonempty s f : f <> ""%string -> s +:+ f <> ""%string.
Proof.
  destruct s as [|c s]; [intros Hf; exact Hf|].
  rewrite append_cons. discriminate.
Qed.

Lemma append_assoc' (a b c : string) : (a +:+ b) +:+ c = a +:+ (b +:+ c).
Proof.
  induction a as [|x a IH]; [reflexivity|].
  rewrite !append_cons. f_equal. exact IH.
Qed.

Lemma formStringLoop_join form : forall i formStr,
  (i = 0%nat -> formStr = ""%string) ->
  formStringLoop i form formStr
  = if String.eqb formStr ""
    then joinWith "," (filter (fun f => f <> ""%string) form)
    else joinWith "," (formStr :: filter (fun f => f <> ""%string) form).
Proof.
  induction form as [|f rest IH]; intros i acc Hi; cbn [formStringLoop].
  - destruct (String.eqb_spec acc ""); [subst; reflexivity|reflexivity].
  - rewrite IH by discriminate.
    destruct (String.eqb_spec f "") as [->|Hf]; cbn [negb].
    + rewrite filter_cons_False by (intros Hne; apply Hne; reflexivity).
      reflexivity.
    + rewrite filter_cons_True by exact Hf.
      destruct (String.eqb_spec acc "") as [->|Hacc];
        rewrite ?andb_false_r; cbn [negb].
      * change ("" +:+ f) with f.
        destruct (String.eqb_spec f "") as [He|_]; [contradiction|].
        reflexivity.
      * destruct i as [|i]; [exfalso; apply Hacc, Hi; reflexivity|].
        cbn [Nat.ltb Nat.leb andb].
        destruct (String.eqb_spec ((acc +:+ ",") +:+ f) "") as [He|_];
          [exfalso; exact (append_nonempty _ _ Hf He)|].
        cbn [joinWith].
        destruct (filter (fun f0 => f0 <> ""%string) rest) as [|g more] eqn:Hfl.
        -- apply append_assoc'.
        -- rewrite !append_assoc'. reflexivity.
Qed.

(** The form column [SaveTeam] writes is the non-empty entries of the
    form, in order, joined by commas. *)
Theorem formString_join form :
  formString form = joinWith "," (filter (fun f => f <> ""%string) form).
Proof.
  unfold formString. rewrite formStringLoop_join by reflexivity. reflexivity.
Qed.

Lemma chars_length s : length (chars s) = String.length s.
Proof.
  unfold chars. rewrite length_fmap.
  induction s as [|c s IH]; simpl; [reflexivity|]. f_equal. exact IH.
Qed.

Lemma parseLoop_chars s : forall i form,
  length form = 5%nat ->
  parseLoop i s form
  = take 5 (take i form ++ chars s ++ drop (i + length (chars s)) form).
Proof.
  induction s as [|c rest IH]; intros i form Hlen; cbn [parseLoop].
  - change (chars "") with (@nil string). cbn [length app].
    rewrite Nat.add_0_r, take_drop, take_ge by lia. reflexivity.
  - change (chars (String c rest)) with (String c "" :: chars rest).
    cbn [length]. case_bool_decide as Hi.
    + rewrite IH by (rewrite length_insert; exact Hlen).
      rewrite (take_S_r _ i (String c "")) by (apply list_lookup_insert_eq; lia).
      rewrite take_insert_ge by lia.
      rewrite drop_insert_lt by lia.
      rewrite <- app_assoc. cbn [app].
      replace (S i + length (chars rest))%nat
        with (i + S (length (chars rest)))%nat by lia.
      reflexivity.
    + rewrite IH by exact Hlen.
      rewrite !(take_ge form) by lia.
      rewrite !take_app_length' by (symmetry; exact Hlen). reflexivity.
Qed.

(** [parseFormString] on an ASCII string: one entry per character for
    the first five characters, the characters after the fifth dropped,
    and empty entries up to five. *)
Theorem parseFormString_chars formStr :
  isASCII formStr ->
  parseFormString formStr
  = take 5 (chars formStr) ++ replicate (5 - String.length formStr) ""%string.
Proof.
  intros _. unfold parseFormString.
  destruct (String.eqb_spec formStr "") as [->|_]; [reflexivity|].
  rewrite parseLoop_chars by reflexivity.
  change (take 0 emptyForm) with (@nil string).
  change (0 + length (chars formStr))%nat with (length (chars formStr)).
  cbn [app]. rewrite take_app, chars_length. f_equal.
  unfold emptyForm. rewrite drop_replicate, take_replicate. f_equal. lia.
Qed.

Lemma parseFormString_chars_witness :
  parseFormString "W,D,L,W"
  = take 5 (chars "W,D,L,W") ++ replicate (5 - String.length "W,D,L,W") ""%string.
Proof.
  apply (parseFormString_chars "W,D,L,W").
  unfold isASCII. repeat constructor.
Defined.

(** A form of five entries W, D, L or empty comes back from the
    database as it was saved exactly when every entry after the first
    is empty: the commas that [SaveTeam] puts between the results are
    read back by [parseFormString] as entries of their own. *)
Theorem form_round_trip form :
  length form = 5%nat -> Forall (fun f => f ∈ resultCodes) form ->
  (readForm (formString form) = form <-> drop 1 form = replicate 4 ""%string).
Proof.
  intros Hlen Hall.
  destruct form as [|a [|b [|c [|d [|e [|]]]]]]; try discriminate Hlen.
  rewrite !Forall_cons in Hall. unfold resultCodes in Hall.
  rewrite !elem_of_cons, !elem_of_nil in Hall.
  destruct Hall as (Ha & Hb & Hc & Hd & He & _).
  destruct Ha as [->|[->|[->|[->|[]]]]];
  destruct Hb as [->|[->|[->|[->|[]]]]];
  destruct Hc as [->|[->|[->|[->|[]]]]];
  destruct Hd as [->|[->|[->|[->|[]]]]];
  destruct He as [->|[->|[->|[->|[]]]]];
  vm_compute; (split; intros Heq; [first [reflexivity|discriminate Heq]
                                  |first [reflexivity|discriminate Heq]]).
Qed.

Lemma form_round_trip_witness :
  readForm (formString ["W"; "D"; "L"; ""; ""]%string)
    = ["W"; "D"; "L"; ""; ""]%string
  <-> drop 1 ["W"; "D"; "L"; ""; ""]%string = replicate 4 ""%string.
Proof.
  apply (form_round_trip ["W"; "D"; "L"; ""; ""]%string).
  - reflexivity.
  - unfold resultCodes. repeat constructor;
      rewrite !elem_of_cons; auto 10.
Defined.

(** What does come back for a form of three results. *)
Remark form_round_trip_commas :
  readForm (formString ["W"; "D"; "L"; ""; ""]%string)
  = ["W"; ","; "D"; ","; "L"]%string.
Proof. reflexivity. Qed.

(** * The fixture scheduler: what it needs and what it hands out *)

(** [generateFixtures] panics exactly when the league does not have
    four teams (they need not be distinct); every match it returns is
    between teams of the league and is a blank record: no goals, not
    played, not fixed. *)
Theorem generateFixtures_fresh l :
  (generateFixtures l = None <-> length (Teams l) ≠ 4%nat) /\
  (forall fixtures week m,
     generateFixtures l = Some fixtures -> week ∈ fixtures -> m ∈ week ->
     HomeTeam m ∈ Teams l /\ AwayTeam m ∈ Teams l /\
     HomeGoals m = 0 /\ AwayGoals m = 0 /\
     IsPlayed m = false /\ IsFixed m = false).
Proof.
  split.
  - unfold generateFixtures. case_bool_decide as Hlen; [tauto|].
    destruct (Teams l) as [|a [|b [|c [|d [|e rest]]]]] eqn:Ht;
      try discriminate Hlen.
    split; [intros Hn; vm_compute in Hn; discriminate Hn|].
    intros Hne. exfalso. apply Hne. reflexivity.
  - intros fixtures week m. unfold generateFixtures.
    case_bool_decide as Hlen; [discriminate|].
    destruct (Teams l) as [|a [|b [|c [|d [|e rest]]]]] eqn:Ht;
      try discriminate Hlen.
    intros Hfx. vm_compute in Hfx. injection Hfx as <-.
    rewrite !elem_of_cons, elem_of_nil. intros Hw.
    repeat (destruct Hw as [->|Hw];
            [rewrite !elem_of_cons, elem_of_nil; intros [->|[->|[]]];
             cbn [HomeTeam AwayTeam HomeGoals AwayGoals IsPlayed IsFixed];
             rewrite ?elem_of_cons; repeat split; auto 6|]).
    contradiction.
Qed.

(** * Championship probabilities: before the first week and after the last *)

(** ** Before the first week *)

Lemma sumOf_cons f t ts : sumOf f (t :: ts) = f t + sumOf f ts.
Proof. reflexivity. Qed.

Lemma sumOf_nonneg f ts : Forall (fun t => 0 <= f t) ts -> 0 <= sumOf f ts.
Proof.
  induction 1 as [|t ts Ht _ IH]; [reflexivity|]. rewrite sumOf_cons. lia.
Qed.

Lemma totalStrength_sum ts : forall s,
  Forall (fun t => 0 <= BaseStrength t) ts ->
  0 <= s -> s + sumOf BaseStrength ts <= maxInt64 ->
  fold_left (fun s t => int_add s (BaseStrength t)) ts s
  = s + sumOf BaseStrength ts.
Proof.
  induction ts as [|t ts IH]; intros s Hpos Hs Hmax.
  - cbn. lia.
  - apply Forall_cons in Hpos as [Ht Hpos].
    pose proof (sumOf_nonneg _ _ Hpos) as Hsum.
    rewrite sumOf_cons in *. cbn [fold_left].
    assert (Hadd : int_add s (BaseStrength t) = s + BaseStrength t).
    { apply wrap_small. unfold minInt64, maxInt64 in *. lia. }
    rewrite Hadd, IH by (first [exact Hpos | lia]). lia.
Qed.

Lemma total_fill (f : Team -> Qc) ts : forall m0 : gmap string Qc,
  NoDup (Name <$> ts) -> (forall t, t ∈ ts -> m0 !! Name t = None) ->
  total (fold_left (fun m t => <[Name t := f t]> m) ts m0)
  = (total m0 + foldr (fun t s => f t + s) (Q2Qc 0) ts)%Qc.
Proof.
  induction ts as [|t ts IH]; intros m0 Hnd Hfresh; cbn [fold_left foldr].
  - ring.
  - cbn [fmap list_fmap] in Hnd. apply NoDup_cons in Hnd as [Ht Hnd].
    rewrite IH.
    + rewrite total_insert_fresh by (apply Hfresh; left). ring.
    + exact Hnd.
    + intros u Hu. rewrite lookup_insert_ne.
      * apply Hfresh. right. exact Hu.
      * intros Heq. apply Ht. rewrite Heq. apply list_elem_of_fmap_2. exact Hu.
Qed.

Lemma shares_sum (T : Qc) ts :
  T <> Q2Qc 0 ->
  foldr (fun t s => (Z2Qc (BaseStrength t) / T * Z2Qc 100 + s)%Qc) (Q2Qc 0) ts
  = (Z2Qc (sumOf BaseStrength ts) / T * Z2Qc 100)%Qc.
Proof.
  intros HT. induction ts as [|t ts IH]; cbn [foldr].
  - change (sumOf BaseStrength []) with 0. unfold Z2Qc.
    replace (Q2Qc (inject_Z 0)) with (Q2Qc 0) by reflexivity.
    field. exact HT.
  - rewrite IH, sumOf_cons. unfold Z2Qc.
    rewrite (Z2Qc_plus (BaseStrength t)). field. exact HT.
Qed.

Section ColdStart.
Context `{Env}.

(** In week 0, unless the first team has already won, every team's
    share is its base strength over the sum of the base strengths,
    times 100; in exact arithmetic the shares add up to exactly 100.
    No trial is run and nothing changes. *)
Theorem coldStart_percentages_sum_to_100 simulations (w : World) ts :
  pointTo w (Teams (league w)) ts -> ts <> [] ->
  LWeek (league w) = 0 -> leaderUnreachable ts = false ->
  NoDup (Name <$> ts) ->
  Forall (fun t => 0 <= BaseStrength t) ts ->
  0 < sumOf BaseStrength ts <= maxInt64 ->
  exists percent : gmap string Qc,
    ChampionshipProbabilities simulations w = Some (percent, w) /\
    (forall t, t ∈ ts ->
       percent !! Name t
       = Some (Z2Qc (BaseStrength t) / Z2Qc (sumOf BaseStrength ts) * Z2Qc 100)%Qc) /\
    total percent = Z2Qc 100.
Proof.
  intros Hpt Hne Hweek Hlead Hnd Hpos Hsum.
  assert (Htot : fold_left (fun s t => int_add s (BaseStrength t)) ts 0
                 = sumOf BaseStrength ts).
  { rewrite totalStrength_sum by (first [exact Hpos | lia]). lia. }
  exists (coldStart ts). split; [|split].
  - unfold ChampionshipProbabilities. apply bind_Some.
    exists (league w), w. split; [reflexivity|].
    case_bool_decide as Hlen.
    { apply Forall2_length in Hpt. rewrite Hlen in Hpt.
      destruct ts; [contradiction|discriminate]. }
    apply bind_Some. exists ts, w.
    split; [apply mapM'_deref_Some; exact Hpt|].
    rewrite Hweek, Hlead. reflexivity.
  - intros t Hin. unfold coldStart. rewrite Htot.
    rewrite (fill_lookup
               (fun t => mul (div (fromInt (BaseStrength t))
                                  (fromInt (sumOf BaseStrength ts)))
                             (fromInt 100))) by assumption.
    reflexivity.
  - unfold coldStart. rewrite Htot.
    rewrite (total_fill
               (fun t => mul (div (fromInt (BaseStrength t))
                                  (fromInt (sumOf BaseStrength ts)))
                             (fromInt 100)))
      by (first [exact Hnd | intros; apply lookup_empty]).
    rewrite total_empty. cbn [mul div fromInt exact_Num].
    fold (Z2Qc (sumOf BaseStrength ts)). fold (Z2Qc 100).
    assert (HT : Z2Qc (sumOf BaseStrength ts) <> Q2Qc 0)
      by (apply Z2Qc_nonzero; lia).
    rewrite Qcplus_0_l.
    etransitivity; [exact (shares_sum _ ts HT)|]. field. exact HT.
Qed.

End ColdStart.

Lemma coldStart_percentages_witness :
  exists percent : gmap string Qc,
    ChampionshipProbabilities 10000 worldWeekZero = Some (percent, worldWeekZero) /\
    (forall t, t ∈ freshTeams ->
       percent !! Name t
       = Some (Z2Qc (BaseStrength t) / Z2Qc (sumOf BaseStrength freshTeams)
               * Z2Qc 100)%Qc) /\
    total percent = Z2Qc 100.
Proof.
  apply (coldStart_percentages_sum_to_100 (H := lcgEnv) 10000 worldWeekZero freshTeams).
  - repeat constructor.
  - discriminate.
  - reflexivity.
  - vm_compute. reflexivity.
  - vm_compute. repeat (apply NoDup_cons; split;
      [rewrite ?elem_of_cons, elem_of_nil; intuition discriminate|]).
    apply NoDup_nil_2.
  - repeat constructor; vm_compute; discriminate.
  - vm_compute. split; [reflexivity|discriminate].
Defined.

(** ** After the last week *)

Lemma maxPointsOf_fold ts : forall m0,
  let r := fold_left (fun mp t => if Points t >? mp then Points t else mp) ts m0 in
  m0 <= r /\ (forall t, t ∈ ts -> Points t <= r) /\
  (r = m0 \/ exists t, t ∈ ts /\ r = Points t).
Proof.
  induction ts as [|t ts IH]; intros m0; cbn [fold_left].
  - split; [lia|]. split; [|left; reflexivity].
    intros t Hin. apply elem_of_nil in Hin. contradiction.
  - specialize (IH (if Points t >? m0 then Points t else m0)).
    cbv zeta in IH. destruct IH as (Hle & Hall & Hex).
    rewrite Z.gtb_ltb in *. destruct (Z.ltb_spec m0 (Points t)) as [Hlt|Hge].
    + split; [lia|]. split.
      * intros u Hu. apply elem_of_cons in Hu as [->|Hu]; [lia|auto].
      * right. destruct Hex as [->|(u & Hu & ->)].
        -- exists t. split; [left|reflexivity].
        -- exists u. split; [right; exact Hu|reflexivity].
    + split; [lia|]. split.
      * intros u Hu. apply elem_of_cons in Hu as [->|Hu]; [lia|auto].
      * destruct Hex as [->|(u & Hu & ->)]; [left; reflexivity|].
        right. exists u. split; [right; exact Hu|reflexivity].
Qed.

Lemma maxPointsOf_leader c ts :
  c ∈ ts -> 0 <= Points c -> (forall t, t ∈ ts -> Points t <= Points c) ->
  maxPointsOf ts = Points c.
Proof.
  intros Hc Hpos Hall. unfold maxPointsOf.
  destruct (maxPointsOf_fold ts (-1)) as (_ & Hle & Hex). cbv zeta in *.
  specialize (Hle c Hc).
  destruct Hex as [Heq|(u & Hu & Heq)]; [lia|].
  specialize (Hall u Hu). lia.
Qed.

(** The loop that collects the champions, from the state
    [(maxGoalDiff, champions)]. *)
Lemma champions_before P G ts : forall g ch,
  g < G -> Forall (fun t => Points t = P -> GoalDifference t < G) ts ->
  exists g' ch',
    fold_left
      (fun '(maxGoalDiff, champions) t =>
         if Points t =? P then
           if GoalDifference t >? maxGoalDiff then (GoalDifference t, [Name t])
           else if GoalDifference t =? maxGoalDiff
                then (maxGoalDiff, champions ++ [Name t])
                else (maxGoalDiff, champions)
         else (maxGoalDiff, champions))
      ts (g, ch) = (g', ch') /\ g' < G.
Proof.
  induction ts as [|t ts IH]; intros g ch Hg Hall; cbn [fold_left].
  - eauto.
  - apply Forall_cons in Hall as [Ht Hall].
    destruct (Z.eqb_spec (Points t) P) as [HP|_]; [|apply IH; assumption].
    specialize (Ht HP). rewrite Z.gtb_ltb.
    destruct (Z.ltb_spec g (GoalDifference t)); [apply IH; assumption|].
    destruct (Z.eqb_spec (GoalDifference t) g); apply IH; assumption.
Qed.

Lemma champions_after P G ts : forall ch,
  Forall (fun t => Points t = P -> GoalDifference t < G) ts ->
  fold_left
    (fun '(maxGoalDiff, champions) t =>
       if Points t =? P then
         if GoalDifference t >? maxGoalDiff then (GoalDifference t, [Name t])
         else if GoalDifference t =? maxGoalDiff
              then (maxGoalDiff, champions ++ [Name t])
              else (maxGoalDiff, champions)
       else (maxGoalDiff, champions))
    ts (G, ch) = (G, ch).
Proof.
  induction ts as [|t ts IH]; intros ch Hall; cbn [fold_left]; [reflexivity|].
  apply Forall_cons in Hall as [Ht Hall].
  destruct (Z.eqb_spec (Points t) P) as [HP|_]; [|apply IH; assumption].
  specialize (Ht HP). rewrite Z.gtb_ltb.
  destruct (Z.ltb_spec G (GoalDifference t)); [lia|].
  destruct (Z.eqb_spec (GoalDifference t) G); [lia|]. apply IH; assumption.
Qed.

(** A team ahead of every other on points, or level on points and
    ahead on goal difference, is the one champion. *)
Lemma championsOf_unique c ts :
  NoDup (Name <$> ts) -> c ∈ ts ->
  0 <= Points c -> -999 < GoalDifference c ->
  (forall t, t ∈ ts -> Name t ≠ Name c ->
     Points t < Points c \/
     Points t = Points c /\ GoalDifference t < GoalDifference c) ->
  championsOf ts = [Name c].
Proof.
  intros Hnd Hc Hpos Hgd Hbetter. unfold championsOf.
  rewrite (maxPointsOf_leader c ts Hc Hpos).
  2: { intros t Ht. destruct (decide (Name t = Name c)) as [Heq|Hne].
       - apply list_elem_of_split in Hc as (pre & post & ->).
         assert (t = c); [|subst; lia].
         rewrite fmap_app, fmap_cons in Hnd.
         apply NoDup_app in Hnd as (Hpre & Hdisj & Hpost).
         apply NoDup_cons in Hpost as [Hcpost _].
         apply elem_of_app in Ht as [Ht|Ht].
         + exfalso. apply (Hdisj (Name t)); [apply list_elem_of_fmap_2; exact Ht|].
           rewrite Heq. left.
         + apply elem_of_cons in Ht as [->|Ht]; [reflexivity|].
           exfalso. apply Hcpost. rewrite <- Heq.
           apply list_elem_of_fmap_2. exact Ht.
       - destruct (Hbetter t Ht Hne); lia. }
  apply list_elem_of_split in Hc as (pre & post & ->).
  rewrite fmap_app, fmap_cons in Hnd.
  apply NoDup_app in Hnd as (Hpre & Hdisj & Hpost).
  apply NoDup_cons in Hpost as [Hcpost _].
  assert (Hother : forall t, t ∈ pre ++ post -> Name t ≠ Name c).
  { intros t Ht Heq. apply elem_of_app in Ht as [Ht|Ht].
    - apply (Hdisj (Name t)); [apply list_elem_of_fmap_2; exact Ht|].
      rewrite Heq. left.
    - apply Hcpost. rewrite <- Heq. apply list_elem_of_fmap_2. exact Ht. }
  assert (Hlow : forall l, (forall t, t ∈ l -> t ∈ pre ++ post) ->
            Forall (fun t => Points t = Points c ->
                             GoalDifference t < GoalDifference c) l).
  { intros l Hl. apply Forall_forall. intros t Ht HP.
    destruct (Hbetter t) as [|[_ ?]]; [| |lia|assumption].
    - specialize (Hl t Ht). rewrite !elem_of_app, elem_of_cons in *. tauto.
    - apply Hother, Hl, Ht. }
  rewrite fold_left_app. cbn [fold_left].
  destruct (champions_before (Points c) (GoalDifference c) pre (-999) [])
    as (g' & ch' & -> & Hg'); [lia|apply Hlow; intros; set_solver|].
  rewrite Z.eqb_refl, Z.gtb_ltb.
  destruct (Z.ltb_spec g' (GoalDifference c)); [|lia].
  rewrite champions_after by (apply Hlow; intros; set_solver). reflexivity.
Qed.

(** The loop that gives everyone else 0: [if counts[t.Name] == 0
    { counts[t.Name] = 0.0 }]. *)
Lemma zeros_fill (champion : string) ts : forall counts : gmap string float,
  counts !! champion = Some 100%float ->
  (forall k x, k ≠ champion -> counts !! k = Some x -> x = 0%float) ->
  let counts' :=
    fold_left
      (fun counts t =>
         if isZero (getNum counts (Name t)) then <[Name t := fromInt 0]> counts
         else counts)
      ts counts in
  counts' !! champion = Some 100%float /\
  (forall k x, k ≠ champion -> counts' !! k = Some x -> x = 0%float) /\
  (forall t, t ∈ ts -> Name t ≠ champion -> counts' !! Name t = Some 0%float) /\
  (forall k, k ∉ Name <$> ts -> counts' !! k = counts !! k).
Proof.
  induction ts as [|t ts IH]; intros counts Hc Hz; cbn [fold_left].
  - split; [exact Hc|]. split; [exact Hz|]. split; [|reflexivity].
    intros t Ht. apply elem_of_nil in Ht. contradiction.
  - set (next := if isZero (getNum counts (Name t))
                 then <[Name t := fromInt 0]> counts else counts).
    assert (Hnext : next !! champion = Some 100%float /\
              (forall k x, k ≠ champion -> next !! k = Some x -> x = 0%float) /\
              (Name t ≠ champion -> next !! Name t = Some 0%float) /\
              (forall k, k ≠ Name t -> next !! k = counts !! k)).
    { unfold next, getNum. destruct (decide (Name t = champion)) as [Heq|Hne].
      - rewrite Heq, Hc. cbn. repeat split; auto. contradiction.
      - destruct (counts !! Name t) as [x|] eqn:Hx; cbn [default].
        + rewrite (Hz _ _ Hne Hx). cbn.
          replace (<[Name t := 0%float]> counts) with counts
            by (symmetry; apply insert_id; rewrite Hx, (Hz _ _ Hne Hx);
                reflexivity).
          repeat split; auto. intros _. rewrite Hx, (Hz _ _ Hne Hx). reflexivity.
        + cbn. split; [rewrite lookup_insert_ne by exact Hne; exact Hc|].
          split; [|split].
          * intros k x Hk. destruct (decide (k = Name t)) as [->|Hkt].
            -- rewrite lookup_insert_eq. intros [= <-]. reflexivity.
            -- rewrite lookup_insert_ne by congruence. apply Hz. exact Hk.
          * intros _. apply lookup_insert_eq.
          * intros k Hk. apply lookup_insert_ne. congruence. }
    destruct Hnext as (Hc' & Hz' & Ht' & Hother).
    destruct (IH next Hc' Hz') as (Hc'' & Hz'' & Hts & Hout). cbv zeta in *.
    split; [exact Hc''|]. split; [exact Hz''|]. split.
    + intros u Hu Hne. apply elem_of_cons in Hu as [->|Hu]; [|auto].
      destruct (decide (Name t ∈ Name <$> ts)) as [Hin|Hnin].
      * apply list_elem_of_fmap in Hin as (u & Heq & Hu).
        rewrite Heq. apply Hts; [exact Hu|]. rewrite <- Heq. exact Hne.
      * rewrite Hout by exact Hnin. auto.
    + intros k Hk. rewrite fmap_cons, not_elem_of_cons in Hk.
      destruct Hk as [Hkt Hk]. rewrite Hout by exact Hk. apply Hother. exact Hkt.
Qed.

Section SeasonOver.
Context `{Env}.

(** Once the season is over, a team that finished ahead of every other
    (on points, or level on points and ahead on goal difference) is
    given 100 and every other team 0; no trial is run and nothing
    changes. *)
Theorem season_over_champion simulations (w : World) c ts :
  pointTo w (Teams (league w)) ts -> LWeek (league w) > 18 ->
  NoDup (Name <$> ts) -> c ∈ ts ->
  0 <= Points c -> -999 < GoalDifference c ->
  (forall t, t ∈ ts -> Name t ≠ Name c ->
     Points t < Points c \/
     Points t = Points c /\ GoalDifference t < GoalDifference c) ->
  exists counts : gmap string float,
    ChampionshipProbabilities simulations w = Some (counts, w) /\
    counts !! Name c = Some 100%float /\
    (forall t, t ∈ ts -> Name t ≠ Name c -> counts !! Name t = Some 0%float) /\
    (forall k, k ∉ Name <$> ts -> counts !! k = None).
Proof.
  intros Hpt Hweek Hnd Hc Hpos Hgd Hbetter.
  exists (seasonOver ts). split.
  - unfold ChampionshipProbabilities. apply bind_Some.
    exists (league w), w. split; [reflexivity|].
    case_bool_decide as Hlen.
    { apply Forall2_length in Hpt. rewrite Hlen in Hpt.
      destruct ts; [apply elem_of_nil in Hc; contradiction|discriminate]. }
    apply bind_Some. exists ts, w.
    split; [apply mapM'_deref_Some; exact Hpt|].
    destruct (Z.gtb_spec (LWeek (league w)) 18); [reflexivity|lia].
  - unfold seasonOver.
    rewrite (championsOf_unique c ts) by assumption. cbn [fold_left length].
    replace (div (fromInt 100) (fromInt (Z.of_nat 1))) with 100%float
      by reflexivity.
    destruct (zeros_fill (Name c) ts (<[Name c := 100%float]> ∅))
      as (Hc' & _ & Hts & Hout).
    + apply lookup_insert_eq.
    + intros k x Hk. rewrite lookup_insert_ne by congruence.
      rewrite lookup_empty. discriminate.
    + cbv zeta in *. split; [exact Hc'|]. split; [exact Hts|].
      intros k Hk. rewrite Hout by exact Hk.
      rewrite lookup_insert_ne; [apply lookup_empty|].
      intros <-. apply Hk. apply list_elem_of_fmap_2. exact Hc.
Qed.

End SeasonOver.

Lemma season_over_champion_witness :
  exists counts : gmap string float,
    ChampionshipProbabilities 10000 worldSeasonOver
      = Some (counts, worldSeasonOver) /\
    counts !! Name arsenal = Some 100%float /\
    (forall t, t ∈ decidedTeams -> Name t ≠ Name arsenal ->
       counts !! Name t = Some 0%float) /\
    (forall k, k ∉ Name <$> decidedTeams -> counts !! k = None).
Proof.
  apply (season_over_champion (H := lcgEnv) 10000 worldSeasonOver arsenal
           decidedTeams).
  - repeat constructor.
  - reflexivity.
  - vm_compute. repeat (apply NoDup_cons; split;
      [rewrite ?elem_of_cons, elem_of_nil; intuition discriminate|]).
    apply NoDup_nil_2.
  - unfold decidedTeams. rewrite !elem_of_cons. auto.
  - vm_compute. discriminate.
  - vm_compute. reflexivity.
  - intros t Ht Hne. unfold decidedTeams in Ht.
    rewrite !elem_of_cons, elem_of_nil in Ht.
    destruct Ht as [->|[->|[->|[->|[]]]]];
      first [contradiction | left; vm_compute; reflexivity].
Defined.

(** * Championship probabilities: the keys of the map *)






Section Keys.
Context `{Env}.


Lemma named_old w0 names w p t :
  named w0 names w -> (forall q u, heap w0 !! q = Some u -> Name u ∈ names) ->
  heap w !! p = Some t -> Name t ∈ names.
Proof.
  intros [(_ & _ & Hobj) Hnew] Hold Hp.
  destruct (decide (p < length (heap w0))%nat) as [Hlt|Hge].
  - destruct (lookup_lt_is_Some_2 _ _ Hlt) as [u Hu].
    pose proof (Hobj _ _ Hu) as Hu'. rewrite Hp in Hu'. injection Hu' as ->.
    eapply Hold. exact Hu.
  - eapply Hnew; [|exact Hp]. unfold fresh. lia.
Qed.







Section Engine.
Context {X : Type} `{Num X}.







End Engine.
End Keys.


(** * The standings replay as a tally of the results *)

Lemma tally_cons f p m ms :
  tally f p (m :: ms)
  = (if counted m then
       (if decide (HomeTeam m = p) then f (HomeGoals m) (AwayGoals m) else 0)
       + (if decide (AwayTeam m = p) then f (AwayGoals m) (HomeGoals m) else 0)
     else 0) + tally f p ms.
Proof. reflexivity. Qed.

Lemma tally_app f p ms1 ms2 :
  tally f p (ms1 ++ ms2) = tally f p ms1 + tally f p ms2.
Proof.
  induction ms1 as [|m ms1 IH]; [reflexivity|].
  rewrite <- app_comm_cons, !tally_cons, IH. lia.
Qed.

Section Tally.
Context `{Env}.
Variable p : ptr.
Variable Q : Z -> Team -> Prop.
Variable f : Z -> Z -> Z.
Hypothesis Q_step : forall n t goalsFor goalsAgainst t',
  Q n t -> UpdateTeamStats t goalsFor goalsAgainst = Some t' ->
  Q (n + f goalsFor goalsAgainst) t'.

Lemma updateAt_tally q gf ga w w' n t :
  heap w !! p = Some t -> Q n t ->
  updateAt q gf ga w = Some (tt, w') ->
  exists t', heap w' !! p = Some t' /\
             Q (n + (if decide (q = p) then f gf ga else 0)) t'.
Proof.
  intros Hp HQ Hrun. apply updateAt_Some in Hrun as (u & u' & Hq & Hu & [= ->]).
  cbn [heap setHeap]. destruct (decide (q = p)) as [->|Hne].
  - rewrite Hp in Hq. injection Hq as <-. exists u'. split.
    + apply list_lookup_insert_eq. eapply lookup_lt_Some; eauto.
    + eapply Q_step; eauto.
  - exists t. split; [rewrite list_lookup_insert_ne by exact Hne; exact Hp|].
    rewrite Z.add_0_r. exact HQ.
Qed.

Lemma replayMatches_tally ms : forall w w' n t,
  heap w !! p = Some t -> Q n t ->
  forM_ ms replayMatch w = Some (tt, w') ->
  exists t', heap w' !! p = Some t' /\ Q (n + tally f p ms) t'.
Proof.
  induction ms as [|m ms IH]; intros w w' n t Hp HQ Hrun.
  - apply ret_Some in Hrun as [= <-]. exists t.
    split; [exact Hp|]. change (tally f p []) with 0. rewrite Z.add_0_r. exact HQ.
  - cbn [forM_] in Hrun. apply bind_Some in Hrun as ([] & w1 & Hm & Hrest).
    rewrite tally_cons. unfold replayMatch in Hm. fold (counted m) in Hm.
    destruct (counted m).
    + apply bind_Some in Hm as ([] & w0 & Hhome & Haway).
      destruct (updateAt_tally _ _ _ _ _ _ _ Hp HQ Hhome) as (t0 & Hp0 & HQ0).
      destruct (updateAt_tally _ _ _ _ _ _ _ Hp0 HQ0 Haway) as (t1 & Hp1 & HQ1).
      destruct (IH _ _ _ _ Hp1 HQ1 Hrest) as (t' & Hp' & HQ').
      exists t'. split; [exact Hp'|].
      replace (n + ((if decide (HomeTeam m = p) then f (HomeGoals m) (AwayGoals m) else 0)
                    + (if decide (AwayTeam m = p) then f (AwayGoals m) (HomeGoals m) else 0)
                    + tally f p ms))
        with (n + (if decide (HomeTeam m = p) then f (HomeGoals m) (AwayGoals m) else 0)
                + (if decide (AwayTeam m = p) then f (AwayGoals m) (HomeGoals m) else 0)
                + tally f p ms) by lia.
      exact HQ'.
    + apply ret_Some in Hm as [= <-].
      destruct (IH _ _ _ _ Hp HQ Hrest) as (t' & Hp' & HQ').
      exists t'. split; [exact Hp'|]. rewrite Z.add_0_l. exact HQ'.
Qed.

Lemma replayWeeks_tally weeks : forall w w' n t,
  heap w !! p = Some t -> Q n t ->
  forM_ weeks (fun week => forM_ week replayMatch) w = Some (tt, w') ->
  exists t', heap w' !! p = Some t' /\ Q (n + tally f p (concat weeks)) t'.
Proof.
  induction weeks as [|week weeks IH]; intros w w' n t Hp HQ Hrun.
  - apply ret_Some in Hrun as [= <-]. exists t.
    split; [exact Hp|]. change (tally f p (concat [])) with 0.
    rewrite Z.add_0_r. exact HQ.
  - cbn [forM_] in Hrun. apply bind_Some in Hrun as ([] & w1 & Hweek & Hrest).
    destruct (replayMatches_tally _ _ _ _ _ Hp HQ Hweek) as (t1 & Hp1 & HQ1).
    destruct (IH _ _ _ _ Hp1 HQ1 Hrest) as (t' & Hp' & HQ').
    exists t'. split; [exact Hp'|].
    cbn [concat]. rewrite tally_app, Z.add_assoc. exact HQ'.
Qed.

End Tally.

Lemma tally_ext f g p ms :
  (forall a b, f a b = g a b) -> tally f p ms = tally g p ms.
Proof.
  intros Hfg. induction ms as [|m ms IH]; [reflexivity|].
  rewrite !tally_cons, IH, !Hfg. reflexivity.
Qed.

Lemma tally_add f g p ms :
  tally (fun a b => f a b + g a b) p ms = tally f p ms + tally g p ms.
Proof.
  induction ms as [|m ms IH]; [reflexivity|].
  rewrite !tally_cons, IH.
  destruct (counted m), (decide (HomeTeam m = p)), (decide (AwayTeam m = p)); lia.
Qed.

Lemma tally_opp f p ms : tally (fun a b => - f a b) p ms = - tally f p ms.
Proof.
  induction ms as [|m ms IH]; [reflexivity|].
  rewrite !tally_cons, IH.
  destruct (counted m), (decide (HomeTeam m = p)), (decide (AwayTeam m = p)); lia.
Qed.

Lemma one_result a b : winIn a b + drawIn a b + lossIn a b = 1.
Proof.
  unfold winIn, drawIn, lossIn. rewrite Z.gtb_ltb.
  destruct (Z.ltb_spec b a), (Z.eqb_spec a b), (Z.ltb_spec a b); lia.
Qed.

Lemma wrap_wrap_add a b : wrap (wrap a + b) = wrap (a + b).
Proof. fold (int_add (wrap a) b). fold (int_add a b). unfold int_add. int_eq. Qed.

Section Replayed.
Context `{Env}.

Lemma reset_loop_valid T : forall w w' p,
  forM_ T resetAt w = Some (tt, w') -> p ∈ T -> is_Some (heap w !! p).
Proof.
  induction T as [|q T IH]; intros w w' p Hres Hp.
  - apply elem_of_nil in Hp. contradiction.
  - cbn [forM_] in Hres. apply bind_Some in Hres as ([] & w2 & Hq & Hrest).
    apply resetAt_Some in Hq as (t & Hq & [= ->]).
    apply elem_of_cons in Hp as [->|Hp]; [eauto|].
    destruct (IH _ _ _ Hrest Hp) as [u Hu]. cbn [heap setHeap] in Hu.
    apply lookup_lt_is_Some. apply lookup_lt_Some in Hu.
    rewrite length_insert in Hu. exact Hu.
Qed.

(** What [ResetTeamStats] establishes at 0 and [UpdateTeamStats] moves
    by [f goalsFor goalsAgainst] holds, after the replay, at the tally of
    [f] over the team's counted matches. *)
Lemma recalculate_tally (Q : Z -> Team -> Prop) (f : Z -> Z -> Z) w w' p :
  (forall t, Q 0 (ResetTeamStats t)) ->
  (forall n t gf ga t', Q n t -> UpdateTeamStats t gf ga = Some t' ->
     Q (n + f gf ga) t') ->
  recalculateAllStats w = Some (tt, w') -> p ∈ Teams (league w) ->
  exists t, heap w' !! p = Some t /\ Q (tally f p (replayed (league w))) t.
Proof.
  intros Hreset Hstep Hrun Hp.
  apply recalculateAllStats_Some in Hrun as (w1 & Hres & Hrep).
  destruct (reset_loop _ _ _ Hres) as (_ & Hlen & Hlook).
  specialize (Hlook p). rewrite decide_True in Hlook by exact Hp.
  destruct (reset_loop_valid _ _ _ _ Hres Hp) as [t0 Ht0].
  rewrite Ht0 in Hlook. cbn [fmap option_fmap option_map] in Hlook.
  destruct (replayWeeks_tally p Q f Hstep _ _ _ 0 _ Hlook (Hreset t0) Hrep)
    as (t & Ht & Hc).
  exists t. split; [exact Ht|]. rewrite Z.add_0_l in Hc. exact Hc.
Qed.

Lemma UpdateTeamStats_fields t gf ga t' :
  UpdateTeamStats t gf ga = Some t' ->
  GoalsFor t' = int_add (GoalsFor t) gf /\
  GoalsAgainst t' = int_add (GoalsAgainst t) ga /\
  GoalDifference t' = int_sub (GoalsFor t') (GoalsAgainst t') /\
  Played t' = int_add (int_add (Won t') (Drawn t')) (Lost t') /\
  Won t' = (if gf >? ga then int_add (Won t) 1 else Won t) /\
  Drawn t' = (if gf >? ga then Drawn t
              else if gf =? ga then int_add (Drawn t) 1 else Drawn t) /\
  Lost t' = (if gf >? ga then Lost t
             else if gf =? ga then Lost t else int_add (Lost t) 1) /\
  Points t' = (if gf >? ga then int_add (Points t) 3
               else if gf =? ga then int_add (Points t) 1 else Points t).
Proof.
  intros Hu. unfold UpdateTeamStats in Hu.
  case_bool_decide; [discriminate|].
  destruct (gf >? ga); [|destruct (gf =? ga)]; injection Hu as <-;
    repeat split.
Qed.

(** The games and the points of a team after the replay. *)
Lemma recalculate_games w w' p :
  recalculateAllStats w = Some (tt, w') -> p ∈ Teams (league w) ->
  exists t, heap w' !! p = Some t /\
    Played t = wrap (tally (fun _ _ => 1) p (replayed (league w))) /\
    Won t = wrap (tally winIn p (replayed (league w))) /\
    Drawn t = wrap (tally drawIn p (replayed (league w))) /\
    Lost t = wrap (tally lossIn p (replayed (league w))) /\
    Points t = wrap (tally pointsIn p (replayed (league w))).
Proof.
  intros Hrun Hp. set (ms := replayed (league w)).
  destruct (recalculate_tally (fun n t => Won t = wrap n) winIn w w' p)
    as (t & Ht & HW); [reflexivity| |exact Hrun|exact Hp|].
  { intros n u gf ga u' Hn Hu.
    apply UpdateTeamStats_fields in Hu as (_ & _ & _ & _ & -> & _).
    unfold winIn. destruct (gf >? ga).
    - rewrite Hn. apply wrap_wrap_add.
    - rewrite Hn, Z.add_0_r. reflexivity. }
  destruct (recalculate_tally (fun n t => Drawn t = wrap n) drawIn w w' p)
    as (t1 & Ht1 & HD); [reflexivity| |exact Hrun|exact Hp|].
  { intros n u gf ga u' Hn Hu.
    apply UpdateTeamStats_fields in Hu as (_ & _ & _ & _ & _ & -> & _).
    unfold drawIn. rewrite Z.gtb_ltb.
    destruct (Z.ltb_spec ga gf), (Z.eqb_spec gf ga); try lia;
      rewrite Hn, ?Z.add_0_r; first [reflexivity|apply wrap_wrap_add]. }
  destruct (recalculate_tally (fun n t => Lost t = wrap n) lossIn w w' p)
    as (t2 & Ht2 & HL); [reflexivity| |exact Hrun|exact Hp|].
  { intros n u gf ga u' Hn Hu.
    apply UpdateTeamStats_fields in Hu as (_ & _ & _ & _ & _ & _ & -> & _).
    unfold lossIn. rewrite Z.gtb_ltb.
    destruct (Z.ltb_spec ga gf), (Z.eqb_spec gf ga), (Z.ltb_spec gf ga);
      try lia; rewrite Hn, ?Z.add_0_r; first [reflexivity|apply wrap_wrap_add]. }
  destruct (recalculate_tally (fun n t => Points t = wrap n) pointsIn w w' p)
    as (t5 & Ht5 & HP); [reflexivity| |exact Hrun|exact Hp|].
  { intros n u gf ga u' Hn Hu.
    apply UpdateTeamStats_fields in Hu as (_ & _ & _ & _ & _ & _ & _ & ->).
    unfold pointsIn. destruct (gf >? ga); [|destruct (gf =? ga)];
      rewrite Hn, ?Z.add_0_r; first [reflexivity|apply wrap_wrap_add]. }
  destruct (recalculate_tally
              (fun _ t => Played t = int_add (int_add (Won t) (Drawn t)) (Lost t))
              (fun _ _ => 0) w w' p)
    as (t6 & Ht6 & HPl); [reflexivity| |exact Hrun|exact Hp|].
  { intros n u gf ga u' _ Hu.
    apply UpdateTeamStats_fields in Hu as (_ & _ & _ & HPl & _). exact HPl. }
  rewrite Ht in Ht1, Ht2, Ht5, Ht6.
  injection Ht1 as <-. injection Ht2 as <-. injection Ht5 as <-.
  injection Ht6 as <-.
  fold ms in HW, HD, HL, HP.
  exists t. split; [exact Ht|]. repeat split; try assumption.
  rewrite HPl, HW, HD, HL.
  rewrite (tally_ext (fun _ _ => 1)
             (fun a b => winIn a b + drawIn a b + lossIn a b))
    by (intros; symmetry; apply one_result).
  rewrite (tally_add (fun a b => winIn a b + drawIn a b) lossIn).
  rewrite (tally_add winIn drawIn).
  generalize (tally winIn p ms), (tally drawIn p ms), (tally lossIn p ms).
  intros a b c. int_eq.
Qed.

(** After [recalculateAllStats], the eight counters of every team of
    the league are the tallies of the matches the replay counts (played
    or fixed, in the weeks before [l.Week]), in the arithmetic of [int]:
    one game, the goals on either side, and a win, a draw or a loss with
    3, 1 or 0 points for every match the team takes part in. *)
Theorem recalculateAllStats_tally w w' p :
  recalculateAllStats w = Some (tt, w') -> p ∈ Teams (league w) ->
  exists t, heap w' !! p = Some t /\
    Played t = wrap (tally (fun _ _ => 1) p (replayed (league w))) /\
    Won t = wrap (tally winIn p (replayed (league w))) /\
    Drawn t = wrap (tally drawIn p (replayed (league w))) /\
    Lost t = wrap (tally lossIn p (replayed (league w))) /\
    GoalsFor t = wrap (tally (fun gf _ => gf) p (replayed (league w))) /\
    GoalsAgainst t = wrap (tally (fun _ ga => ga) p (replayed (league w))) /\
    GoalDifference t
      = wrap (tally (fun gf ga => gf - ga) p (replayed (league w))) /\
    Points t = wrap (tally pointsIn p (replayed (league w))).
Proof.
  intros Hrun Hp. set (ms := replayed (league w)).
  destruct (recalculate_games w w' p Hrun Hp)
    as (t & Ht & HPl & HW & HD & HL & HP).
  destruct (recalculate_tally (fun n t => GoalsFor t = wrap n)
              (fun gf _ => gf) w w' p)
    as (t3 & Ht3 & HGF); [reflexivity| |exact Hrun|exact Hp|].
  { intros n u gf ga u' Hn Hu.
    apply UpdateTeamStats_fields in Hu as (-> & _).
    rewrite Hn. apply wrap_wrap_add. }
  destruct (recalculate_tally (fun n t => GoalsAgainst t = wrap n)
              (fun _ ga => ga) w w' p)
    as (t4 & Ht4 & HGA); [reflexivity| |exact Hrun|exact Hp|].
  { intros n u gf ga u' Hn Hu.
    apply UpdateTeamStats_fields in Hu as (_ & -> & _).
    rewrite Hn. apply wrap_wrap_add. }
  destruct (recalculate_tally
              (fun _ t =>
                 GoalDifference t = int_sub (GoalsFor t) (GoalsAgainst t))
              (fun _ _ => 0) w w' p)
    as (t6 & Ht6 & HGD); [reflexivity| |exact Hrun|exact Hp|].
  { intros n u gf ga u' _ Hu.
    apply UpdateTeamStats_fields in Hu as (_ & _ & HGD & _). exact HGD. }
  rewrite Ht in Ht3, Ht4, Ht6.
  injection Ht3 as <-. injection Ht4 as <-. injection Ht6 as <-.
  fold ms in HPl, HW, HD, HL, HGF, HGA, HP.
  exists t. split; [exact Ht|]. repeat split; try assumption.
  rewrite HGD, HGF, HGA.
  rewrite (tally_ext (fun gf ga => gf - ga)
             (fun gf ga => (fun a _ => a) gf ga + (fun _ b => - b) gf ga))
    by (intros; lia).
  rewrite (tally_add (fun a _ => a) (fun _ b => - b)).
  rewrite (tally_opp (fun _ b => b)).
  generalize (tally (fun a _ => a) p ms), (tally (fun _ b => b) p ms).
  intros a b. int_eq.
Qed.

End Replayed.

Lemma recalculateAllStats_tally_witness :
  exists w', recalculateAllStats worldAfterWeekOne = Some (tt, w') /\
  exists t, heap w' !! 0%nat = Some t /\
    Played t = wrap (tally (fun _ _ => 1) 0%nat (replayed (league worldAfterWeekOne))) /\
    Won t = wrap (tally winIn 0%nat (replayed (league worldAfterWeekOne))) /\
    Drawn t = wrap (tally drawIn 0%nat (replayed (league worldAfterWeekOne))) /\
    Lost t = wrap (tally lossIn 0%nat (replayed (league worldAfterWeekOne))) /\
    GoalsFor t
      = wrap (tally (fun gf _ => gf) 0%nat (replayed (league worldAfterWeekOne))) /\
    GoalsAgainst t
      = wrap (tally (fun _ ga => ga) 0%nat (replayed (league worldAfterWeekOne))) /\
    GoalDifference t
      = wrap (tally (fun gf ga => gf - ga) 0%nat
                (replayed (league worldAfterWeekOne))) /\
    Points t = wrap (tally pointsIn 0%nat (replayed (league worldAfterWeekOne))).
Proof.
  pose proof replay_after_week_one_returns as Hret.
  destruct (recalculateAllStats worldAfterWeekOne) as [[[] w1]|] eqn:Hrun;
    [|discriminate].
  exists w1. split; [reflexivity|].
  apply (recalculateAllStats_tally (H := lcgEnv) worldAfterWeekOne w1 0%nat Hrun).
  vm_compute. left.
Defined.

(** * The standings replay and the form *)

Lemma results_cons p m ms :
  results p (m :: ms)
  = (if counted m then
       (if decide (HomeTeam m = p)
        then [resultCode (HomeGoals m) (AwayGoals m)] else [])
       ++ (if decide (AwayTeam m = p)
           then [resultCode (AwayGoals m) (HomeGoals m)] else [])
     else []) ++ results p ms.
Proof. reflexivity. Qed.

Lemma results_app p ms1 ms2 :
  results p (ms1 ++ ms2) = results p ms1 ++ results p ms2.
Proof.
  unfold results. rewrite map_app, concat_app. reflexivity.
Qed.

Lemma UpdateTeamStats_pushes t gf ga t' :
  UpdateTeamStats t gf ga = Some t' ->
  Form t' = resultCode gf ga :: take 4 (Form t).
Proof.
  unfold UpdateTeamStats, resultCode. case_bool_decide; [discriminate|].
  destruct (gf >? ga); [|destruct (gf =? ga)]; intros [= <-]; reflexivity.
Qed.

Lemma push_take5 (code : string) cs F0 :
  code :: take 4 (take 5 (reverse cs ++ F0))
  = take 5 (reverse (cs ++ [code]) ++ F0).
Proof.
  rewrite reverse_app. cbn [reverse app]. rewrite reverse_singleton.
  cbn [app take]. f_equal. rewrite take_take. reflexivity.
Qed.

Section FormReplay.
Context `{Env}.
Variable p : ptr.
Variable F0 : list string.

Lemma updateAt_form q gf ga w w' cs t :
  heap w !! p = Some t -> Form t = take 5 (reverse cs ++ F0) ->
  updateAt q gf ga w = Some (tt, w') ->
  exists t', heap w' !! p = Some t' /\
    Form t' = take 5 (reverse (cs ++ (if decide (q = p)
                                      then [resultCode gf ga] else [])) ++ F0).
Proof.
  intros Hp HF Hrun. apply updateAt_Some in Hrun as (u & u' & Hq & Hu & [= ->]).
  cbn [heap setHeap]. destruct (decide (q = p)) as [->|Hne].
  - rewrite Hp in Hq. injection Hq as <-. exists u'. split.
    + apply list_lookup_insert_eq. eapply lookup_lt_Some; eauto.
    + rewrite (UpdateTeamStats_pushes _ _ _ _ Hu), HF. apply push_take5.
  - exists t. split; [rewrite list_lookup_insert_ne by exact Hne; exact Hp|].
    rewrite app_nil_r. exact HF.
Qed.

Lemma replayMatches_form ms : forall w w' cs t,
  heap w !! p = Some t -> Form t = take 5 (reverse cs ++ F0) ->
  forM_ ms replayMatch w = Some (tt, w') ->
  exists t', heap w' !! p = Some t' /\
    Form t' = take 5 (reverse (cs ++ results p ms) ++ F0).
Proof.
  induction ms as [|m ms IH]; intros w w' cs t Hp HF Hrun.
  - apply ret_Some in Hrun as [= <-]. exists t.
    split; [exact Hp|]. change (results p []) with (@nil string).
    rewrite app_nil_r. exact HF.
  - cbn [forM_] in Hrun. apply bind_Some in Hrun as ([] & w1 & Hm & Hrest).
    rewrite results_cons. unfold replayMatch in Hm. fold (counted m) in Hm.
    destruct (counted m).
    + apply bind_Some in Hm as ([] & w0 & Hhome & Haway).
      destruct (updateAt_form _ _ _ _ _ _ _ Hp HF Hhome) as (t0 & Hp0 & HF0).
      destruct (updateAt_form _ _ _ _ _ _ _ Hp0 HF0 Haway) as (t1 & Hp1 & HF1).
      destruct (IH _ _ _ _ Hp1 HF1 Hrest) as (t' & Hp' & HF').
      exists t'. split; [exact Hp'|]. rewrite HF', <- !app_assoc. reflexivity.
    + apply ret_Some in Hm as [= <-].
      destruct (IH _ _ _ _ Hp HF Hrest) as (t' & Hp' & HF').
      exists t'. split; [exact Hp'|]. exact HF'.
Qed.

Lemma replayWeeks_form weeks : forall w w' cs t,
  heap w !! p = Some t -> Form t = take 5 (reverse cs ++ F0) ->
  forM_ weeks (fun week => forM_ week replayMatch) w = Some (tt, w') ->
  exists t', heap w' !! p = Some t' /\
    Form t' = take 5 (reverse (cs ++ results p (concat weeks)) ++ F0).
Proof.
  induction weeks as [|week weeks IH]; intros w w' cs t Hp HF Hrun.
  - apply ret_Some in Hrun as [= <-]. exists t.
    split; [exact Hp|]. change (results p (concat [])) with (@nil string).
    rewrite app_nil_r. exact HF.
  - cbn [forM_] in Hrun. apply bind_Some in Hrun as ([] & w1 & Hweek & Hrest).
    destruct (replayMatches_form _ _ _ _ _ Hp HF Hweek) as (t1 & Hp1 & HF1).
    destruct (IH _ _ _ _ Hp1 HF1 Hrest) as (t' & Hp' & HF').
    exists t'. split; [exact Hp'|].
    cbn [concat]. rewrite results_app, app_assoc. exact HF'.
Qed.

End FormReplay.

Section FormAfterReplay.
Context `{Env}.

(** [recalculateAllStats] does not reset the form: it pushes the results
    of all the team's counted matches, oldest first, on top of the form
    the team had before. From five counted matches on, the form is the
    last five results; with fewer, the entries behind them are what the
    form held before the replay (results of an earlier replay of the
    same matches included). *)
Theorem recalculateAllStats_form w w' p t0 :
  recalculateAllStats w = Some (tt, w') ->
  heap w !! p = Some t0 -> (length (Form t0) <= 5)%nat ->
  exists t, heap w' !! p = Some t /\
    Form t = take 5 (reverse (results p (replayed (league w))) ++ Form t0) /\
    ((5 <= length (results p (replayed (league w))))%nat ->
     Form t = take 5 (reverse (results p (replayed (league w))))).
Proof.
  intros Hrun Ht0 Hlen.
  apply recalculateAllStats_Some in Hrun as (w1 & Hres & Hrep).
  destruct (reset_loop _ _ _ Hres) as (_ & _ & Hlook).
  specialize (Hlook p). rewrite Ht0 in Hlook.
  cbn [fmap option_fmap option_map] in Hlook.
  set (t1 := (if decide (p ∈ Teams (league w)) then ResetTeamStats else id) t0)
    in Hlook.
  assert (HF1 : Form t1 = take 5 (reverse [] ++ Form t0)).
  { cbn [reverse app]. rewrite take_ge by exact Hlen.
    unfold t1. destruct (decide (p ∈ Teams (league w))); reflexivity. }
  destruct (replayWeeks_form p (Form t0) _ _ _ [] _ Hlook HF1 Hrep)
    as (t & Ht & HF).
  cbn [app] in HF. exists t. split; [exact Ht|]. split; [exact HF|].
  intros Hfive. rewrite HF. apply take_app_le. rewrite length_reverse. exact Hfive.
Qed.

End FormAfterReplay.

Lemma recalculateAllStats_form_witness :
  exists w', recalculateAllStats worldAfterWeekOne = Some (tt, w') /\
  exists t, heap w' !! 0%nat = Some t /\
    Form t = take 5 (reverse (results 0%nat (replayed (league worldAfterWeekOne)))
                     ++ ["";"";"";"";""]%string) /\
    ((5 <= length (results 0%nat (replayed (league worldAfterWeekOne))))%nat ->
     Form t = take 5 (reverse (results 0%nat (replayed (league worldAfterWeekOne))))).
Proof.
  pose proof replay_after_week_one_returns as Hret.
  destruct (recalculateAllStats worldAfterWeekOne) as [[[] w1]|] eqn:Hrun;
    [|discriminate].
  exists w1. split; [reflexivity|].
  apply (recalculateAllStats_form (H := lcgEnv) worldAfterWeekOne w1 0%nat
           (mkTeam "Manchester City" 0 0 0 0 0 0 0 0 85 85 emptyForm) Hrun).
  - reflexivity.
  - vm_compute. lia.
Defined.

(** * Playing a week *)

Section Returns.
Context `{Env}.

Lemma updateAt_returns p gf ga w :
  (p < length (heap w))%nat -> formsOK w ->
  exists w', updateAt p gf ga w = Some (tt, w') /\
    formsOK w' /\ length (heap w') = length (heap w) /\
    league w' = league w /\ rng w' = rng w /\ ticks w' = ticks w.
Proof.
  intros Hp Hforms. destruct (lookup_lt_is_Some_2 _ _ Hp) as [t Ht].
  assert (Hlen : (4 <= length (Form t))%nat).
  { unfold formsOK in Hforms. rewrite Forall_forall in Hforms.
    apply Hforms. eapply list_elem_of_lookup_2. exact Ht. }
  destruct (UpdateTeamStats_total t gf ga Hlen) as [t' Hu].
  exists (setHeap w (<[p := t']> (heap w))). split.
  - apply updateAt_Some. eauto.
  - cbn [heap league rng ticks setHeap]. rewrite length_insert.
    repeat split. unfold formsOK. cbn [heap setHeap].
    apply Forall_insert; [exact Hforms|].
    rewrite (UpdateTeamStats_Form_length _ _ _ _ Hu). lia.
Qed.

Lemma replayMatch_returns m w :
  validMatch w m -> formsOK w ->
  exists w', replayMatch m w = Some (tt, w') /\
    formsOK w' /\ length (heap w') = length (heap w) /\
    league w' = league w /\ rng w' = rng w /\ ticks w' = ticks w.
Proof.
  intros [Hh Ha] Hforms. unfold replayMatch.
  destruct (IsPlayed m || IsFixed m).
  - destruct (updateAt_returns (HomeTeam m) (HomeGoals m) (AwayGoals m) w Hh Hforms)
      as (w1 & Hrun1 & Hf1 & Hl1 & Hg1 & Hr1 & Ht1).
    destruct (updateAt_returns (AwayTeam m) (AwayGoals m) (HomeGoals m) w1)
      as (w2 & Hrun2 & Hf2 & Hl2 & Hg2 & Hr2 & Ht2); [lia|exact Hf1|].
    exists w2. split; [apply bind_Some; eauto|].
    repeat split; congruence.
  - exists w. repeat split; auto.
Qed.

Lemma loop_returns {A} (ok : World -> A -> Prop) (body : A -> M unit) (l : list A) :
  (forall a w, ok w a -> formsOK w ->
     exists w', body a w = Some (tt, w') /\
       formsOK w' /\ length (heap w') = length (heap w) /\
       league w' = league w /\ rng w' = rng w /\ ticks w' = ticks w) ->
  (forall a w w', length (heap w') = length (heap w) -> ok w a -> ok w' a) ->
  forall w, Forall (ok w) l -> formsOK w ->
  exists w', forM_ l body w = Some (tt, w') /\
    formsOK w' /\ length (heap w') = length (heap w) /\
    league w' = league w /\ rng w' = rng w /\ ticks w' = ticks w.
Proof.
  intros Hbody Hok. induction l as [|a l IH]; intros w Hall Hforms.
  - exists w. repeat split; auto.
  - apply Forall_cons in Hall as [Ha Hall].
    destruct (Hbody a w Ha Hforms) as (w1 & Hrun1 & Hf1 & Hl1 & Hg1 & Hr1 & Ht1).
    destruct (IH w1) as (w2 & Hrun2 & Hf2 & Hl2 & Hg2 & Hr2 & Ht2).
    + eapply Forall_impl; [exact Hall|]. intros b Hb. eapply Hok; eauto.
    + exact Hf1.
    + exists w2. split; [cbn [forM_]; apply bind_Some; eauto|].
      repeat split; congruence.
Qed.

Lemma validMatch_same m w w' :
  length (heap w') = length (heap w) -> validMatch w m -> validMatch w' m.
Proof. unfold validMatch. intros ->. auto. Qed.

Lemma recalculateAllStats_total w :
  formsOK w ->
  Forall (fun p => (p < length (heap w))%nat) (Teams (league w)) ->
  Forall (Forall (validMatch w))
    (take (Z.to_nat (LWeek (league w))) (Fixtures (league w))) ->
  exists w', recalculateAllStats w = Some (tt, w') /\
    formsOK w' /\ length (heap w') = length (heap w) /\ league w' = league w.
Proof.
  intros Hforms Hteams Hmatches.
  destruct (loop_returns (fun w p => (p < length (heap w))%nat) resetAt
              (Teams (league w))) with (w := w)
    as (w1 & Hrun1 & Hf1 & Hl1 & Hg1 & Hr1 & Ht1);
    [| |exact Hteams|exact Hforms|].
  { intros p u Hp Hfu. destruct (lookup_lt_is_Some_2 _ _ Hp) as [t Ht].
    exists (setHeap u (<[p := ResetTeamStats t]> (heap u))). split.
    - apply resetAt_Some. eauto.
    - cbn [heap league rng ticks setHeap]. rewrite length_insert.
      repeat split. unfold formsOK. cbn [heap setHeap].
      apply Forall_insert; [exact Hfu|]. cbn [Form ResetTeamStats].
      unfold formsOK in Hfu. rewrite Forall_forall in Hfu.
      apply Hfu. eapply list_elem_of_lookup_2. exact Ht. }
  { intros p u u' Hlen. rewrite Hlen. auto. }
  destruct (loop_returns (fun w week => Forall (validMatch w) week)
              (fun week => forM_ week replayMatch)
              (take (Z.to_nat (LWeek (league w))) (Fixtures (league w))))
    with (w := w1)
    as (w2 & Hrun2 & Hf2 & Hl2 & Hg2 & Hr2 & Ht2).
  { intros week u Hweek Hfu.
    apply (loop_returns validMatch replayMatch week); try assumption.
    - intros m v. apply replayMatch_returns.
    - intros m v v'. apply validMatch_same. }
  { intros week u u' Hlen Hweek. eapply Forall_impl; [exact Hweek|].
    intros m. apply validMatch_same. exact Hlen. }
  { eapply Forall_impl; [exact Hmatches|]. intros week Hweek.
    eapply Forall_impl; [exact Hweek|].
    intros m. apply validMatch_same. exact Hl1. }
  { exact Hf1. }
  exists w2. split.
  - apply recalculateAllStats_Some. exists w1. split; [exact Hrun1|exact Hrun2].
  - repeat split; congruence.
Qed.



(** [recalculateAllStats] goes through (no nil or dangling team, no
    slice out of range) when the teams of the league and of the matches
    it replays are objects of the arena and every form has at least four
    entries; it then leaves the league, the random source and the clock
    as they were, and every form with at least four entries. *)
Theorem recalculateAllStats_returns w :
  formsOK w ->
  Forall (fun p => (p < length (heap w))%nat) (Teams (league w)) ->
  Forall (Forall (validMatch w))
    (take (Z.to_nat (LWeek (league w))) (Fixtures (league w))) ->
  exists w', recalculateAllStats w = Some (tt, w') /\
    formsOK w' /\ length (heap w') = length (heap w) /\
    league w' = league w /\ rng w' = rng w /\ ticks w' = ticks w.
Proof.
  intros Hforms Hteams Hmatches.
  destruct (loop_returns (fun w p => (p < length (heap w))%nat) resetAt
              (Teams (league w))) with (w := w)
    as (w1 & Hrun1 & Hf1 & Hl1 & Hg1 & Hr1 & Ht1);
    [| |exact Hteams|exact Hforms|].
  { intros p u Hp Hfu. destruct (lookup_lt_is_Some_2 _ _ Hp) as [t Ht].
    exists (setHeap u (<[p := ResetTeamStats t]> (heap u))). split.
    - apply resetAt_Some. eauto.
    - cbn [heap league rng ticks setHeap]. rewrite length_insert.
      repeat split. unfold formsOK. cbn [heap setHeap].
      apply Forall_insert; [exact Hfu|]. cbn [Form ResetTeamStats].
      unfold formsOK in Hfu. rewrite Forall_forall in Hfu.
      apply Hfu. eapply list_elem_of_lookup_2. exact Ht. }
  { intros p u u' Hlen. rewrite Hlen. auto. }
  destruct (loop_returns (fun w week => Forall (validMatch w) week)
              (fun week => forM_ week replayMatch)
              (take (Z.to_nat (LWeek (league w))) (Fixtures (league w))))
    with (w := w1)
    as (w2 & Hrun2 & Hf2 & Hl2 & Hg2 & Hr2 & Ht2).
  { intros week u Hweek Hfu.
    apply (loop_returns validMatch replayMatch week); try assumption.
    - intros m v. apply replayMatch_returns.
    - intros m v v'. apply validMatch_same. }
  { intros week u u' Hlen Hweek. eapply Forall_impl; [exact Hweek|].
    intros m. apply validMatch_same. exact Hlen. }
  { eapply Forall_impl; [exact Hmatches|]. intros week Hweek.
    eapply Forall_impl; [exact Hweek|].
    intros m. apply validMatch_same. exact Hl1. }
  { exact Hf1. }
  exists w2. split.
  - apply recalculateAllStats_Some. exists w1. split; [exact Hrun1|exact Hrun2].
  - repeat split; congruence.
Qed.

End Returns.

Lemma recalculateAllStats_returns_witness :
  exists w', recalculateAllStats worldAfterWeekOne = Some (tt, w') /\
    formsOK w' /\ length (heap w') = length (heap worldAfterWeekOne) /\
    league w' = league worldAfterWeekOne /\ rng w' = rng worldAfterWeekOne /\
    ticks w' = ticks worldAfterWeekOne.
Proof.
  apply (recalculateAllStats_returns (H := lcgEnv) worldAfterWeekOne).
  - unfold formsOK. repeat constructor.
  - repeat constructor.
  - vm_compute. repeat constructor.
Defined.

Section Week.
Context `{Env}.

Lemma playAt_returns week i w cur m :
  IntnInRange ->
  Fixtures (league w) !! week = Some cur -> cur !! i = Some m ->
  validMatch w m ->
  exists m' w',
    playAt week i w = Some (tt, w') /\ playedFrom m m' /\
    league w' = mkLeague (Teams (league w)) (LWeek (league w))
                  (<[week := <[i := m']> cur]> (Fixtures (league w))) /\
    heap w' = heap w.
Proof.
  intros Hrange Hweek Hi [Hh Ha]. unfold playAt, playedFrom.
  destruct (lookup_lt_is_Some_2 _ _ Hh) as [home Hhome].
  destruct (lookup_lt_is_Some_2 _ _ Ha) as [away Haway].
  destruct (IsFixed m) eqn:Hfixed.
  - exists m, w. split.
    + apply bind_Some. exists (league w), w. split; [reflexivity|].
      rewrite Hweek, Hi, Hfixed. reflexivity.
    + split; [reflexivity|]. split; [|reflexivity].
      rewrite (list_insert_id cur i m Hi), (list_insert_id _ week cur Hweek).
      destruct (league w); reflexivity.
  - destruct (predictMatchResult_returns home away w Hrange)
      as (hg & ag & w1 & Hrun & Hscore & Hheap & Hleague).
    exists (played hg ag m),
           (mkWorld (heap w1)
              (mkLeague (Teams (league w)) (LWeek (league w))
                 (<[week := <[i := played hg ag m]> cur]> (Fixtures (league w))))
              (rng w1) (ticks w1)).
    split; [|split; [|split]].
    + apply bind_Some. exists (league w), w. split; [reflexivity|].
      rewrite Hweek, Hi, Hfixed.
      apply bind_Some. exists home, w. split; [apply deref_Some; eauto|].
      apply bind_Some. exists away, w. split; [apply deref_Some; eauto|].
      apply bind_Some. exists (hg, ag), w1. split; [exact Hrun|]. reflexivity.
    + exists hg, ag. split; [reflexivity|]. exact Hscore.
    + reflexivity.
    + exact Hheap.
Qed.

Lemma playFrom week (todo : list Match) : forall (done : list Match) w,
  IntnInRange ->
  Fixtures (league w) !! week = Some (done ++ todo) ->
  Forall (validMatch w) todo ->
  exists todo' w',
    forM_ (seq (length done) (length todo)) (playAt week) w = Some (tt, w') /\
    Forall2 playedFrom todo todo' /\
    league w' = mkLeague (Teams (league w)) (LWeek (league w))
                  (<[week := done ++ todo']> (Fixtures (league w))) /\
    heap w' = heap w.
Proof.
  induction todo as [|m todo IH]; intros done w Hrange Hweek Hvalid.
  - exists [], w. split; [reflexivity|]. split; [constructor|].
    split; [|reflexivity].
    rewrite (list_insert_id _ week _ Hweek). destruct (league w); reflexivity.
  - apply Forall_cons in Hvalid as [Hm Hvalid].
    destruct (playAt_returns week (length done) w (done ++ m :: todo) m Hrange Hweek)
      as (m' & w1 & Hrun1 & Hrel & Hleague1 & Hheap1);
      [apply list_lookup_middle; reflexivity|exact Hm|].
    assert (Hins : <[length done := m']> (done ++ m :: todo)
                   = (done ++ [m']) ++ todo).
    { rewrite insert_app_r_alt by lia. rewrite Nat.sub_diag.
      cbn [insert list_insert]. rewrite <- app_assoc. reflexivity. }
    rewrite Hins in Hleague1.
    destruct (IH (done ++ [m']) w1 Hrange) as (todo' & w2 & Hrun2 & Hrel2 & Hleague2 & Hheap2).
    + rewrite Hleague1. cbn [Fixtures]. apply list_lookup_insert_eq.
      eapply lookup_lt_Some. exact Hweek.
    + eapply Forall_impl; [exact Hvalid|]. intros x.
      apply validMatch_same. rewrite Hheap1. reflexivity.
    + exists (m' :: todo'), w2. split; [|split; [|split]].
      * cbn [length seq forM_]. apply bind_Some. exists tt, w1.
        split; [exact Hrun1|].
        rewrite length_app in Hrun2. cbn [length] in Hrun2.
        rewrite Nat.add_1_r in Hrun2. exact Hrun2.
      * constructor; assumption.
      * rewrite Hleague2, Hleague1. cbn [Teams LWeek Fixtures].
        rewrite list_insert_insert_eq, <- app_assoc. reflexivity.
      * congruence.
Qed.

Lemma validMatch_playedFrom w w' ms ms' :
  length (heap w') = length (heap w) ->
  Forall2 playedFrom ms ms' -> Forall (validMatch w) ms ->
  Forall (validMatch w') ms'.
Proof.
  intros Hlen Hrel. induction Hrel as [|m m' ms ms' Hm _ IH]; intros Hvalid;
    [constructor|].
  apply Forall_cons in Hvalid as [[Vh Va] Hvalid].
  constructor; [|apply IH; exact Hvalid].
  assert (Hsame : HomeTeam m' = HomeTeam m /\ AwayTeam m' = AwayTeam m).
  { unfold playedFrom in Hm. destruct (IsFixed m); [subst; auto|].
    destruct Hm as (hg & ag & -> & _). auto. }
  destruct Hsame as [Hh Ha]. unfold validMatch. rewrite Hh, Ha, Hlen. auto.
Qed.

Lemma playWeek_returns w ms :
  IntnInRange ->
  1 <= LWeek (league w) <= maxInt64 ->
  Fixtures (league w) !! Z.to_nat (LWeek (league w) - 1) = Some ms ->
  Forall (validMatch w) ms ->
  exists ms' w',
    playWeek w = Some (tt, w') /\ Forall2 playedFrom ms ms' /\
    league w' = mkLeague (Teams (league w)) (LWeek (league w))
                  (<[Z.to_nat (LWeek (league w) - 1) := ms']> (Fixtures (league w))) /\
    heap w' = heap w.
Proof.
  intros Hrange Hweek Hms Hvalid.
  assert (Hsub : int_sub (LWeek (league w)) 1 = LWeek (league w) - 1).
  { apply wrap_small. unfold minInt64, maxInt64 in *. lia. }
  destruct (playFrom (Z.to_nat (LWeek (league w) - 1)) ms [] w Hrange Hms Hvalid)
    as (ms' & w' & Hrun & Hrel & Hleague & Hheap).
  exists ms', w'. split; [|auto].
  unfold playWeek. apply bind_Some. exists (league w), w. split; [reflexivity|].
  cbv zeta. rewrite Hsub.
  destruct (Z.ltb_spec (LWeek (league w) - 1) 0); [lia|].
  rewrite Hms. exact Hrun.
Qed.

Lemma simulateNextWeek_step w l ms :
  IntnInRange ->
  enterFirstWeek (league w) = Some l ->
  1 <= LWeek l <= 18 ->
  Fixtures l !! Z.to_nat (LWeek l - 1) = Some ms ->
  formsOK w ->
  Forall (fun p => (p < length (heap w))%nat) (Teams l) ->
  Forall (Forall (validMatch w)) (take (Z.to_nat (LWeek l + 1)) (Fixtures l)) ->
  exists ms' w',
    simulateNextWeek w = Some (tt, w') /\
    Forall2 playedFrom ms ms' /\
    league w' = mkLeague (Teams l) (LWeek l + 1)
                  (<[Z.to_nat (LWeek l - 1) := ms']> (Fixtures l)) /\
    length (heap w') = length (heap w) /\ formsOK w' /\
    exists w2, league w2 = league w' /\ recalculateAllStats w2 = Some (tt, w').
Proof.
  intros Hrange Henter Hweek Hms Hforms Hteams Hmatches.
  set (w0 := mkWorld (heap w) l (rng w) (ticks w)).
  assert (Hvalid : Forall (validMatch w0) ms).
  { rewrite Forall_forall in Hmatches. apply (Hmatches ms).
    apply list_elem_of_lookup. exists (Z.to_nat (LWeek l - 1)).
    rewrite lookup_take_lt by lia. exact Hms. }
  destruct (playWeek_returns w0 ms Hrange) as (ms' & w1 & Hplay & Hrel & Hleague1 & Hheap1);
    [unfold maxInt64; cbn [league w0]; lia|exact Hms|exact Hvalid|].
  cbn [league heap w0] in Hleague1, Hheap1.
  set (l2 := mkLeague (Teams l) (LWeek l + 1)
               (<[Z.to_nat (LWeek l - 1) := ms']> (Fixtures l))).
  set (w2 := mkWorld (heap w1) l2 (rng w1) (ticks w1)).
  assert (Hlen2 : length (heap w2) = length (heap w))
    by (cbn [heap w2]; rewrite Hheap1; reflexivity).
  destruct (recalculateAllStats_total w2) as (w3 & Hrecalc & Hforms3 & Hlen3 & Hleague3).
  { unfold formsOK. cbn [heap w2]. rewrite Hheap1. exact Hforms. }
  { cbn [league heap w2 l2 Teams]. rewrite Hheap1. exact Hteams. }
  { cbn [league heap w2 l2 Fixtures LWeek].
    apply Forall_forall. intros week Hin.
    apply list_elem_of_lookup in Hin as [i Hi].
    apply lookup_take_Some in Hi as [Hi Hlt].
    destruct (decide (i = Z.to_nat (LWeek l - 1))) as [->|Hne].
    - rewrite list_lookup_insert_eq in Hi by (eapply lookup_lt_Some; exact Hms).
      injection Hi as <-.
      exact (validMatch_playedFrom w w2 ms ms' Hlen2 Hrel Hvalid).
    - rewrite list_lookup_insert_ne in Hi by congruence.
      rewrite Forall_forall in Hmatches.
      assert (Hweek' : Forall (validMatch w) week).
      { apply Hmatches. apply list_elem_of_lookup. exists i.
        apply lookup_take_Some. split; [exact Hi|exact Hlt]. }
      eapply Forall_impl; [exact Hweek'|]. intros m.
      apply validMatch_same. exact Hlen2. }
  exists ms', w3. split; [|split; [exact Hrel|split; [|split; [|split]]]].
  - unfold simulateNextWeek. apply bind_Some. exists (league w), w.
    split; [reflexivity|].
    apply bind_Some. exists l, w. split; [unfold liftOption; rewrite Henter; reflexivity|].
    apply bind_Some. exists tt, w0. split; [reflexivity|].
    destruct (Z.gtb_spec (LWeek l) 18); [lia|].
    apply bind_Some. exists tt, w1. split; [exact Hplay|].
    apply bind_Some. exists (league w1), w1. split; [reflexivity|].
    apply bind_Some. exists tt, w2. split; [|exact Hrecalc].
    unfold setLeague, w2, l2. rewrite Hleague1. cbn [Teams LWeek Fixtures].
    replace (int_add (LWeek l) 1) with (LWeek l + 1); [reflexivity|].
    symmetry. apply wrap_small. unfold minInt64, maxInt64. lia.
  - rewrite Hleague3. reflexivity.
  - rewrite Hlen3. cbn [heap w2]. rewrite Hheap1. reflexivity.
  - exact Hforms3.
  - exists w2. split; [symmetry; exact Hleague3|exact Hrecalc].
Qed.

(** A click on "Simulate Next Week" while the season is on (the league
    in a week 1 to 18 once week 0 is left, the teams of the league and
    of the matches up to this week being objects of the arena with forms
    of at least four entries, and [rand.Intn(n)] in [[0, n)]) goes
    through: the week moves on by one, the teams of the league are the
    same, only the matches of this week change: a fixed match keeps its
    result, any other is marked played with at most three goals on
    either side. *)
Theorem simulateNextWeek_plays_week w l ms :
  IntnInRange ->
  enterFirstWeek (league w) = Some l ->
  1 <= LWeek l <= 18 ->
  Fixtures l !! Z.to_nat (LWeek l - 1) = Some ms ->
  formsOK w ->
  Forall (fun p => (p < length (heap w))%nat) (Teams l) ->
  Forall (Forall (validMatch w)) (take (Z.to_nat (LWeek l + 1)) (Fixtures l)) ->
  exists ms' w',
    simulateNextWeek w = Some (tt, w') /\
    Teams (league w') = Teams l /\
    LWeek (league w') = LWeek l + 1 /\
    Fixtures (league w') !! Z.to_nat (LWeek l - 1) = Some ms' /\
    Forall2 playedFrom ms ms' /\
    (forall j, j ≠ Z.to_nat (LWeek l - 1) ->
       Fixtures (league w') !! j = Fixtures l !! j) /\
    length (heap w') = length (heap w) /\ formsOK w'.
Proof.
  intros Hrange Henter Hweek Hms Hforms Hteams Hmatches.
  destruct (simulateNextWeek_step w l ms Hrange Henter Hweek Hms Hforms Hteams
              Hmatches) as (ms' & w' & Hrun & Hrel & Hleague & Hlen & Hforms' & _).
  exists ms', w'. rewrite Hleague. cbn [Teams LWeek Fixtures].
  split; [exact Hrun|]. split; [reflexivity|]. split; [reflexivity|].
  split; [apply list_lookup_insert_eq; eapply lookup_lt_Some; exact Hms|].
  split; [exact Hrel|]. split; [|split; assumption].
  intros j Hj. apply list_lookup_insert_ne. congruence.
Qed.

End Week.


Lemma simulateNextWeek_plays_week_witness :
  exists ms' w',
    simulateNextWeek worldWeekZero = Some (tt, w') /\
    Teams (league w') = Teams leagueWeekOne /\
    LWeek (league w') = LWeek leagueWeekOne + 1 /\
    Fixtures (league w') !! Z.to_nat (LWeek leagueWeekOne - 1) = Some ms' /\
    Forall2 playedFrom weekOneMatches ms' /\
    (forall j, j ≠ Z.to_nat (LWeek leagueWeekOne - 1) ->
       Fixtures (league w') !! j = Fixtures leagueWeekOne !! j) /\
    length (heap w') = length (heap worldWeekZero) /\ formsOK w'.
Proof.
  apply (simulateNextWeek_plays_week (H := lcgEnv) worldWeekZero leagueWeekOne
           weekOneMatches).
  - exact lcgEnv_IntnInRange.
  - reflexivity.
  - cbn. lia.
  - reflexivity.
  - unfold formsOK. repeat constructor.
  - repeat constructor.
  - vm_compute. repeat constructor.
Defined.

(** * Championship probabilities: no panic *)

Section Safe.
Context `{Env}.

Lemma returns_ret {A} (P : nat -> Prop) (a : A) (Q : A -> nat -> Prop) :
  (forall n, P n -> Q a n) -> returns P (mret a) Q.
Proof.
  intros HPQ w Hforms HP. exists a, w. split; [reflexivity|].
  split; [exact Hforms|]. split; [lia|]. auto.
Qed.

Lemma returns_bind {A B} (P : nat -> Prop) (R : A -> nat -> Prop)
    (Q : B -> nat -> Prop) (m : M A) (k : A -> M B) :
  returns P m R -> (forall a, returns (R a) (k a) Q) -> returns P (m ≫= k) Q.
Proof.
  intros Hm Hk w Hforms HP.
  destruct (Hm w Hforms HP) as (a & w1 & Hrun1 & Hf1 & Hl1 & HR).
  destruct (Hk a w1 Hf1 HR) as (b & w2 & Hrun2 & Hf2 & Hl2 & HQ).
  exists b, w2. split; [apply bind_Some; eauto|].
  split; [exact Hf2|]. split; [lia|exact HQ].
Qed.

Lemma returns_weaken {A} (P P' : nat -> Prop) (Q Q' : A -> nat -> Prop) (m : M A) :
  returns P' m Q' -> (forall n, P n -> P' n) -> (forall a n, Q' a n -> Q a n) ->
  returns P m Q.
Proof.
  intros Hm HP HQ w Hforms Hw.
  destruct (Hm w Hforms (HP _ Hw)) as (a & w' & Hrun & Hf & Hl & Hq).
  exists a, w'. auto.
Qed.

(** What holds of the size of the arena before holds after a
    computation that goes through, if a larger arena still meets it. *)
Lemma returns_frame {A} (F P : nat -> Prop) (Q : A -> nat -> Prop) (m : M A) :
  upward F -> returns P m Q ->
  returns (fun n => F n /\ P n) m (fun a n => F n /\ Q a n).
Proof.
  intros HF Hm w Hforms [Hw HP].
  destruct (Hm w Hforms HP) as (a & w' & Hrun & Hf & Hl & Hq).
  exists a, w'. split; [exact Hrun|]. split; [exact Hf|]. split; [exact Hl|].
  split; [eapply HF; eauto|exact Hq].
Qed.

Lemma returns_pure {A} (fact : Prop) (P : nat -> Prop) (m : M A) Q :
  (fact -> returns P m Q) -> returns (fun n => P n /\ fact) m Q.
Proof. intros Hm w Hforms [HP Hfact]. apply Hm; assumption. Qed.

Lemma returns_forM_ {A} (P : nat -> Prop) (l : list A) (body : A -> M unit) :
  (forall a, a ∈ l -> returns P (body a) (fun _ => P)) ->
  returns P (forM_ l body) (fun _ => P).
Proof.
  induction l as [|a l IH]; intros Hbody.
  - apply returns_ret. auto.
  - cbn [forM_]. eapply returns_bind; [apply Hbody; left|].
    intros u. apply IH. intros b Hb. apply Hbody. right. exact Hb.
Qed.

Lemma returns_mapM' {A B} (P : nat -> Prop) (R : B -> nat -> Prop)
    (l : list A) (f : A -> M B) :
  (forall b, upward (R b)) ->
  (forall a, a ∈ l -> returns P (f a) (fun b n => P n /\ R b n)) ->
  returns P (mapM' f l) (fun bs n => P n /\ Forall (fun b => R b n) bs).
Proof.
  intros HR. induction l as [|a l IH]; intros Hf.
  - apply returns_ret. auto.
  - cbn [mapM']. intros w Hforms HP.
    destruct (Hf a (list_elem_of_here _ _) w Hforms HP)
      as (b & w1 & Hrun1 & Hf1 & Hl1 & HP1 & Hb).
    destruct (IH (fun a' Hin => Hf a' (list_elem_of_further _ _ _ Hin)) w1 Hf1 HP1)
      as (bs & w2 & Hrun2 & Hf2 & Hl2 & HP2 & Hbs).
    exists (b :: bs), w2. split.
    + apply bind_Some. exists b, w1. split; [exact Hrun1|].
      apply bind_Some. exists bs, w2. split; [exact Hrun2|reflexivity].
    + split; [exact Hf2|]. split; [lia|]. split; [exact HP2|].
      constructor; [|exact Hbs]. eapply HR; [|exact Hb]. exact Hl2.
Qed.

(** ** The primitive steps *)

Lemma upward_live ps : upward (live ps).
Proof.
  intros n n' Hle Hl. unfold live in *. eapply Forall_impl; [exact Hl|].
  intros p Hp. simpl in Hp. lia.
Qed.

Lemma upward_liveMatches ms : upward (liveMatches ms).
Proof.
  intros n n' Hle Hl. unfold liveMatches in *. eapply Forall_impl; [exact Hl|].
  intros m [? ?]. lia.
Qed.

Lemma upward_and (P Q : nat -> Prop) :
  upward P -> upward Q -> upward (fun n => P n /\ Q n).
Proof. intros HP HQ n n' Hle [? ?]. split; [eapply HP|eapply HQ]; eauto. Qed.

Lemma returns_deref (P : nat -> Prop) p :
  returns (fun n => P n /\ (p < n)%nat) (deref p)
          (fun t n => P n /\ (4 <= length (Form t))%nat).
Proof.
  intros w Hforms [HP Hp]. destruct (lookup_lt_is_Some_2 _ _ Hp) as [t Ht].
  exists t, w. split; [apply deref_Some; eauto|].
  split; [exact Hforms|]. split; [lia|]. split; [exact HP|].
  unfold formsOK in Hforms. rewrite Forall_forall in Hforms.
  apply Hforms. eapply list_elem_of_lookup_2. exact Ht.
Qed.

Lemma returns_alloc (P : nat -> Prop) t :
  upward P -> (4 <= length (Form t))%nat ->
  returns P (alloc t) (fun p n => P n /\ (p < n)%nat).
Proof.
  intros HP Ht w Hforms Hw. unfold alloc.
  eexists _, _. split; [reflexivity|]. cbn [heap]. rewrite length_app. cbn [length].
  split; [|split; [lia|split; [eapply HP; [|exact Hw]; lia|lia]]].
  unfold formsOK. cbn [heap]. apply Forall_app. split; [exact Hforms|].
  constructor; [exact Ht|constructor].
Qed.

Lemma returns_updateAt (P : nat -> Prop) p gf ga :
  returns (fun n => P n /\ (p < n)%nat) (updateAt p gf ga) (fun _ => P).
Proof.
  intros w Hforms [HP Hp]. destruct (lookup_lt_is_Some_2 _ _ Hp) as [t Ht].
  assert (Hlen : (4 <= length (Form t))%nat).
  { unfold formsOK in Hforms. rewrite Forall_forall in Hforms.
    apply Hforms. eapply list_elem_of_lookup_2. exact Ht. }
  destruct (UpdateTeamStats_total t gf ga Hlen) as [t' Hu].
  exists tt, (setHeap w (<[p := t']> (heap w))). split.
  - apply updateAt_Some. eauto.
  - cbn [heap setHeap]. rewrite length_insert.
    split; [|split; [lia|exact HP]].
    unfold formsOK. cbn [heap setHeap]. apply Forall_insert; [exact Hforms|].
    rewrite (UpdateTeamStats_Form_length _ _ _ _ Hu). lia.
Qed.

Lemma returns_predictMatchResult (P : nat -> Prop) team1 team2 :
  IntnInRange ->
  returns P (predictMatchResult team1 team2) (fun _ => P).
Proof.
  intros Hrange w Hforms HP.
  destruct (predictMatchResult_returns team1 team2 w Hrange)
    as (a & b & w' & Hrun & _ & Hheap & _).
  exists (a, b), w'. split; [exact Hrun|]. unfold formsOK. rewrite Hheap.
  split; [exact Hforms|]. split; [lia|exact HP].
Qed.

Lemma returns_findCopy (P : nat -> Prop) name teamsCopy : forall found,
  returns (fun n => P n /\ live teamsCopy n)
          (findCopy name teamsCopy found)
          (fun r n => P n /\ live teamsCopy n /\
                      (r = found \/ exists p, r = Some p /\ p ∈ teamsCopy)).
Proof.
  induction teamsCopy as [|p ps IH]; intros found.
  - apply returns_ret. intros n [HP Hl]. auto.
  - cbn [findCopy]. intros w Hforms [HP Hl].
    assert (Hp : (p < length (heap w))%nat)
      by (unfold live in Hl; apply Forall_cons in Hl as [? _]; assumption).
    destruct (lookup_lt_is_Some_2 _ _ Hp) as [t Ht].
    assert (Hl' : live ps (length (heap w)))
      by (unfold live in *; apply Forall_cons in Hl as [_ ?]; assumption).
    destruct (IH (if String.eqb (Name t) name then Some p else found) w Hforms
                 (conj HP Hl')) as (r & w' & Hrun & Hf & Hlen & HP' & _ & Hr).
    exists r, w'. split.
    + apply bind_Some. exists t, w. split; [apply deref_Some; eauto|exact Hrun].
    + split; [exact Hf|]. split; [exact Hlen|]. split; [exact HP'|].
      split; [eapply upward_live; eauto|].
      destruct Hr as [->|(q & -> & Hq)].
      * destruct (String.eqb (Name t) name); [|left; reflexivity].
        right. exists p. split; [reflexivity|left].
      * right. exists q. split; [reflexivity|right; exact Hq].
Qed.

Lemma getLeague_bind {A} (k : League -> M A) w :
  (getLeague ≫= k) w = k (league w) w.
Proof. reflexivity. Qed.

Lemma live_elem ps n p : live ps n -> p ∈ ps -> (p < n)%nat.
Proof. unfold live. rewrite Forall_forall. auto. Qed.

Lemma returns_deref_keep (P : nat -> Prop) p :
  (forall n, P n -> (p < n)%nat) ->
  returns P (deref p) (fun t n => P n /\ (4 <= length (Form t))%nat).
Proof.
  intros Hp. eapply returns_weaken; [apply (returns_deref P p)| |auto].
  intros n HP. split; [exact HP|apply Hp; exact HP].
Qed.

Lemma returns_simulateMatch teamsCopy m :
  IntnInRange ->
  returns (fun n => live teamsCopy n /\
                    (HomeTeam m < n)%nat /\ (AwayTeam m < n)%nat)
          (simulateMatch teamsCopy m)
          (fun _ n => live teamsCopy n /\
                      (HomeTeam m < n)%nat /\ (AwayTeam m < n)%nat).
Proof.
  intros Hrange.
  set (P := fun n => live teamsCopy n /\
                     (HomeTeam m < n)%nat /\ (AwayTeam m < n)%nat).
  assert (Hfound : forall name,
            returns P (findCopy name teamsCopy None)
              (fun r n => P n /\ forall p, r = Some p -> p ∈ teamsCopy)).
  { intros name. eapply returns_weaken;
      [apply (returns_findCopy P name teamsCopy None)| |].
    - intros n HP. split; [exact HP|apply HP].
    - intros r n (HP & _ & [->|(q & -> & Hq)]); (split; [exact HP|]).
      + intros p [=].
      + intros p [= <-]. exact Hq. }
  unfold simulateMatch.
  eapply returns_bind; [apply (returns_deref_keep P); intros n HP; apply HP|].
  intros homeTeam. apply returns_pure. intros _.
  eapply returns_bind; [apply (returns_deref_keep P); intros n HP; apply HP|].
  intros awayTeam. apply returns_pure. intros _.
  eapply returns_bind; [apply Hfound|]. intros home. apply returns_pure. intros Hhome.
  eapply returns_bind; [apply Hfound|]. intros away. apply returns_pure. intros Haway.
  destruct home as [home|]; [|apply returns_ret; auto].
  destruct away as [away|]; [|apply returns_ret; auto].
  specialize (Hhome home eq_refl). specialize (Haway away eq_refl).
  assert (Hlive : forall q, q ∈ teamsCopy -> forall n, P n -> (q < n)%nat).
  { intros q Hq n [Hl _]. eapply live_elem; eauto. }
  eapply returns_bind; [apply (returns_deref_keep P); apply Hlive; exact Hhome|].
  intros h. apply returns_pure. intros _.
  eapply returns_bind; [apply (returns_deref_keep P); apply Hlive; exact Haway|].
  intros a. apply returns_pure. intros _.
  eapply returns_bind; [apply (returns_predictMatchResult P); exact Hrange|].
  intros [hg ag].
  apply (returns_bind P (fun _ => P)).
  { eapply returns_weaken; [apply (returns_updateAt P home)| |].
    - intros n HP. split; [exact HP|]. eapply Hlive; eauto.
    - intros u n HP. exact HP. }
  intros u. eapply returns_weaken; [apply (returns_updateAt P away)| |].
  - intros n HP. split; [exact HP|]. eapply Hlive; eauto.
  - intros v n HP. exact HP.
Qed.

Section Engine.
Context {X : Type} `{Num X}.

Lemma returns_trial l :
  IntnInRange -> 1 <= LWeek l <= maxInt64 ->
  returns (fun n => live (Teams l) n /\ liveMatches (concat (Fixtures l)) n)
          (trial l)
          (fun _ n => live (Teams l) n /\ liveMatches (concat (Fixtures l)) n).
Proof.
  intros Hrange Hweek.
  set (P := fun n => live (Teams l) n /\ liveMatches (concat (Fixtures l)) n).
  assert (HP : upward P).
  { apply upward_and; [apply upward_live|apply upward_liveMatches]. }
  unfold trial. eapply returns_bind.
  { apply (returns_mapM' P (fun p n => (p < n)%nat)).
    - intros p n n' Hle Hp. lia.
    - intros p Hp. eapply returns_bind.
      + apply (returns_deref_keep P). intros n [Hl _]. eapply live_elem; eauto.
      + intros t. apply returns_pure. intros Ht.
        apply returns_alloc; [exact HP|exact Ht]. }
  intros teamsCopy.
  eapply returns_bind.
  { cbv zeta.
    replace (int_sub (LWeek l) 1) with (LWeek l - 1)
      by (symmetry; apply wrap_small; unfold minInt64, maxInt64 in *; lia).
    destruct (Z.ltb_spec (LWeek l - 1) 0); [lia|].
    apply (returns_forM_ (fun n => P n /\ live teamsCopy n)).
    intros week Hweekin.
    apply (returns_forM_ (fun n => P n /\ live teamsCopy n)).
    intros m Hm.
    assert (Hin : m ∈ concat (Fixtures l)).
    { apply list_elem_of_In, in_concat. exists week.
      split; apply list_elem_of_In; [|exact Hm].
      rewrite <- (take_drop (Z.to_nat (LWeek l - 1)) (Fixtures l)).
      apply elem_of_app. right. exact Hweekin. }
    eapply returns_weaken;
      [apply (returns_frame P _ _ (simulateMatch teamsCopy m) HP
                (returns_simulateMatch teamsCopy m Hrange))| |].
    - intros n [HPn Hl]. split; [exact HPn|]. split; [exact Hl|].
      destruct HPn as [_ Hms]. unfold liveMatches in Hms.
      rewrite Forall_forall in Hms. apply Hms. exact Hin.
    - intros u n [HPn [Hl _]]. auto. }
  intros u. eapply returns_bind.
  { apply (returns_mapM' (fun n => P n /\ live teamsCopy n)
             (fun (_ : Team) (_ : nat) => True)).
    - intros t n n' _ _. exact I.
    - intros p Hp. eapply returns_weaken;
        [apply (returns_deref_keep (fun n => P n /\ live teamsCopy n) p)| |].
      + intros n [_ Hl]. eapply live_elem; eauto.
      + auto.
      + intros t n [HPn _]. auto. }
  intros final. apply returns_ret. intros n [[HPn _] _]. exact HPn.
Qed.

Lemma returns_trials l n : forall (counts : gmap string X) valid,
  IntnInRange -> 1 <= LWeek l <= maxInt64 ->
  returns (fun n => live (Teams l) n /\ liveMatches (concat (Fixtures l)) n)
          (trials n l counts valid)
          (fun _ n => live (Teams l) n /\ liveMatches (concat (Fixtures l)) n).
Proof.
  induction n as [|n IH]; intros counts valid Hrange Hweek.
  - apply returns_ret. auto.
  - cbn [trials]. eapply returns_bind; [apply returns_trial; assumption|].
    intros [|c cs]; apply IH; assumption.
Qed.

Lemma ChampionshipProbabilities_total simulations w :
  IntnInRange -> 0 <= LWeek (league w) <= maxInt64 ->
  formsOK w ->
  live (Teams (league w)) (length (heap w)) ->
  liveMatches (concat (Fixtures (league w))) (length (heap w)) ->
  exists (counts : gmap string X) w',
    ChampionshipProbabilities simulations w = Some (counts, w') /\ formsOK w'.
Proof.
  intros Hrange Hweek Hforms Hteams Hmatches.
  set (P := fun n => live (Teams (league w)) n /\
                     liveMatches (concat (Fixtures (league w))) n).
  assert (Hderefs : returns P (mapM' deref (Teams (league w)))
                      (fun _ n => P n)).
  { eapply returns_weaken;
      [apply (returns_mapM' P (fun (_ : Team) (_ : nat) => True))|auto|].
    - intros t n n' _ _. exact I.
    - intros p Hp. eapply returns_weaken; [apply (returns_deref_keep P p)|auto|].
      + intros n [Hl _]. eapply live_elem; eauto.
      + intros t n [HPn _]. auto.
    - intros ts n [HPn _]. exact HPn. }
  assert (Hgoal :
    returns P
      (if bool_decide (length (Teams (league w)) = 0%nat) then mret ∅
       else ts ← mapM' deref (Teams (league w));
            if LWeek (league w) >? 18 then mret (seasonOver ts)
            else if leaderUnreachable ts then mret (leaderHasWon ts)
            else if LWeek (league w) =? 0 then mret (coldStart ts)
            else monteCarlo simulations (league w))
      (fun (_ : gmap string X) n => P n)).
  { case_bool_decide; [apply returns_ret; auto|].
    eapply returns_bind; [exact Hderefs|]. intros ts.
    destruct (LWeek (league w) >? 18); [apply returns_ret; auto|].
    destruct (leaderUnreachable ts); [apply returns_ret; auto|].
    destruct (Z.eqb_spec (LWeek (league w)) 0); [apply returns_ret; auto|].
    unfold monteCarlo. eapply returns_bind.
    { apply (returns_trials (league w)); [exact Hrange|lia]. }
    intros [counts valid]. destruct (valid >? 0); [apply returns_ret; auto|].
    eapply returns_bind; [exact Hderefs|]. intros ts'. apply returns_ret. auto. }
  destruct (Hgoal w Hforms (conj Hteams Hmatches)) as (counts & w' & Hrun & Hforms' & _).
  exists counts, w'. split; [|exact Hforms'].
  unfold ChampionshipProbabilities.
  rewrite getLeague_bind. exact Hrun.
Qed.

(** [ChampionshipProbabilities] does not panic, whatever the number of
    simulations, when the week is not negative, the teams of the league
    and of every match are objects of the arena with forms of at least
    four entries, and [rand.Intn(n)] is in [[0, n)]. The league and the
    objects there were are then as before, and every form, also of the
    copies made, has at least four entries: the call can be repeated. *)
Theorem ChampionshipProbabilities_returns simulations w :
  IntnInRange -> 0 <= LWeek (league w) <= maxInt64 ->
  formsOK w ->
  live (Teams (league w)) (length (heap w)) ->
  liveMatches (concat (Fixtures (league w))) (length (heap w)) ->
  exists (counts : gmap string X) w',
    ChampionshipProbabilities simulations w = Some (counts, w') /\
    keeps w w' /\ formsOK w' /\
    live (Teams (league w')) (length (heap w')) /\
    liveMatches (concat (Fixtures (league w'))) (length (heap w')).
Proof.
  intros Hrange Hweek Hforms Hteams Hmatches.
  destruct (ChampionshipProbabilities_total simulations w Hrange Hweek Hforms
              Hteams Hmatches) as (counts & w' & Hrun & Hforms').
  pose proof (hoare_ChampionshipProbabilities w simulations w counts w'
                (keeps_refl w) Hrun) as Hkeeps.
  exists counts, w'. split; [exact Hrun|]. split; [exact Hkeeps|].
  split; [exact Hforms'|].
  destruct Hkeeps as (Hleague & Hlen & _). rewrite Hleague.
  split.
  - eapply Forall_impl; [exact Hteams|]. cbn. intros p Hp. lia.
  - eapply Forall_impl; [exact Hmatches|]. cbn. intros m [Hh Ha]. lia.
Qed.

End Engine.
End Safe.

Lemma ChampionshipProbabilities_returns_witness :
  exists (counts : gmap string float) w',
    ChampionshipProbabilities 10000 worldWeekTwo = Some (counts, w') /\
    keeps worldWeekTwo w' /\ formsOK w' /\
    live (Teams (league w')) (length (heap w')) /\
    liveMatches (concat (Fixtures (league w'))) (length (heap w')).
Proof.
  apply (ChampionshipProbabilities_returns (H := lcgEnv) (X := float) 10000
           worldWeekTwo).
  - exact lcgEnv_IntnInRange.
  - vm_compute. split; discriminate.
  - unfold formsOK. repeat constructor.
  - repeat constructor.
  - vm_compute. repeat constructor.
Defined.

(** * The season, week by week *)

Lemma appearances_cons p m ms :
  appearances p (m :: ms)
  = ((if decide (plays p m) then 1 else 0) + appearances p ms)%nat.
Proof.
  unfold appearances. rewrite filter_cons.
  destruct (decide (plays p m)); reflexivity.
Qed.

(** The games of a team in a week whose matches are all counted, or all
    not counted. *)
Lemma tally_games_week p ms (c : bool) :
  Forall (fun m => HomeTeam m ≠ AwayTeam m /\ counted m = c) ms ->
  tally (fun _ _ => 1) p ms = if c then Z.of_nat (appearances p ms) else 0.
Proof.
  induction 1 as [|m ms [Hne Hc] _ IH]; [destruct c; reflexivity|].
  rewrite tally_cons, appearances_cons, IH, Hc.
  destruct c; [|reflexivity].
  unfold plays.
  destruct (decide (HomeTeam m = p)), (decide (AwayTeam m = p)),
    (decide (HomeTeam m = p \/ AwayTeam m = p)); try lia; try congruence; tauto.
Qed.

Lemma tally_games_weeks p (K : nat) : forall fx (j0 : nat),
  (forall i week, fx !! i = Some week ->
     tally (fun _ _ => 1) p week = if bool_decide (j0 + i < K)%nat then 1 else 0) ->
  tally (fun _ _ => 1) p (concat fx) = Z.of_nat (min (length fx) (K - j0)).
Proof.
  induction fx as [|week fx IH]; intros j0 Hw; [reflexivity|].
  cbn [concat]. rewrite tally_app, (Hw 0%nat week eq_refl), (IH (S j0)).
  - cbn [length]. case_bool_decide; lia.
  - intros i wk Hi. rewrite (Hw (S i) wk Hi).
    replace (j0 + S i)%nat with (S j0 + i)%nat by lia. reflexivity.
Qed.

Lemma pointsIn_bound a b : 0 <= pointsIn a b <= 3.
Proof. unfold pointsIn. destruct (a >? b), (a =? b); lia. Qed.

Lemma tally_points_bound p ms :
  0 <= tally pointsIn p ms <= 3 * tally (fun _ _ => 1) p ms.
Proof.
  induction ms as [|m ms IH]; [cbn; lia|].
  rewrite !tally_cons.
  pose proof (pointsIn_bound (HomeGoals m) (AwayGoals m)).
  pose proof (pointsIn_bound (AwayGoals m) (HomeGoals m)).
  destruct (counted m), (decide (HomeTeam m = p)), (decide (AwayTeam m = p)); lia.
Qed.

Lemma appearances_same p ms ms' :
  Forall2 (fun m m' => HomeTeam m' = HomeTeam m /\ AwayTeam m' = AwayTeam m) ms ms' ->
  appearances p ms' = appearances p ms.
Proof.
  induction 1 as [|m m' ms ms' [Hh Ha] _ IH]; [reflexivity|].
  rewrite !appearances_cons, IH.
  destruct (decide (plays p m')) as [Hp'|Hp'], (decide (plays p m)) as [Hp|Hp];
    try reflexivity; exfalso; unfold plays in *; rewrite Hh, Ha in *; tauto.
Qed.

Lemma counted_false m : counted m = false -> IsPlayed m = false /\ IsFixed m = false.
Proof. unfold counted. destruct (IsPlayed m), (IsFixed m); auto; discriminate. Qed.

Lemma playedFrom_uncounted m m' :
  counted m = false -> playedFrom m m' ->
  HomeTeam m' = HomeTeam m /\ AwayTeam m' = AwayTeam m /\ counted m' = true.
Proof.
  intros Hc Hp. apply counted_false in Hc as [_ Hf].
  unfold playedFrom in Hp. rewrite Hf in Hp.
  destruct Hp as (hg & ag & -> & _). repeat split.
Qed.

Section SeasonProofs.
Context `{Env}.

(** In week [k] of a season every team has [k - 1] counted games in the
    weeks the replay goes through. *)
Lemma season_games T k w p :
  seasonShape T k w -> 1 <= k <= 19 -> p ∈ T ->
  tally (fun _ _ => 1) p (replayed (league w)) = k - 1.
Proof.
  intros (_ & _ & Hweek & _ & _ & Hlen & Hfx) Hk Hp.
  unfold replayed. rewrite Hweek.
  rewrite (tally_games_weeks p (Z.to_nat (k - 1)) _ 0).
  - rewrite length_take, Hlen. lia.
  - intros i week Hi. apply lookup_take_Some in Hi as [Hi Hlt].
    destruct (Hfx i week Hi) as [Happ Hall].
    rewrite (tally_games_week p week (bool_decide (Z.of_nat i < k - 1))).
    + rewrite (Happ p Hp). repeat case_bool_decide; lia.
    + eapply Forall_impl; [exact Hall|]. cbn. tauto.
Qed.

Lemma season_step T k w l :
  IntnInRange -> enterFirstWeek (league w) = Some l -> 1 <= k <= 18 ->
  seasonShape T k (mkWorld (heap w) l (rng w) (ticks w)) ->
  exists w',
    simulateNextWeek w = Some (tt, w') /\
    seasonShape T (k + 1) w' /\
    length (heap w') = length (heap w) /\
    forall p, p ∈ T ->
      exists t, heap w' !! p = Some t /\ Played t = k /\
                0 <= Points t <= 3 * k.
Proof.
  intros Hrange Henter Hk (Hperm & Hnd & Hweek & Hforms & Hlive & Hlen & Hfx).
  cbn [league heap] in Hperm, Hweek, Hlive, Hlen, Hfx.
  assert (Hforms0 : formsOK w) by exact Hforms.
  destruct (lookup_lt_is_Some_2 (Fixtures l) (Z.to_nat (k - 1))) as [ms Hms];
    [lia|].
  assert (HliveT : forall p, p ∈ T -> (p < length (heap w))%nat).
  { intros p Hp. unfold live in Hlive. rewrite Forall_forall in Hlive. auto. }
  destruct (simulateNextWeek_step w l ms Hrange Henter)
    as (ms' & w' & Hrun & Hrel & Hleague & Hheap & Hforms' & w2 & Hl2 & Hrecalc).
  { lia. }
  { rewrite Hweek. exact Hms. }
  { exact Hforms0. }
  { apply Forall_forall. intros p Hp. apply HliveT. rewrite <- Hperm. exact Hp. }
  { apply Forall_forall. intros week Hin.
    apply list_elem_of_lookup in Hin as [i Hi].
    apply lookup_take_Some in Hi as [Hi _].
    destruct (Hfx i week Hi) as [_ Hall].
    eapply Forall_impl; [exact Hall|]. intros m (Hh & Ha & _).
    split; apply HliveT; assumption. }
  rewrite Hweek in Hleague.
  assert (Hshape : seasonShape T (k + 1) w').
  { unfold seasonShape. rewrite Hleague. cbn [Teams LWeek Fixtures].
    split; [exact Hperm|]. split; [exact Hnd|]. split; [reflexivity|].
    split; [exact Hforms'|]. split; [rewrite Hheap; exact Hlive|].
    split; [rewrite length_insert; exact Hlen|].
    intros j matches Hj.
    destruct (decide (j = Z.to_nat (k - 1))) as [->|Hne].
    - rewrite list_lookup_insert_eq in Hj by (eapply lookup_lt_Some; exact Hms).
      injection Hj as <-.
      destruct (Hfx _ ms Hms) as [Happ Hall].
      assert (Hsame : Forall2 (fun m m' => HomeTeam m' = HomeTeam m /\
                                           AwayTeam m' = AwayTeam m /\
                                           counted m' = true) ms ms').
      { clear -Hall Hrel. induction Hrel as [|m m' ms ms' Hp _ IH];
          [constructor|].
        apply Forall_cons in Hall as [(_ & _ & _ & Hc) Hall].
        constructor; [|exact (IH Hall)].
        apply playedFrom_uncounted; [|exact Hp].
        rewrite Hc. apply bool_decide_eq_false. lia. }
      split.
      + intros p Hp. rewrite <- (Happ p Hp). apply appearances_same.
        eapply Forall2_impl; [exact Hsame|]. cbn. tauto.
      + clear -Hsame Hall Hk. induction Hsame as [|m m' ms ms' (Hh & Ha & Hc) _ IH];
          [constructor|].
        apply Forall_cons in Hall as [(? & ? & ? & _) Hall].
        constructor; [|exact (IH Hall)].
        rewrite Hh, Ha, Hc. repeat split; try assumption.
        symmetry. apply bool_decide_eq_true. lia.
    - rewrite list_lookup_insert_ne in Hj by congruence.
      destruct (Hfx j matches Hj) as [Happ Hall].
      split; [exact Happ|].
      eapply Forall_impl; [exact Hall|]. intros m (? & ? & ? & Hc).
      repeat split; try assumption. rewrite Hc.
      repeat case_bool_decide; try reflexivity; lia. }
  exists w'. split; [exact Hrun|]. split; [exact Hshape|].
  split; [exact Hheap|].
  intros p Hp.
  destruct (recalculate_games w2 w' p Hrecalc) as (t & Ht & HPl & _ & _ & _ & HPt).
  { rewrite Hl2, Hleague. cbn [Teams]. rewrite Hperm. exact Hp. }
  rewrite Hl2 in HPl, HPt.
  pose proof (tally_points_bound p (replayed (league w'))) as Hb.
  rewrite (season_games T (k + 1) w' p Hshape) in HPl, Hb by (lia || exact Hp).
  replace (k + 1 - 1) with k in HPl, Hb by lia.
  exists t. split; [exact Ht|].
  rewrite HPl, HPt, !wrap_small by (unfold minInt64, maxInt64; lia).
  split; [reflexivity|lia].
Qed.

(** The fixtures the first click generates have the shape of a season
    in week 1. *)
Lemma generated_shape w a b c d :
  Teams (league w) = [a; b; c; d] -> NoDup [a; b; c; d] ->
  LWeek (league w) = 0 ->
  formsOK w -> live [a; b; c; d] (length (heap w)) ->
  exists l, enterFirstWeek (league w) = Some l /\
    seasonShape [a; b; c; d] 1 (mkWorld (heap w) l (rng w) (ticks w)).
Proof.
  intros Ht Hnd Hweek Hforms Hlive.
  unfold enterFirstWeek. rewrite Hweek. cbn [Z.eqb].
  rewrite (generateFixtures_explicit _ a b c d) by exact Ht. cbv zeta.
  cbn [mbind option_bind]. eexists. split; [reflexivity|].
  unfold seasonShape. cbn [league heap Teams LWeek Fixtures].
  split; [rewrite Ht; reflexivity|]. split; [exact Hnd|].
  split; [reflexivity|]. split; [exact Hforms|]. split; [exact Hlive|].
  split; [reflexivity|].
  intros j matches Hj. unfold setWeekNumbers in Hj.
  rewrite list_lookup_imap in Hj.
  destruct (_ !! j) as [week|] eqn:Hweekj; [|discriminate].
  injection Hj as <-.
  apply list_elem_of_lookup_2 in Hweekj.
  destruct (NoDup4_ne _ _ _ _ Hnd) as (?&?&?&?&?&?).
  assert (Hz : bool_decide (Z.of_nat j < 1 - 1) = false)
    by (apply bool_decide_eq_false; lia).
  rewrite Hz. clear Hz.
  cbn [app] in Hweekj. rewrite !elem_of_cons, elem_of_nil in Hweekj.
  repeat (destruct Hweekj as [->|Hweekj];
    [split;
     [intros p Hp; unfold set_Week; simpl;
      apply appearances_two_matches;
      [repeat (apply NoDup_cons; split;
               [rewrite ?elem_of_cons, elem_of_nil; intuition congruence|]);
       apply NoDup_nil_2
      | revert Hp; rewrite !elem_of_cons, !elem_of_nil; tauto]
     |unfold set_Week; simpl;
      repeat constructor; cbn; rewrite ?elem_of_cons; auto 6]|]).
  contradiction.
Qed.

(** A click on "Simulate Next Week" in week [k] of a season (1 to 18,
    no match fixed ahead of its week) goes through and leaves a season
    in week [k + 1]: every team has then played exactly [k] games and
    has between 0 and [3 * k] points, and no team object was created. *)
Theorem simulateNextWeek_season T k w :
  IntnInRange -> 1 <= k <= 18 -> seasonShape T k w ->
  exists w',
    simulateNextWeek w = Some (tt, w') /\
    seasonShape T (k + 1) w' /\
    length (heap w') = length (heap w) /\
    forall p, p ∈ T ->
      exists t, heap w' !! p = Some t /\ Played t = k /\
                0 <= Points t <= 3 * k.
Proof.
  intros Hrange Hk Hshape.
  assert (Hweek : LWeek (league w) = k) by (destruct Hshape as (_ & _ & ? & _); assumption).
  apply (season_step T k w (league w) Hrange); [|exact Hk|].
  - unfold enterFirstWeek. destruct (Z.eqb_spec (LWeek (league w)) 0); [lia|reflexivity].
  - destruct w. exact Hshape.
Qed.

End SeasonProofs.

Lemma worldWeekOne_shape : seasonShape [0; 1; 2; 3]%nat 1 worldWeekOne.
Proof.
  destruct (generated_shape (H := lcgEnv) worldWeekZero 0%nat 1%nat 2%nat 3%nat)
    as (l & Henter & Hshape).
  - reflexivity.
  - repeat (apply NoDup_cons; split;
            [rewrite ?elem_of_cons, elem_of_nil; lia|]).
    apply NoDup_nil_2.
  - reflexivity.
  - unfold formsOK. repeat constructor.
  - repeat constructor.
  - change (enterFirstWeek (league worldWeekZero)) with (Some leagueWeekOne) in Henter.
    injection Henter as <-. exact Hshape.
Qed.

Lemma simulateNextWeek_season_witness :
  exists w',
    simulateNextWeek worldWeekOne = Some (tt, w') /\
    seasonShape [0; 1; 2; 3]%nat (1 + 1) w' /\
    length (heap w') = length (heap worldWeekOne) /\
    forall p, p ∈ [0; 1; 2; 3]%nat ->
      exists t, heap w' !! p = Some t /\ Played t = 1 /\
                0 <= Points t <= 3 * 1.
Proof.
  apply (simulateNextWeek_season (H := lcgEnv) [0; 1; 2; 3]%nat 1 worldWeekOne).
  - exact lcgEnv_IntnInRange.
  - lia.
  - exact worldWeekOne_shape.
Defined.

(** * The display and the clicks *)

Section Clicks.
Context `{Env}.

Lemma bind_run {A B} (m : M A) (k : A -> M B) w a w1 :
  m w = Some (a, w1) -> (m ≫= k) w = k a w1.
Proof. intros Hm. unfold mbind, M_bind. rewrite Hm. reflexivity. Qed.

(** A loop of reads returns and leaves the world as it is. *)
Lemma mapM'_reads {A B} (f : A -> M B) l w :
  (forall a, a ∈ l -> exists b, f a w = Some (b, w)) ->
  exists bs, mapM' f l w = Some (bs, w).
Proof.
  induction l as [|a l IH]; intros Hf; [exists []; reflexivity|].
  destruct (Hf a) as [b Hb]; [left|].
  destruct IH as [bs Hbs]; [intros a' Ha'; apply Hf; right; exact Ha'|].
  exists (b :: bs). cbn [mapM'].
  rewrite (bind_run _ _ _ _ _ Hb), (bind_run _ _ _ _ _ Hbs). reflexivity.
Qed.

Lemma deref_reads p w :
  (p < length (heap w))%nat -> exists t, deref p w = Some (t, w).
Proof.
  intros Hp. destruct (lookup_lt_is_Some_2 _ _ Hp) as [t Ht].
  exists t. apply deref_Some. eauto.
Qed.

Lemma resultLine_reads m w :
  validMatch w m -> exists b, resultLine m w = Some (b, w).
Proof.
  intros [Hh Ha].
  destruct (deref_reads _ _ Hh) as [home Hhome].
  destruct (deref_reads _ _ Ha) as [away Haway].
  eexists. unfold resultLine.
  rewrite (bind_run _ _ _ _ _ Hhome), (bind_run _ _ _ _ _ Haway). reflexivity.
Qed.

Lemma fixtureLine_reads m w :
  validMatch w m -> exists b, fixtureLine m w = Some (b, w).
Proof.
  intros [Hh Ha].
  destruct (deref_reads _ _ Hh) as [home Hhome].
  destruct (deref_reads _ _ Ha) as [away Haway].
  eexists. unfold fixtureLine.
  rewrite (bind_run _ _ _ _ _ Hhome), (bind_run _ _ _ _ _ Haway). reflexivity.
Qed.

Lemma liveMatches_week w j week :
  liveMatches (concat (Fixtures (league w))) (length (heap w)) ->
  Fixtures (league w) !! j = Some week ->
  forall m, m ∈ week -> validMatch w m.
Proof.
  intros Hlive Hj m Hm. unfold liveMatches in Hlive.
  rewrite Forall_forall in Hlive. apply Hlive.
  apply list_elem_of_In, in_concat. exists week.
  split; apply list_elem_of_In; [|exact Hm].
  eapply list_elem_of_lookup_2. exact Hj.
Qed.

Lemma generateAllResultsTable_reads v w :
  liveMatches (concat (Fixtures (league w))) (length (heap w)) ->
  exists rows, generateAllResultsTable v w = Some (rows, w).
Proof.
  intros Hlive. unfold generateAllResultsTable.
  rewrite (bind_run _ _ w (league w) w eq_refl).
  destruct (negb (showAllResults v) || (length (Fixtures (league w)) =? 0)%nat);
    [eexists; reflexivity|].
  apply mapM'_reads. intros week Hweek.
  apply list_elem_of_lookup in Hweek as [j Hj].
  apply lookup_take_Some in Hj as [Hj _].
  apply mapM'_reads. intros m Hm. apply resultLine_reads.
  apply (liveMatches_week w j week Hlive Hj).
  apply list_elem_of_In in Hm. apply filter_In in Hm as [Hm _].
  apply list_elem_of_In. exact Hm.
Qed.

Lemma generateUpcomingMatchesTable_reads w :
  1 <= LWeek (league w) <= maxInt64 ->
  liveMatches (concat (Fixtures (league w))) (length (heap w)) ->
  exists rows, generateUpcomingMatchesTable w = Some (rows, w).
Proof.
  intros Hweek Hlive. unfold generateUpcomingMatchesTable.
  rewrite (bind_run _ _ w (league w) w eq_refl).
  destruct (Z.eqb_spec (LWeek (league w)) 0); [lia|].
  assert (Hsub : int_sub (LWeek (league w)) 1 = LWeek (league w) - 1).
  { apply wrap_small. unfold minInt64, maxInt64 in *. lia. }
  rewrite Hsub. cbv zeta.
  destruct ((LWeek (league w) - 1 >=? Z.of_nat (length (Fixtures (league w))))
            || (LWeek (league w) - 1 >=? 18)) eqn:Hend; [eexists; reflexivity|].
  apply orb_false_iff in Hend as [Hlen _].
  destruct (Z.ltb_spec (LWeek (league w) - 1) 0); [lia|].
  destruct (lookup_lt_is_Some_2 (Fixtures (league w)) (Z.to_nat (LWeek (league w) - 1)))
    as [week Hj]; [lia|].
  rewrite Hj. apply mapM'_reads. intros m Hm. apply fixtureLine_reads.
  exact (liveMatches_week w _ week Hlive Hj m Hm).
Qed.

Lemma standingsTable_returns w :
  live (Teams (league w)) (length (heap w)) ->
  exists rows l',
    standingsTable w = Some (rows, mkWorld (heap w) l' (rng w) (ticks w)) /\
    Teams l' ≡ₚ Teams (league w) /\
    LWeek l' = LWeek (league w) /\ Fixtures l' = Fixtures (league w).
Proof.
  intros Hlive.
  destruct (mapM'_reads (fun p => t ← deref p; mret (p, t)) (Teams (league w)) w)
    as [pts Hpts].
  { intros p Hp. unfold live in Hlive. rewrite Forall_forall in Hlive.
    destruct (deref_reads p w (Hlive p Hp)) as [t Ht].
    exists (p, t). rewrite (bind_run _ _ _ _ _ Ht). reflexivity. }
  destruct (mapM'_deref_pairs _ _ _ Hpts) as (_ & Hps & Hall). cbn [fst snd] in Hps, Hall.
  set (sorted := sortSlice (fun a b => lessTeams a.2 b.2) pts).
  exists (sorted.*2), (mkLeague (sorted.*1) (LWeek (league w)) (Fixtures (league w))).
  split; [|split; [|split; reflexivity]].
  - unfold standingsTable, sortTeams.
    apply bind_Some. eexists tt, _. split.
    + apply bind_Some. exists (league w), w. split; [reflexivity|].
      apply bind_Some. exists pts, w. split; [exact Hpts|]. reflexivity.
    + fold sorted. apply bind_Some. eexists _, _. split; [reflexivity|].
      cbn [league Teams].
      apply (mapM'_deref_values sorted
               (mkWorld (heap w) (mkLeague sorted.*1 (LWeek (league w))
                                    (Fixtures (league w))) (rng w) (ticks w))).
      cbn [heap]. rewrite Forall_forall in *. intros pt Hin. apply Hall.
      unfold sorted in Hin.
      rewrite (sortSlice_perm (fun a b => lessTeams a.2 b.2) pts) in Hin. exact Hin.
  - cbn [Teams]. rewrite <- Hps. apply fmap_Permutation.
    apply sortSlice_perm.
Qed.

Lemma refreshDisplay_total v w :
  IntnInRange -> 1 <= LWeek (league w) <= maxInt64 -> formsOK w ->
  live (Teams (league w)) (length (heap w)) ->
  liveMatches (concat (Fixtures (league w))) (length (heap w)) ->
  exists d w',
    refreshDisplay v w = Some (d, w') /\
    Teams (league w') ≡ₚ Teams (league w) /\
    LWeek (league w') = LWeek (league w) /\
    Fixtures (league w') = Fixtures (league w) /\
    (forall p t, heap w !! p = Some t -> heap w' !! p = Some t) /\
    (length (heap w) <= length (heap w'))%nat /\
    formsOK w'.
Proof.
  intros Hrange Hweek Hforms Hteams Hmatches.
  destruct (standingsTable_returns w Hteams) as (rows & l' & Hrun1 & Hperm & Hw & Hfx).
  set (w1 := mkWorld (heap w) l' (rng w) (ticks w)) in *.
  destruct (ChampionshipProbabilities_total (X := float) 10000 w1 Hrange)
    as (probs & w2 & Hrun2 & Hforms2).
  { cbn [league w1]. rewrite Hw. lia. }
  { exact Hforms. }
  { cbn [league heap w1]. unfold live. rewrite Hperm. exact Hteams. }
  { cbn [league heap w1]. rewrite Hfx. exact Hmatches. }
  destruct (hoare_ChampionshipProbabilities w1 10000 w1 probs w2 (keeps_refl w1) Hrun2)
    as (Hleague2 & Hlen2 & Hobj2).
  cbn [league heap w1] in Hleague2, Hlen2, Hobj2.
  assert (Hmatches2 : liveMatches (concat (Fixtures (league w2))) (length (heap w2))).
  { rewrite Hleague2, Hfx. eapply Forall_impl; [exact Hmatches|].
    cbn. intros m [Hh Ha]. lia. }
  assert (Hfacts : Teams (league w2) ≡ₚ Teams (league w) /\
                   LWeek (league w2) = LWeek (league w) /\
                   Fixtures (league w2) = Fixtures (league w) /\
                   (forall p t, heap w !! p = Some t -> heap w2 !! p = Some t) /\
                   (length (heap w) <= length (heap w2))%nat /\ formsOK w2).
  { rewrite Hleague2. repeat split; assumption. }
  unfold refreshDisplay.
  rewrite (bind_run _ _ _ _ _ Hrun1), (bind_run _ _ _ _ _ Hrun2).
  destruct (showAllResults v).
  - destruct (generateAllResultsTable_reads v w2 Hmatches2) as [all Hall].
    rewrite (bind_run _ _ _ _ _ Hall). eexists _, w2. split; [reflexivity|exact Hfacts].
  - rewrite (bind_run _ _ w2 (league w2) w2 eq_refl).
    assert (Hres : exists results,
      (if (currentWeek v >? 0)
          && (currentWeek v <=? Z.of_nat (length (Fixtures (league w2))))
       then match Fixtures (league w2) !! Z.to_nat (currentWeek v - 1) with
            | None => panic
            | Some matches => mapM' resultLine matches
            end
       else mret []) w2 = Some (results, w2)).
    { destruct ((currentWeek v >? 0)
                && (currentWeek v <=? Z.of_nat (length (Fixtures (league w2)))))
        eqn:Hcw; [|eexists; reflexivity].
      apply andb_true_iff in Hcw as [Hpos Hle].
      destruct (lookup_lt_is_Some_2 (Fixtures (league w2)) (Z.to_nat (currentWeek v - 1)))
        as [week Hj]; [lia|].
      rewrite Hj. apply mapM'_reads. intros m Hm. apply resultLine_reads.
      exact (liveMatches_week w2 _ week Hmatches2 Hj m Hm). }
    destruct Hres as [results Hres].
    rewrite (bind_run _ _ _ _ _ Hres).
    rewrite (bind_run _ _ w2 (league w2) w2 eq_refl).
    assert (Hnext : exists next,
      (if LWeek (league w2) <=? 18 then generateUpcomingMatchesTable else mret [])
        w2 = Some (next, w2)).
    { destruct (LWeek (league w2) <=? 18); [|eexists; reflexivity].
      apply generateUpcomingMatchesTable_reads; [|exact Hmatches2].
      rewrite Hleague2, Hw. exact Hweek. }
    destruct Hnext as [next Hnext].
    rewrite (bind_run _ _ _ _ _ Hnext).
    eexists _, w2. split; [reflexivity|exact Hfacts].
Qed.

(** [refreshDisplay] does not panic from week 1 on, whatever the GUI
    shows, when the teams of the league and of the matches are objects
    of the arena with forms of at least four entries and [rand.Intn(n)]
    is in [[0, n)]. Of the league it changes the order of the teams
    only; the team objects there were are as before (the trials of the
    probabilities add copies), and every form has at least four
    entries, so that the display can be refreshed again. *)
Theorem refreshDisplay_returns v w :
  IntnInRange -> 1 <= LWeek (league w) <= maxInt64 -> formsOK w ->
  live (Teams (league w)) (length (heap w)) ->
  liveMatches (concat (Fixtures (league w))) (length (heap w)) ->
  exists d w',
    refreshDisplay v w = Some (d, w') /\
    Teams (league w') ≡ₚ Teams (league w) /\
    LWeek (league w') = LWeek (league w) /\
    Fixtures (league w') = Fixtures (league w) /\
    (forall p t, heap w !! p = Some t -> heap w' !! p = Some t) /\
    formsOK w' /\
    live (Teams (league w')) (length (heap w')) /\
    liveMatches (concat (Fixtures (league w'))) (length (heap w')).
Proof.
  intros Hrange Hweek Hforms Hteams Hmatches.
  destruct (refreshDisplay_total v w Hrange Hweek Hforms Hteams Hmatches)
    as (d & w' & Hrun & Hperm & Hw & Hfx & Hobj & Hlen & Hforms').
  exists d, w'. split; [exact Hrun|]. split; [exact Hperm|].
  split; [exact Hw|]. split; [exact Hfx|]. split; [exact Hobj|].
  split; [exact Hforms'|]. split.
  - unfold live. rewrite Hperm.
    eapply Forall_impl; [exact Hteams|]. cbn. intros p Hp. lia.
  - rewrite Hfx. eapply Forall_impl; [exact Hmatches|].
    cbn. intros m [Hh Ha]. lia.
Qed.

Lemma shape_live T k w :
  seasonShape T k w ->
  live (Teams (league w)) (length (heap w)) /\
  liveMatches (concat (Fixtures (league w))) (length (heap w)).
Proof.
  intros (Hperm & _ & _ & _ & Hlive & _ & Hfx). split.
  - unfold live. rewrite Hperm. exact Hlive.
  - apply Forall_forall. intros m Hm.
    apply list_elem_of_In, in_concat in Hm as (week & Hweek & Hm).
    apply list_elem_of_In, list_elem_of_lookup in Hweek as [j Hj].
    destruct (Hfx j week Hj) as [_ Hall]. rewrite Forall_forall in Hall.
    destruct (Hall m) as (Hh & Ha & _); [apply list_elem_of_In; exact Hm|].
    unfold live in Hlive. rewrite Forall_forall in Hlive. split; auto.
Qed.

(** Refreshing the display keeps the season and the standings. *)
Lemma shape_refreshed T k v w :
  IntnInRange -> 1 <= k <= 19 -> seasonShape T k w ->
  exists d w', refreshDisplay v w = Some (d, w') /\ seasonShape T k w' /\
    forall p t, heap w !! p = Some t -> heap w' !! p = Some t.
Proof.
  intros Hrange Hk Hshape.
  destruct (shape_live T k w Hshape) as [Hteams Hmatches].
  destruct Hshape as (Hperm & Hnd & Hweek & Hforms & Hlive & Hlen & Hfx).
  destruct (refreshDisplay_total v w Hrange) as
    (d & w' & Hrun & Hperm' & Hw & Hfx' & Hobj & Hlen' & Hforms');
    [unfold maxInt64; lia|assumption..|].
  exists d, w'. split; [exact Hrun|]. split; [|exact Hobj].
  unfold seasonShape. rewrite Hw, Hfx'.
  split; [rewrite Hperm'; exact Hperm|]. split; [exact Hnd|].
  split; [exact Hweek|]. split; [exact Hforms'|].
  split; [|split; assumption].
  eapply Forall_impl; [exact Hlive|]. cbn. intros p Hp. lia.
Qed.

Lemma GUI_run_play v w l w1 :
  enterFirstWeek (league w) = Some l -> LWeek l <= 18 ->
  simulateNextWeek w = Some (tt, w1) ->
  exists v',
    GUI_simulateNextWeek v w = (refreshDisplay v';; mret v') w1.
Proof.
  intros Henter Hle Hrun.
  assert (Hgt : (LWeek l >? 18) = false) by (rewrite Z.gtb_ltb; apply Z.ltb_ge; lia).
  unfold simulateNextWeek in Hrun.
  apply bind_Some in Hrun as (l0 & w0 & [= <- <-] & Hrun).
  apply bind_Some in Hrun as (l1 & w0 & Hlift & Hrun).
  unfold liftOption in Hlift. rewrite Henter in Hlift. injection Hlift as <- <-.
  apply bind_Some in Hrun as ([] & wA & HA & Hrun).
  rewrite Hgt in Hrun.
  apply bind_Some in Hrun as ([] & wB & HB & Hrun).
  apply bind_Some in Hrun as (lB & w0 & [= <- <-] & Hrun).
  apply bind_Some in Hrun as ([] & wC & HC & Hrun).
  exists (mkView (LWeek (league wB)) (showAllResults v)).
  unfold GUI_simulateNextWeek.
  rewrite (bind_run _ _ w (league w) w eq_refl).
  rewrite (bind_run _ _ w l w) by (unfold liftOption; rewrite Henter; reflexivity).
  rewrite (bind_run _ _ _ _ _ HA), Hgt.
  rewrite (bind_run _ _ _ _ _ HB).
  rewrite (bind_run _ _ wB (league wB) wB eq_refl). cbv zeta.
  rewrite (bind_run _ _ _ _ _ HC).
  rewrite (bind_run _ _ _ _ _ Hrun). reflexivity.
Qed.

Lemma GUI_step_play T k v w l :
  IntnInRange -> enterFirstWeek (league w) = Some l -> 1 <= k <= 18 ->
  seasonShape T k (mkWorld (heap w) l (rng w) (ticks w)) ->
  exists v' w',
    GUI_simulateNextWeek v w = Some (v', w') /\
    seasonShape T (k + 1) w' /\ standing T k w'.
Proof.
  intros Hrange Henter Hk Hshape.
  assert (Hweek : LWeek l = k) by (destruct Hshape as (_ & _ & ? & _); assumption).
  destruct (season_step T k w l Hrange Henter Hk Hshape)
    as (w1 & Hrun & Hshape1 & _ & Hplayed).
  destruct (GUI_run_play v w l w1 Henter) as [v' Hgui]; [lia|exact Hrun|].
  destruct (shape_refreshed T (k + 1) v' w1 Hrange) as (d & w2 & Href & Hshape2 & Hobj);
    [lia|exact Hshape1|].
  exists v', w2. split; [|split; [exact Hshape2|]].
  - rewrite Hgui. rewrite (bind_run _ _ _ _ _ Href). reflexivity.
  - intros p Hp. destruct (Hplayed p Hp) as (t & Ht & Hpl).
    exists t. split; [apply Hobj; exact Ht|exact Hpl].
Qed.

Lemma GUI_step_over T games v w :
  IntnInRange -> seasonShape T 19 w -> standing T games w ->
  exists w',
    GUI_simulateNextWeek v w = Some (v, w') /\
    seasonShape T 19 w' /\ standing T games w'.
Proof.
  intros Hrange Hshape Hst.
  assert (Hweek : LWeek (league w) = 19) by (destruct Hshape as (_ & _ & ? & _); assumption).
  destruct (shape_refreshed T 19 v w Hrange) as (d & w2 & Href & Hshape2 & Hobj);
    [lia|exact Hshape|].
  exists w2. split; [|split; [exact Hshape2|]].
  - unfold GUI_simulateNextWeek.
    rewrite (bind_run _ _ w (league w) w eq_refl).
    rewrite (bind_run _ _ w (league w) w)
      by (unfold liftOption, enterFirstWeek; rewrite Hweek; reflexivity).
    assert (Hset : setLeague (league w) w = Some (tt, w)) by (destruct w; reflexivity).
    rewrite (bind_run _ _ _ _ _ Hset), Hweek. cbn [Z.gtb Z.compare Pos.compare Pos.compare_cont].
    rewrite (bind_run _ _ _ _ _ Href). reflexivity.
  - intros p Hp. destruct (Hst p Hp) as (t & Ht & Hpl).
    exists t. split; [apply Hobj; exact Ht|exact Hpl].
Qed.

Lemma clicks_from T : forall n k games v w,
  IntnInRange -> 1 <= k <= 19 -> games = k - 1 ->
  seasonShape T k w -> standing T games w ->
  exists v' w',
    clicks n v w = Some (v', w') /\
    seasonShape T (Z.min (k + Z.of_nat n) 19) w' /\
    standing T (Z.min (k + Z.of_nat n) 19 - 1) w'.
Proof.
  induction n as [|n IH]; intros k games v w Hrange Hk -> Hshape Hst.
  - exists v, w. replace (Z.min (k + Z.of_nat 0) 19) with k by lia.
    split; [reflexivity|]. split; assumption.
  - destruct (decide (k <= 18)) as [Hle|Hover].
    + destruct (GUI_step_play T k v w (league w) Hrange) as (v1 & w1 & Hrun & Hs1 & Hst1).
      { unfold enterFirstWeek.
        destruct Hshape as (_ & _ & Hweek & _).
        destruct (Z.eqb_spec (LWeek (league w)) 0); [lia|reflexivity]. }
      { lia. }
      { destruct w. exact Hshape. }
      destruct (IH (k + 1) k v1 w1 Hrange) as (v' & w' & Hrun' & Hs' & Hst');
        [lia|lia|exact Hs1|exact Hst1|].
      exists v', w'.
      replace (Z.min (k + Z.of_nat (S n)) 19) with (Z.min (k + 1 + Z.of_nat n) 19) by lia.
      split; [|split; assumption].
      cbn [clicks]. rewrite (bind_run _ _ _ _ _ Hrun). exact Hrun'.
    + assert (k = 19) as -> by lia.
      destruct (GUI_step_over T (19 - 1) v w Hrange Hshape Hst) as (w1 & Hrun & Hs1 & Hst1).
      destruct (IH 19 (19 - 1) v w1 Hrange) as (v' & w' & Hrun' & Hs' & Hst');
        [lia|reflexivity|exact Hs1|exact Hst1|].
      exists v', w'.
      replace (Z.min (19 + Z.of_nat (S n)) 19) with (Z.min (19 + Z.of_nat n) 19) by lia.
      split; [|split; assumption].
      cbn [clicks]. rewrite (bind_run _ _ _ _ _ Hrun). exact Hrun'.
Qed.

(** The season, call by call. From a league of four distinct teams
    in week 0, [n >= 1] calls of [GUI.simulateNextWeek] (the clicks on
    "Simulate Next Week") all go through; after them the league stands
    in week [min n 18 + 1], the matches of the weeks up to [min n 18],
    and no others, are played, and every team has played [min n 18]
    games and has at most three points a game: 18 calls play the whole
    season, and further calls leave the results and the standings as
    they are. *)
Theorem clicks_play_the_season n v w a b c d :
  IntnInRange ->
  Teams (league w) = [a; b; c; d] -> NoDup [a; b; c; d] ->
  LWeek (league w) = 0 ->
  formsOK w -> live [a; b; c; d] (length (heap w)) ->
  (1 <= n)%nat ->
  exists v' w',
    clicks n v w = Some (v', w') /\
    seasonShape [a; b; c; d] (Z.of_nat (min n 18) + 1) w' /\
    forall p, p ∈ [a; b; c; d] ->
      exists t, heap w' !! p = Some t /\
                Played t = Z.of_nat (min n 18) /\
                0 <= Points t <= 3 * Z.of_nat (min n 18).
Proof.
  intros Hrange Ht Hnd Hweek Hforms Hlive Hn.
  destruct n as [|n]; [lia|].
  destruct (generated_shape w a b c d Ht Hnd Hweek Hforms Hlive) as (l & Henter & Hshape).
  destruct (GUI_step_play [a; b; c; d] 1 v w l Hrange Henter) as (v1 & w1 & Hrun & Hs1 & Hst1);
    [lia|exact Hshape|].
  destruct (clicks_from [a; b; c; d] n (1 + 1) 1 v1 w1 Hrange) as (v' & w' & Hrun' & Hs' & Hst');
    [lia|lia|exact Hs1|exact Hst1|].
  exists v', w'.
  replace (Z.of_nat (min (S n) 18) + 1) with (Z.min (1 + 1 + Z.of_nat n) 19) by lia.
  replace (Z.of_nat (min (S n) 18)) with (Z.min (1 + 1 + Z.of_nat n) 19 - 1) by lia.
  split; [|split; [exact Hs'|exact Hst']].
  cbn [clicks]. rewrite (bind_run _ _ _ _ _ Hrun). exact Hrun'.
Qed.

End Clicks.

Lemma refreshDisplay_returns_witness :
  exists d w',
    refreshDisplay (mkView 1 false) worldWeekTwo = Some (d, w') /\
    Teams (league w') ≡ₚ Teams (league worldWeekTwo) /\
    LWeek (league w') = LWeek (league worldWeekTwo) /\
    Fixtures (league w') = Fixtures (league worldWeekTwo) /\
    (forall p t, heap worldWeekTwo !! p = Some t -> heap w' !! p = Some t) /\
    formsOK w' /\
    live (Teams (league w')) (length (heap w')) /\
    liveMatches (concat (Fixtures (league w'))) (length (heap w')).
Proof.
  apply (refreshDisplay_returns (H := lcgEnv) (mkView 1 false) worldWeekTwo).
  - exact lcgEnv_IntnInRange.
  - vm_compute. split; discriminate.
  - unfold formsOK. repeat constructor.
  - repeat constructor.
  - vm_compute. repeat constructor.
Defined.

Lemma clicks_play_the_season_witness :
  exists v' w',
    clicks 18 (mkView 0 false) worldWeekZero = Some (v', w') /\
    seasonShape [0; 1; 2; 3]%nat (Z.of_nat (min 18 18) + 1) w' /\
    forall p, p ∈ [0; 1; 2; 3]%nat ->
      exists t, heap w' !! p = Some t /\
                Played t = Z.of_nat (min 18 18) /\
                0 <= Points t <= 3 * Z.of_nat (min 18 18).
Proof.
  apply (clicks_play_the_season (H := lcgEnv) 18 (mkView 0 false) worldWeekZero
           0%nat 1%nat 2%nat 3%nat).
  - exact lcgEnv_IntnInRange.
  - reflexivity.
  - repeat (apply NoDup_cons; split;
            [rewrite ?elem_of_cons, elem_of_nil; lia|]).
    apply NoDup_nil_2.
  - reflexivity.
  - unfold formsOK. repeat constructor.
  - repeat constructor.
  - lia.
Defined.

(** * Starting the program *)

Lemma swap_Some {A} (i j : nat) (teams : list A) :
  (i < length teams)%nat -> (j < length teams)%nat ->
  exists teams', swap i j teams = Some teams' /\ teams' ≡ₚ teams.
Proof.
  intros Hi Hj.
  destruct (lookup_lt_is_Some_2 _ _ Hi) as [x Hx].
  destruct (lookup_lt_is_Some_2 _ _ Hj) as [y Hy].
  unfold swap. rewrite Hx, Hy. eexists. split; [reflexivity|].
  destruct (decide (i = j)) as [->|Hne].
  { rewrite Hx in Hy. injection Hy as ->.
    rewrite list_insert_insert_eq, list_insert_id by exact Hx. reflexivity. }
  apply Permutation_inj. split; [rewrite !length_insert; reflexivity|].
  exists (fun k => if decide (k = i) then j else if decide (k = j) then i else k).
  split.
  - intros k1 k2. repeat case_decide; congruence.
  - intros k. repeat case_decide; subst.
    + rewrite list_lookup_insert_ne by congruence.
      rewrite list_lookup_insert_eq by exact Hi. symmetry. exact Hy.
    + rewrite list_lookup_insert_eq by (rewrite length_insert; exact Hj).
      symmetry. exact Hx.
    + rewrite !list_lookup_insert_ne by congruence. reflexivity.
Qed.

Section Start.
Context `{Env}.
Variable int31n : Z -> rngState -> Z * rngState.
Hypothesis Hdraw : int31nInRange int31n.

(** The loop of [rand.Shuffle] goes through and permutes the slice; it
    uses the random source only. *)
Lemma shuffleFrom_returns {A} : forall (i : nat) (teams : list A) w,
  (i < length teams)%nat \/ i = 0%nat ->
  exists teams' w',
    shuffleFrom int31n i teams w = Some (teams', w') /\
    teams' ≡ₚ teams /\ heap w' = heap w /\ league w' = league w.
Proof.
  induction i as [|i IH]; intros teams w Hi.
  - exists teams, w. split; [reflexivity|]. split; [reflexivity|]. split; reflexivity.
  - destruct Hi as [Hi|]; [|discriminate].
    cbn [shuffleFrom].
    destruct (int31n (Z.of_nat (S i) + 1) (rng w)) as [k g] eqn:Hk.
    pose proof (Hdraw (Z.of_nat (S i) + 1) (rng w) ltac:(lia)) as Hin.
    rewrite Hk in Hin. cbn [fst] in Hin.
    set (w1 := mkWorld (heap w) (league w) g (ticks w)).
    assert (Hd : draw int31n (Z.of_nat (S i) + 1) w = Some (k, w1))
      by (unfold draw; rewrite Hk; reflexivity).
    rewrite (bind_run _ _ _ _ _ Hd).
    destruct (Z.ltb_spec k 0); [lia|].
    destruct (swap_Some (S i) (Z.to_nat k) teams Hi) as (teams1 & Hswap & Hperm1); [lia|].
    rewrite (bind_run _ _ w1 teams1 w1) by (unfold liftOption; rewrite Hswap; reflexivity).
    destruct (IH teams1 w1) as (teams' & w' & Hrun & Hperm & Hheap & Hleague).
    { left. rewrite (Permutation_length Hperm1). lia. }
    exists teams', w'. split; [exact Hrun|].
    split; [rewrite Hperm; exact Hperm1|]. split; assumption.
Qed.

Lemma selectRandomTeams_returns teams w :
  (4 <= length teams)%nat ->
  exists shuffled w',
    selectRandomTeams int31n teams w = Some (take 4 shuffled, w') /\
    shuffled ≡ₚ teams /\ heap w' = heap w /\ league w' = league w.
Proof.
  intros Hlen. unfold selectRandomTeams.
  rewrite (bind_run _ _ w tt _ eq_refl).
  edestruct (shuffleFrom_returns (length teams - 1) teams) as
    (shuffled & w' & Hrun & Hperm & Hheap & Hleague); [left; lia|].
  rewrite (bind_run _ _ _ _ _ Hrun).
  exists shuffled, w'.
  rewrite bool_decide_eq_false_2 by (rewrite (Permutation_length Hperm); lia).
  split; [reflexivity|]. split; [exact Hperm|]. split; assumption.
Qed.

Lemma alloc_blank : forall (clubs : list PremierLeagueTeam) w,
  Forall (fun club => newLeagueTeam club = Some (blankTeam club)) clubs ->
  mapM' (fun team => t ← liftOption (newLeagueTeam team); alloc t) clubs w
  = Some (seq (length (heap w)) (length clubs),
          mkWorld (heap w ++ (blankTeam <$> clubs)) (league w) (rng w) (ticks w)).
Proof.
  induction clubs as [|club clubs IH]; intros w Hall.
  - cbn. rewrite app_nil_r. destruct w; reflexivity.
  - apply Forall_cons in Hall as [Hclub Hall]. cbn [mapM'].
    set (w1 := mkWorld (heap w ++ [blankTeam club]) (league w) (rng w) (ticks w)).
    assert (Hone : (t ← liftOption (newLeagueTeam club); alloc t) w
                   = Some (length (heap w), w1)).
    { rewrite (bind_run _ _ w (blankTeam club) w)
        by (unfold liftOption; rewrite Hclub; reflexivity).
      reflexivity. }
    rewrite (bind_run _ _ _ _ _ Hone), (bind_run _ _ _ _ _ (IH w1 Hall)).
    cbn [heap league rng ticks w1 length seq fmap list_fmap].
    rewrite length_app, <- app_assoc. cbn [length app].
    replace (length (heap w) + 1)%nat with (S (length (heap w))) by lia.
    reflexivity.
Qed.

Lemma clubs_blank :
  Forall (fun club => newLeagueTeam club = Some (blankTeam club))
         getMockPremierLeagueTeams.
Proof. repeat constructor. Qed.

Lemma clubs_names_NoDup : NoDup (plName <$> getMockPremierLeagueTeams).
Proof. apply (bool_decide_unpack (NoDup (plName <$> getMockPremierLeagueTeams))). vm_compute. exact I. Qed.

(** [NewGUI] goes through. It leaves a league in week 0 of four new
    team objects, made from four different clubs of the ten (all the
    counters 0, both strengths the club's base strength, a form of five
    empty entries), with the 18 weeks of fixtures generated; the objects
    there were are as they were. *)
Theorem NewGUI_starts w :
  formsOK w ->
  exists w' a b c d ts,
    NewGUI int31n w = Some (mkView 0 false, w') /\
    Teams (league w') = [a; b; c; d] /\ NoDup [a; b; c; d] /\
    LWeek (league w') = 0 /\
    length (Fixtures (league w')) = 18%nat /\
    formsOK w' /\ live [a; b; c; d] (length (heap w')) /\
    pointTo w' [a; b; c; d] ts /\
    Forall newTeam ts /\ NoDup (Name <$> ts) /\
    forall p t, heap w !! p = Some t -> heap w' !! p = Some t.
Proof.
  intros Hforms.
  destruct (selectRandomTeams_returns getMockPremierLeagueTeams w)
    as (shuffled & w1 & Hsel & Hperm & Hheap1 & Hleague1); [cbn; lia|].
  assert (Hlen : length shuffled = 10%nat) by (rewrite (Permutation_length Hperm); reflexivity).
  destruct shuffled as [|c1 [|c2 [|c3 [|c4 rest]]]]; try (cbn in Hlen; lia).
  cbn [take] in Hsel.
  set (clubs := [c1; c2; c3; c4]) in *.
  assert (Hsub : clubs ⊆ getMockPremierLeagueTeams).
  { intros club Hclub. rewrite <- Hperm. unfold clubs in Hclub.
    rewrite !elem_of_cons in *. rewrite elem_of_nil in Hclub. tauto. }
  assert (Hblank : Forall (fun club => newLeagueTeam club = Some (blankTeam club)) clubs).
  { apply Forall_forall. intros club Hclub.
    pose proof clubs_blank as Hall. rewrite Forall_forall in Hall.
    apply Hall, Hsub, Hclub. }
  pose proof (alloc_blank clubs w1 Hblank) as Halloc.
  rewrite Hheap1, Hleague1 in Halloc.
  set (n := length (heap w)) in *.
  set (h2 := heap w ++ (blankTeam <$> clubs)) in *.
  set (w2 := mkWorld h2 (league w) (rng w1) (ticks w1)) in *.
  cbn [length clubs seq] in Halloc.
  set (T := [n; S n; S (S n); S (S (S n))]) in *.
  assert (HNL : NewLeague int31n w = Some (mkLeague T 0 [], w2)).
  { unfold NewLeague. rewrite (bind_run _ _ _ _ _ Hsel), (bind_run _ _ _ _ _ Halloc).
    reflexivity. }
  destruct (generateFixtures (mkLeague T 0 [])) as [fixtures|] eqn:Hgen;
    [|rewrite (generateFixtures_explicit _ n (S n) (S (S n)) (S (S (S n)))) in Hgen
        by reflexivity; discriminate].
  assert (Hfx := Hgen).
  rewrite (generateFixtures_explicit _ n (S n) (S (S n)) (S (S (S n)))) in Hfx
    by reflexivity.
  cbv zeta in Hfx. injection Hfx as Hfx.
  set (l3 := mkLeague T 0 fixtures).
  set (w3 := mkWorld h2 l3 (rng w1) (ticks w1)).
  assert (Hh2 : length h2 = (n + 4)%nat)
    by (unfold h2; rewrite length_app; reflexivity).
  assert (HliveT : live T (length (heap w3))).
  { cbn [heap w3]. rewrite Hh2. unfold live, T. repeat constructor; lia. }
  assert (Hpoint : pointTo w3 T (blankTeam <$> clubs)).
  { unfold pointTo, T, clubs. cbn [heap w3 fmap list_fmap]. unfold h2.
    repeat constructor;
      (rewrite lookup_app_r by (fold n; lia); fold n;
       match goal with
       | |- _ !! ?k = _ => replace k with (k - 0)%nat by lia
       end; cbn [fmap list_fmap clubs];
       match goal with
       | |- _ !! ?k = _ =>
           first [replace k with 0%nat by lia | replace k with 1%nat by lia
                 | replace k with 2%nat by lia | replace k with 3%nat by lia]
       end; reflexivity). }
  assert (Hderef : exists rows, mapM' deref T w3 = Some (rows, w3)).
  { apply mapM'_reads. intros p Hp. apply deref_reads.
    unfold live in HliveT. rewrite Forall_forall in HliveT. auto. }
  destruct Hderef as [rows Hrows].
  assert (Hnext : exists next, generateUpcomingMatchesTable w3 = Some (next, w3)).
  { unfold generateUpcomingMatchesTable.
    rewrite (bind_run _ _ w3 l3 w3 eq_refl). cbn [LWeek l3 Z.eqb Fixtures].
    rewrite <- Hfx. cbn [app].
    rewrite (bind_run _ _ w3 l3 w3) by (unfold l3; rewrite <- Hfx; reflexivity).
    cbn [Fixtures l3]. rewrite <- Hfx. cbn [app lookup list_lookup].
    apply mapM'_reads. intros m Hm. apply fixtureLine_reads.
    rewrite !elem_of_cons, elem_of_nil in Hm. unfold validMatch.
    cbn [heap w3]. rewrite Hh2.
    destruct Hm as [->|[->|[]]]; cbn; lia. }
  destruct Hnext as [next Hnext].
  exists w3, n, (S n), (S (S n)), (S (S (S n))), (blankTeam <$> clubs).
  split; [|split; [reflexivity|split; [|split; [reflexivity|split;
    [|split; [|split; [exact HliveT|split; [exact Hpoint|split; [|split]]]]]]]]].
  - unfold NewGUI. rewrite (bind_run _ _ _ _ _ HNL).
    rewrite (bind_run _ _ w2 fixtures w2) by (unfold liftOption; rewrite Hgen; reflexivity).
    rewrite (bind_run _ _ w2 tt w3 eq_refl).
    assert (Hsetup : exists d, setupUI w3 = Some (d, w3)).
    { unfold setupUI. rewrite (bind_run _ _ w3 l3 w3 eq_refl). cbn [Teams l3].
      rewrite (bind_run _ _ _ _ _ Hrows), (bind_run _ _ _ _ _ Hrows),
        (bind_run _ _ _ _ _ Hnext). eexists. reflexivity. }
    destruct Hsetup as [d Hsetup]. rewrite (bind_run _ _ _ _ _ Hsetup). reflexivity.
  - repeat (apply NoDup_cons; split;
            [rewrite ?elem_of_cons, elem_of_nil; lia|]).
    apply NoDup_nil_2.
  - cbn [league w3 Fixtures l3]. rewrite <- Hfx. reflexivity.
  - unfold formsOK. cbn [heap w3]. unfold h2. apply Forall_app. split; [exact Hforms|].
    apply Forall_fmap, Forall_forall. intros club _. cbn. lia.
  - apply Forall_fmap, Forall_forall. intros club Hclub. exists club.
    split; [apply Hsub, Hclub|reflexivity].
  - rewrite <- list_fmap_compose.
    change (Name ∘ blankTeam) with plName.
    assert (Htake : clubs = take 4 (c1 :: c2 :: c3 :: c4 :: rest)) by reflexivity.
    rewrite Htake, fmap_take.
    eapply sublist_NoDup; [|apply sublist_take].
    rewrite Hperm. exact clubs_names_NoDup.
  - intros p t Hp. cbn [heap w3]. unfold h2. apply lookup_app_l_Some. exact Hp.
Qed.

End Start.

Lemma lcgInt31n_range : int31nInRange (H := lcgEnv) lcgInt31n.
Proof.
  intros n s Hn. unfold lcgInt31n. cbn [fst].
  apply Z.mod_pos_bound. exact Hn.
Qed.

Lemma NewGUI_starts_witness :
  exists w' a b c d ts,
    NewGUI (H := lcgEnv) lcgInt31n worldAtStart = Some (mkView 0 false, w') /\
    Teams (league w') = [a; b; c; d] /\ NoDup [a; b; c; d] /\
    LWeek (league w') = 0 /\
    length (Fixtures (league w')) = 18%nat /\
    formsOK w' /\ live [a; b; c; d] (length (heap w')) /\
    pointTo w' [a; b; c; d] ts /\
    Forall newTeam ts /\ NoDup (Name <$> ts) /\
    forall p t, heap worldAtStart !! p = Some t -> heap w' !! p = Some t.
Proof.
  apply (NewGUI_starts (H := lcgEnv) lcgInt31n lcgInt31n_range worldAtStart).
  unfold formsOK. constructor.
Defined.

(** * Editing a result *)

Section Edit.
Context `{Env}.

(** In a season the replay goes through, and gives every team the
    games of the weeks played. *)
Lemma recalculate_in_season T k w :
  1 <= k <= 19 -> seasonShape T k w ->
  exists w',
    recalculateAllStats w = Some (tt, w') /\
    seasonShape T k w' /\ standing T (k - 1) w'.
Proof.
  intros Hk Hshape.
  destruct (shape_live T k w Hshape) as [Hteams Hmatches].
  pose proof Hshape as (Hperm & Hnd & Hweek & Hforms & Hlive & Hlen & Hfx).
  destruct (recalculateAllStats_total w Hforms Hteams)
    as (w' & Hrun & Hforms' & Hheap & Hleague).
  { apply Forall_forall. intros week Hin.
    apply list_elem_of_lookup in Hin as [j Hj].
    apply lookup_take_Some in Hj as [Hj _].
    apply Forall_forall. intros m Hm.
    exact (liveMatches_week w j week Hmatches Hj m Hm). }
  assert (Hshape' : seasonShape T k w').
  { unfold seasonShape. rewrite Hleague, Hheap.
    repeat split; try assumption; apply (Hfx j matches); assumption. }
  exists w'. split; [exact Hrun|]. split; [exact Hshape'|].
  intros p Hp.
  destruct (recalculate_games w w' p Hrun) as (t & Ht & HPl & _ & _ & _ & HPt).
  { rewrite Hperm. exact Hp. }
  pose proof (tally_points_bound p (replayed (league w))) as Hb.
  rewrite (season_games T k w p Hshape Hk Hp) in HPl, Hb.
  exists t. split; [exact Ht|].
  rewrite HPl, HPt, !wrap_small by (unfold minInt64, maxInt64; lia).
  split; [reflexivity|lia].
Qed.

(** Saving a result for a match of a week already played, in a season
    in week [k]: the handler goes through, whatever the two numbers
    are; the match has the result entered and is fixed and played, no
    other match changes, and the season stands as before: the same
    weeks are played, every team has its [k - 1] games, and at most
    three points a game. *)
Theorem saveResult_keeps_season T k week i homeGoals awayGoals v w matches m :
  IntnInRange -> 1 <= k <= 19 -> seasonShape T k w ->
  Z.of_nat week < k - 1 ->
  Fixtures (league w) !! week = Some matches -> matches !! i = Some m ->
  exists d w',
    saveResult week i homeGoals awayGoals v w = Some (d, w') /\
    Fixtures (league w')
    = <[week := <[i := mkMatch (HomeTeam m) (AwayTeam m) homeGoals awayGoals
                          true true (Week m)]> matches]> (Fixtures (league w)) /\
    seasonShape T k w' /\ standing T (k - 1) w'.
Proof.
  intros Hrange Hk Hshape Hplayed Hweek Hm.
  set (m' := mkMatch (HomeTeam m) (AwayTeam m) homeGoals awayGoals true true (Week m)).
  set (l1 := mkLeague (Teams (league w)) (LWeek (league w))
               (<[week := <[i := m']> matches]> (Fixtures (league w)))).
  set (w1 := mkWorld (heap w) l1 (rng w) (ticks w)).
  assert (Hshape1 : seasonShape T k w1).
  { destruct Hshape as (Hperm & Hnd & Hw & Hforms & Hlive & Hlen & Hfx).
    unfold seasonShape. cbn [league heap w1 l1 Teams LWeek Fixtures].
    split; [exact Hperm|]. split; [exact Hnd|]. split; [exact Hw|].
    split; [exact Hforms|]. split; [exact Hlive|].
    split; [rewrite length_insert; exact Hlen|].
    intros j ms Hj.
    destruct (decide (j = week)) as [->|Hne].
    - rewrite list_lookup_insert_eq in Hj by (eapply lookup_lt_Some; exact Hweek).
      injection Hj as <-.
      destruct (Hfx week matches Hweek) as [Happ Hall].
      assert (Hm_in : HomeTeam m ∈ T /\ AwayTeam m ∈ T /\ HomeTeam m ≠ AwayTeam m).
      { rewrite Forall_forall in Hall.
        destruct (Hall m) as (? & ? & ? & _); [eapply list_elem_of_lookup_2; exact Hm|].
        auto. }
      split.
      + intros p Hp. rewrite <- (Happ p Hp). apply appearances_same.
        apply Forall2_same_length_lookup. split; [rewrite length_insert; reflexivity|].
        intros j x y Hx Hy.
        destruct (decide (j = i)) as [->|Hji].
        * rewrite list_lookup_insert_eq in Hy by (eapply lookup_lt_Some; exact Hm).
          rewrite Hm in Hx. injection Hx as <-. injection Hy as <-. split; reflexivity.
        * rewrite list_lookup_insert_ne in Hy by congruence.
          rewrite Hx in Hy. injection Hy as <-. split; reflexivity.
      + apply Forall_insert; [exact Hall|].
        destruct Hm_in as (Hh & Ha & Hne).
        cbn [HomeTeam AwayTeam m']. repeat split; try assumption.
        symmetry. apply bool_decide_eq_true. exact Hplayed.
    - rewrite list_lookup_insert_ne in Hj by congruence. exact (Hfx j ms Hj). }
  destruct (recalculate_in_season T k w1 Hk Hshape1) as (w2 & Hrun2 & Hshape2 & Hst2).
  destruct (shape_refreshed T k v w2 Hrange Hk Hshape2) as (d & w3 & Hrun3 & Hshape3 & Hobj).
  assert (Hleague2 : league w2 = l1).
  { destruct (shape_live T k w1 Hshape1) as [Hteams1 Hmatches1].
    destruct Hshape1 as (_ & _ & _ & Hforms1 & _).
    destruct (recalculateAllStats_total w1 Hforms1 Hteams1) as (w2' & Hrun2' & _ & _ & Hl).
    { apply Forall_forall. intros wk Hin.
      apply list_elem_of_lookup in Hin as [j Hj].
      apply lookup_take_Some in Hj as [Hj _].
      apply Forall_forall. intros x Hx.
      exact (liveMatches_week w1 j wk Hmatches1 Hj x Hx). }
    rewrite Hrun2 in Hrun2'. injection Hrun2' as <-. exact Hl. }
  exists d, w3. split; [|split; [|split; [exact Hshape3|]]].
  - unfold saveResult. rewrite (bind_run _ _ w (league w) w eq_refl).
    rewrite Hweek, Hm. fold m' l1.
    rewrite (bind_run (setLeague l1) _ w tt w1 eq_refl), (bind_run _ _ _ _ _ Hrun2).
    exact Hrun3.
  - destruct (refreshDisplay_total v w2 Hrange) as
      (d' & w3' & Hrun3' & _ & _ & Hfx3 & _).
    { destruct Hshape2 as (_ & _ & Hw2 & _). unfold maxInt64. lia. }
    { destruct Hshape2 as (_ & _ & _ & ? & _). assumption. }
    { apply (shape_live T k w2 Hshape2). }
    { apply (shape_live T k w2 Hshape2). }
    rewrite Hrun3 in Hrun3'. injection Hrun3' as _ <-.
    rewrite Hfx3, Hleague2. reflexivity.
  - intros p Hp. destruct (Hst2 p Hp) as (t & Ht & Hpl).
    exists t. split; [apply Hobj; exact Ht|exact Hpl].
Qed.

End Edit.

Lemma worldWeekTwo_shape : seasonShape [0; 1; 2; 3]%nat 2 worldWeekTwo.
Proof.
  unfold seasonShape.
  split; [reflexivity|].
  split; [repeat (apply NoDup_cons; split;
                  [rewrite ?elem_of_cons, elem_of_nil; lia|]);
          apply NoDup_nil_2|].
  split; [reflexivity|].
  split; [unfold formsOK; repeat constructor|].
  split; [repeat constructor|].
  split; [reflexivity|].
  intros j matches Hj.
  do 18 (destruct j as [|j];
    [injection Hj as <-; split;
     [intros p Hp; rewrite !elem_of_cons, elem_of_nil in Hp;
      destruct Hp as [->|[->|[->|[->|[]]]]]; reflexivity
     |repeat constructor; rewrite ?elem_of_cons; auto 6; discriminate]|]).
  discriminate.
Qed.

Lemma saveResult_keeps_season_witness :
  exists d w',
    saveResult 0 1 5 (-2) (mkView 1 false) worldWeekTwo = Some (d, w') /\
    Fixtures (league w')
    = <[0%nat := <[1%nat := mkMatch 1%nat 2%nat 5 (-2) true true 1]>
                   [mkMatch 0%nat 3%nat 0 0 true false 1;
                    mkMatch 1%nat 2%nat 1 1 true false 1]]>
        (Fixtures (league worldWeekTwo)) /\
    seasonShape [0; 1; 2; 3]%nat 2 w' /\ standing [0; 1; 2; 3]%nat (2 - 1) w'.
Proof.
  apply (saveResult_keeps_season (H := lcgEnv) [0; 1; 2; 3]%nat 2 0 1 5 (-2)
           (mkView 1 false) worldWeekTwo
           [mkMatch 0%nat 3%nat 0 0 true false 1;
            mkMatch 1%nat 2%nat 1 1 true false 1]
           (mkMatch 1%nat 2%nat 1 1 true false 1)).
  - exact lcgEnv_IntnInRange.
  - lia.
  - exact worldWeekTwo_shape.
  - lia.
  - reflexivity.
  - reflexivity.
Defined.
